(** * broker.go: the per-node connection of the Kafka client

    A shallow embedding of [broker.go] and the properties of its
    specification.

    - Part 1: values of the Go program (int32, byte slices, errors) and the
      packet codec interfaces the broker calls into.
    - Part 2: the node descriptor, [encode] and [decode].
    - Part 3: the connection as a transition system: the callers of
      [sendRequest] / [sendAndReceive], the goroutines [sendRequestLoop] and
      [rcvResponseLoop], the unbuffered channels between them and the socket.
    - Part 4: invariants of all runs, and the properties. *)

From Stdlib Require Import ZArith Lia List Bool.
From Stdlib.Strings Require Import Byte.
From stdpp Require Import base tactics option list sets strings.
Import ListNotations.

Local Open Scope Z_scope.

(* ===================================================================== *)
(** * Part 1: Go values *)
(* ===================================================================== *)

(** ** int32 *)

(** A Go [int32] is a [Z] in the signed 32-bit range; arithmetic on it wraps
    around. *)
Definition int32_range (z : Z) : Prop := - 2 ^ 31 <= z < 2 ^ 31.

Definition wrap32 (z : Z) : Z := (z + 2 ^ 31) mod 2 ^ 32 - 2 ^ 31.

(** [math.MaxUint16] *)
Definition MaxUint16 : Z := 65535.

(** ** bytes *)

Definition Z_of_byte (b : byte) : Z := Z.of_N (Byte.to_N b).

Definition byte_of_Z (z : Z) : byte :=
  match Byte.of_N (Z.to_N (z mod 256)) with
  | Some b => b
  | None => Byte.x00
  end.

(** A Go [[]byte] is [nil] or a sequence of bytes: [buf != nil] tells the two
    apart, also when the sequence is empty. *)
Definition goslice : Type := option (list byte).

(** ** errors *)

(** The Go [error] values the broker handles.  [DecodingError] is this
    package's own error type (a struct with a message, built in this file as
    [DecodingError{"..."}] and [DecodingError{}]); [NetError] stands for the
    errors of the packages [net] and [io]; [CodecError] for those of the
    request and response codecs.  A Go [error] that may be [nil] is an
    [option error]. *)
Inductive error : Type :=
| DecodingError (msg : string)
| NetError (code : nat)
| CodecError (code : nat).

Definition is_DecodingError (e : option error) : Prop :=
  exists msg, e = Some (DecodingError msg).

(** ** The packet codec *)

(** Modelled from the spec: the big-endian, two's-complement encoding of an
    int32 on four bytes, which [putInt32] writes and [getInt32] reads (the
    functions themselves are in the encoder and decoder files). *)
Definition int32_bytes (z : Z) : list byte :=
  [byte_of_Z (z / 2 ^ 24); byte_of_Z (z / 2 ^ 16); byte_of_Z (z / 2 ^ 8);
   byte_of_Z z].

Definition int32_of_bytes (b0 b1 b2 b3 : byte) : Z :=
  wrap32 (Z_of_byte b0 * 2 ^ 24 + Z_of_byte b1 * 2 ^ 16
          + Z_of_byte b2 * 2 ^ 8 + Z_of_byte b3).

(** The interface [packetEncoder]: each [put] appends the encoding of its
    argument to the output, so it is given here as the bytes it appends. *)
Class packetEncoder : Type := {
  putInt32 : Z -> list byte;
  putString : option string -> list byte
}.

(** The interface [packetDecoder]: the decoder's state is the input it has
    not read yet; each [get] returns a value and an error (nil or not, as in
    Go) and the remaining input.  A [*string] is an [option string]. *)
Class packetDecoder : Type := {
  getInt32 : list byte -> Z * option error * list byte;
  getString : list byte -> option string * option error * list byte
}.

(** What a decoder must do on the output of the matching encoder.
    [encodable] says which strings the encoder can write at all (a length
    prefix has a fixed width). *)
Class PacketCodec (pe : packetEncoder) (pd : packetDecoder) : Type := {
  encodable : option string -> Prop;
  getInt32_putInt32 : forall z rest,
    int32_range z -> getInt32 (putInt32 z ++ rest) = (z, None, rest);
  getString_putString : forall s rest,
    encodable s -> getString (putString s ++ rest) = (s, None, rest)
}.

(** *** [realDecoder] and [realEncoder] *)

(** Modelled from the spec: [realDecoder.getInt32], four bytes big-endian;
    with fewer than four bytes left it returns an error. *)
Definition real_getInt32 (raw : list byte) : Z * option error * list byte :=
  match raw with
  | b0 :: b1 :: b2 :: b3 :: rest => (int32_of_bytes b0 b1 b2 b3, None, rest)
  | _ => (-1, Some (DecodingError "insufficient data"), raw)
  end.

(** Modelled from the spec: a length-prefixed string.  The prefix is a
    big-endian int16 here, and -1 for a nil string, as in the Kafka wire
    format. *)
Definition int16_bytes (z : Z) : list byte :=
  [byte_of_Z (z / 2 ^ 8); byte_of_Z z].

Definition int16_of_bytes (b0 b1 : byte) : Z :=
  (Z_of_byte b0 * 2 ^ 8 + Z_of_byte b1 + 2 ^ 15) mod 2 ^ 16 - 2 ^ 15.

Definition real_putString (s : option string) : list byte :=
  match s with
  | None => int16_bytes (-1)
  | Some str =>
      int16_bytes (Z.of_nat (String.length str)) ++ String.list_byte_of_string str
  end.

Definition real_getString (raw : list byte)
  : option string * option error * list byte :=
  match raw with
  | b0 :: b1 :: rest =>
      let n := int16_of_bytes b0 b1 in
      if n =? -1 then (None, None, rest)
      else if (n <? -1) || (Z.of_nat (length rest) <? n)
      then (None, Some (DecodingError "bad string length"), raw)
      else (Some (String.string_of_list_byte (take (Z.to_nat n) rest)), None,
            drop (Z.to_nat n) rest)
  | _ => (None, Some (DecodingError "insufficient data"), raw)
  end.

#[export] Instance realEncoder : packetEncoder :=
  {| putInt32 := int32_bytes; putString := real_putString |}.

#[export] Instance realDecoder : packetDecoder :=
  {| getInt32 := real_getInt32; getString := real_getString |}.

(** The strings [realEncoder] can write: nil, and those whose length fits
    the int16 prefix. *)
Definition real_encodable (s : option string) : Prop :=
  match s with
  | None => True
  | Some str => Z.of_nat (String.length str) < 2 ^ 15
  end.

(* ===================================================================== *)
(** * Part 2: the node descriptor *)
(* ===================================================================== *)

(** The fields of [broker] that are plain data.  The socket and the two
    channels are part of the connection state of Part 3. *)
Record broker : Type := {
  id : Z;
  host : option string;
  port : Z;
  correlation_id : Z
}.

Definition set_id (v : Z) (b : broker) : broker :=
  {| id := v; host := host b; port := port b;
     correlation_id := correlation_id b |}.
Definition set_host (v : option string) (b : broker) : broker :=
  {| id := id b; host := v; port := port b;
     correlation_id := correlation_id b |}.
Definition set_port (v : Z) (b : broker) : broker :=
  {| id := id b; host := host b; port := v;
     correlation_id := correlation_id b |}.
Definition set_correlation_id (v : Z) (b : broker) : broker :=
  {| id := id b; host := host b; port := port b; correlation_id := v |}.

(** How a call ends: it returns its error result, or the goroutine
    panics. *)
Inductive returned : Type :=
| Return (err : option error)
| Panic.

(** The network, as [connect] sees it: the outcome of
    [net.ResolveIPAddr("ip", host)], an error or an address, and of
    [net.DialTCP] to that address and the port.  Their errors are errors of
    package [net]. *)
Class Network : Type := {
  ResolveIPAddr : string -> nat + nat;
  DialTCP : nat -> Z -> option nat
}.

Section Descriptor.

Context {net : Network}.

(** [connect].  Dereferencing a nil [b.host] panics.  On success the two
    channels are made and the two workers started: the connection is then
    in the state [connected b] of Part 3. *)
Definition connect (b : broker) : returned :=
  match host b with
  | None => Panic
  | Some h =>
      match ResolveIPAddr h with
      | inl e => Return (Some (NetError e))
      | inr addr =>
          match DialTCP addr (port b) with
          | Some e => Return (Some (NetError e))
          | None => Return None
          end
      end
  end.

(** [newBroker]: on error the broker is dropped ([nil, err]). *)
Definition newBroker (h : string) (p : Z) : option broker * returned :=
  let b := {| id := -1; host := Some h; port := p; correlation_id := 0 |} in
  match connect b with
  | Return None => (Some b, Return None)
  | r => (None, r)
  end.

Context {pe : packetEncoder} {pd : packetDecoder}.

(** [encode] *)
Definition encode (b : broker) : list byte :=
  putInt32 (id b) ++ putString (host b) ++ putInt32 (port b).

(** [decode]: every field is assigned as soon as it is read, also when the
    read or a later step fails. *)
Definition decode (b : broker) (raw : list byte) : broker * returned :=
  let '(v, err, raw) := getInt32 raw in
  let b := set_id v b in
  match err with
  | Some e => (b, Return (Some e))
  | None =>
      let '(h, err, raw) := getString raw in
      let b := set_host h b in
      match err with
      | Some e => (b, Return (Some e))
      | None =>
          let '(p, err, raw) := getInt32 raw in
          let b := set_port p b in
          match err with
          | Some e => (b, Return (Some e))
          | None =>
              if port b >? MaxUint16
              then (b, Return (Some (DecodingError "Broker port > 65536")))
              else (b, connect b)
          end
      end
  end.

End Descriptor.

(* ===================================================================== *)
(** * Part 3: the connection as a transition system *)
(* ===================================================================== *)

(** ** Channels and the values sent on them *)

(** The channels of one connection: [b.requests] and [b.responses], made by
    [connect], and for every promise the pair [packets], [errors] made on
    line 174 of [sendRequest].  All of them are unbuffered. *)
Inductive chan : Type :=
| Requests
| Responses
| Packets (n : nat)
| Errors (n : nat).

#[global] Instance chan_eq_dec : EqDecision chan.
Proof. solve_decision. Defined.

(** [responsePromise].  The two channels of a promise are made together, on
    line 174, and nowhere else: [rp_chans] is the number of that pair. *)
Record responsePromise : Type := {
  rp_correlation_id : Z;
  rp_chans : nat
}.

Definition packets (p : responsePromise) : chan := Packets (rp_chans p).
Definition errors (p : responsePromise) : chan := Errors (rp_chans p).

(** [requestToSend] *)
Record requestToSend : Type := {
  response : responsePromise;
  expectResponse : bool
}.

(** ** The receiver's check of a frame header (lines 141 to 152) *)

Inductive header_check : Type :=
| BadLength
| BadCorrelation
| HeaderOk (length : Z).

(** [decoder := realDecoder{raw: header}], then the two [getInt32] whose
    errors are dropped, and the two tests.  The length is tested first. *)
Definition check_header (response : responsePromise) (header : list byte)
  : header_check :=
  let '(length, _, rest) := real_getInt32 header in
  if (length <=? 4) || (length >? 2 * MaxUint16) then BadLength
  else
    let '(corr_id, _, _) := real_getInt32 rest in
    if negb (rp_correlation_id response =? corr_id) then BadCorrelation
    else HeaderOk length.

(** ** The select of [sendAndReceive] (lines 190 to 201) *)

(** What the select receives: a value from [packets] (nil when the channel
    is closed) or a value from [errors] (nil when it is closed). *)
Inductive selected : Type :=
| FromPackets (buf : goslice)
| FromErrors (err : option error).

(** ** The request and response codecs *)

(** [request]: the correlation id and what else a request holds. *)
Record request (body : Type) : Type := {
  req_correlation_id : Z;
  req_body : body
}.
Arguments req_correlation_id {body} _.
Arguments req_body {body} _.

(** The codecs are in other files; the broker uses them through
    - [req.expectResponse()],
    - [buildBytes(&req)], the serialized request or an error,
    - the interface [decoder], with [res.decode(&realDecoder{raw: buf})]. *)
Class RequestCodec : Type := {
  request_body : Type;
  req_expectResponse : request request_body -> bool;
  buildBytes : request request_body -> goslice + error;
  decoder : Type;
  decode_response : decoder -> list byte -> option error
}.

(** ** Program points of the two workers *)

(** The lines of [forceDisconnect]. *)
Inductive fd_pc : Type := FD72 | FD73 | FD74 | FD76 | FD77 | FD79.

(** A worker runs its loop, or is inside [forceDisconnect], or has
    returned. *)
Inductive worker (pc : Type) : Type :=
| Running (at_line : pc)
| Disconnecting (at_line : fd_pc) (reqRes : responsePromise) (err : error)
| Returned.
Arguments Running {pc} _.
Arguments Disconnecting {pc} _ _ _.
Arguments Returned {pc}.

(** [sendRequestLoop] *)
Inductive sender_pc : Type :=
| S116
| S117 (request : requestToSend)
| S118 (request : requestToSend) (buf : goslice)
| S124 (request : requestToSend)
| S126 (request : requestToSend)
| S127 (request : requestToSend).

(** [rcvResponseLoop] *)
Inductive receiver_pc : Type :=
| R134
| R135 (response : responsePromise)
| R155 (response : responsePromise) (length : Z)
| R161 (response : responsePromise) (buf : list byte)
| R162 (response : responsePromise)
| R163 (response : responsePromise).

Inductive wid : Type := Sender | Receiver.

Section Connection.

Context {codec : RequestCodec}.

(** Lines 190 to 201, [err] being nil when the select is reached. *)
Definition sendAndReceive_select (res : decoder) (sel : selected)
  : bool * option error :=
  match sel with
  | FromPackets (Some buf) => (true, decode_response res buf)
  | FromPackets None => (false, None)
  | FromErrors err => (false, err)
  end.

(** ** Program points *)

(** Which function a caller called. *)
Inductive call_kind : Type :=
| SendOnly
| SendAndReceive (res : decoder).

(** A caller, at the line it is about to run, with its local variables. *)
Inductive caller : Type :=
| C168 (k : call_kind) (req : request request_body)
| C174 (k : call_kind) (req : request request_body) (packet : goslice)
| C176 (k : call_kind) (req : request request_body) (sendRequest : requestToSend)
       (packet : goslice)
| C177 (k : call_kind) (req : request request_body) (sendRequest : requestToSend)
       (packet : goslice)
| C178 (k : call_kind) (req : request request_body) (sendRequest : requestToSend)
| C178w (k : call_kind) (req : request request_body)
        (sendRequest : requestToSend) (loaded : Z)
| C190 (res : decoder) (responseChan : responsePromise)
| SendRequestReturned (p : option responsePromise) (err : option error)
| SendAndReceiveReturned (gotReply : bool) (err : option error).

(** What the caller gets when [sendRequest] fails on line 171: from
    [sendRequest] itself [nil, err], from [sendAndReceive] (line 187)
    [false, err]. *)
Definition return_error (k : call_kind) (err : error) : caller :=
  match k with
  | SendOnly => SendRequestReturned None (Some err)
  | SendAndReceive _ => SendAndReceiveReturned false (Some err)
  end.

(** Line 179, and for [sendAndReceive] the way to the select. *)
Definition return_promise (k : call_kind) (p : responsePromise) : caller :=
  match k with
  | SendOnly => SendRequestReturned (Some p) None
  | SendAndReceive res => C190 res p
  end.

(** ** What happened so far *)

Inductive event : Type :=
| EvAccept (r : requestToSend) (req : request request_body) (packet : goslice)
| EvWrite (r : requestToSend) (buf : goslice) (res : option error)
| EvHandoff (p : responsePromise)
| EvHeader (p : responsePromise) (header : list byte)
| EvPacket (p : responsePromise) (buf : list byte) (tid : nat)
| EvError (w : wid) (p : responsePromise) (err : error) (tid : nat)
| EvClose (w : wid) (c : chan)
| EvConnClose (w : wid)
| EvPanic.

(** ** The state of a connection *)

Record state : Type := {
  b : broker;
  closed : list chan;
  conn_closes : nat;
  next_chans : nat;
  sender : worker sender_pc;
  receiver : worker receiver_pc;
  callers : list caller;
  panicked : bool;
  trace : list event
}.

(** The state [connect] leaves: both channels made, the socket open, both
    workers at the head of their loops. *)
Definition connected (b0 : broker) : state :=
  {| b := b0; closed := []; conn_closes := 0; next_chans := 0;
     sender := Running S116; receiver := Running R134; callers := [];
     panicked := false; trace := [] |}.

Definition set_b (v : broker) (s : state) : state :=
  {| b := v; closed := closed s; conn_closes := conn_closes s;
     next_chans := next_chans s; sender := sender s;
     receiver := receiver s; callers := callers s;
     panicked := panicked s; trace := trace s |}.
Definition set_closed (v : list chan) (s : state) : state :=
  {| b := b s; closed := v; conn_closes := conn_closes s;
     next_chans := next_chans s; sender := sender s;
     receiver := receiver s; callers := callers s;
     panicked := panicked s; trace := trace s |}.
Definition set_conn_closes (v : nat) (s : state) : state :=
  {| b := b s; closed := closed s; conn_closes := v;
     next_chans := next_chans s; sender := sender s;
     receiver := receiver s; callers := callers s;
     panicked := panicked s; trace := trace s |}.
Definition set_next_chans (v : nat) (s : state) : state :=
  {| b := b s; closed := closed s; conn_closes := conn_closes s;
     next_chans := v; sender := sender s;
     receiver := receiver s; callers := callers s;
     panicked := panicked s; trace := trace s |}.
Definition set_sender (v : worker sender_pc) (s : state) : state :=
  {| b := b s; closed := closed s; conn_closes := conn_closes s;
     next_chans := next_chans s; sender := v;
     receiver := receiver s; callers := callers s;
     panicked := panicked s; trace := trace s |}.
Definition set_receiver (v : worker receiver_pc) (s : state) : state :=
  {| b := b s; closed := closed s; conn_closes := conn_closes s;
     next_chans := next_chans s; sender := sender s;
     receiver := v; callers := callers s;
     panicked := panicked s; trace := trace s |}.
Definition set_callers (v : list caller) (s : state) : state :=
  {| b := b s; closed := closed s; conn_closes := conn_closes s;
     next_chans := next_chans s; sender := sender s;
     receiver := receiver s; callers := v;
     panicked := panicked s; trace := trace s |}.
Definition set_panicked (v : bool) (s : state) : state :=
  {| b := b s; closed := closed s; conn_closes := conn_closes s;
     next_chans := next_chans s; sender := sender s;
     receiver := receiver s; callers := callers s;
     panicked := v; trace := trace s |}.
Definition set_trace (v : list event) (s : state) : state :=
  {| b := b s; closed := closed s; conn_closes := conn_closes s;
     next_chans := next_chans s; sender := sender s;
     receiver := receiver s; callers := callers s;
     panicked := panicked s; trace := v |}.

Definition set_caller (tid : nat) (c : caller) (s : state) : state :=
  set_callers (<[tid := c]> (callers s)) s.

Definition emit (e : event) (s : state) : state :=
  set_trace (trace s ++ [e]) s.

Definition is_closed (c : chan) (s : state) : bool :=
  bool_decide (c ∈ closed s).

(** A panic in any goroutine ends the program. *)
Definition panic (s : state) : state :=
  emit EvPanic (set_panicked true s).

(** [close(c)], after which the goroutine goes on with [next]: closing a
    closed channel panics. *)
Definition close (w : wid) (c : chan) (next : state -> state) (s : state)
  : state :=
  if is_closed c s then panic s
  else next (emit (EvClose w c) (set_closed (c :: closed s) s)).

(** A goroutine blocked in a send on [c]: it stays blocked while [c] is
    open, and panics once [c] is closed. *)
Definition blocked_send (c : chan) (s : state) : option state :=
  if is_closed c s then Some (panic s) else None.

(** ** Steps *)

(** Who moves.  A send and a receive on an unbuffered channel happen
    together: [LAccept], [LPacket], [LHandoff], [LDeliver] and [LFail] are
    those meetings.  The results of the socket operations come with the
    label. *)
Inductive label : Type :=
| LCall (k : call_kind) (req : request request_body)
| LCaller (tid : nat)
| LAccept (tid : nat)
| LPacket (tid : nat)
| LSender
| LWrite (res : option error)
| LHandoff
| LReceiver
| LReadHeader (res : list byte + error)
| LReadBody (res : list byte + error)
| LDeliver (tid : nat)
| LFail (w : wid) (tid : nat)
| LDisconnect (w : wid)
| LSelectClosed (tid : nat) (on_errors : bool).

(** *** [sendRequest], lines 168 to 179 *)

(** A caller's statements that need no partner.
    - 168-172: the request gets the counter's value and is serialized;
      on an error the call returns.
    - 174: the promise gets the counter's value (read again) and two new
      channels.
    - 176, 177: the sends; alone, they can only panic on a closed channel.
    - 178: [b.correlation_id++] is a load and a store, with nothing to
      keep another caller from running in between: first the counter is
      loaded,
    - 178-179: then the loaded value plus one is stored (an int32: it
      wraps), and the promise returned. *)
Definition caller_step (tid : nat) (s : state) : option state :=
  match callers s !! tid with
  | Some (C168 k req) =>
      let req := {| req_correlation_id := correlation_id (b s);
                    req_body := req_body req |} in
      match buildBytes req with
      | inr err => Some (set_caller tid (return_error k err) s)
      | inl packet => Some (set_caller tid (C174 k req packet) s)
      end
  | Some (C174 k req packet) =>
      let sendRequest :=
        {| response := {| rp_correlation_id := correlation_id (b s);
                          rp_chans := next_chans s |};
           expectResponse := req_expectResponse req |} in
      Some (set_caller tid (C176 k req sendRequest packet)
              (set_next_chans (S (next_chans s)) s))
  | Some (C176 k req sendRequest packet) => blocked_send Requests s
  | Some (C177 k req sendRequest packet) =>
      blocked_send (packets (response sendRequest)) s
  | Some (C178 k req sendRequest) =>
      Some (set_caller tid (C178w k req sendRequest (correlation_id (b s)))
              s)
  | Some (C178w k req sendRequest loaded) =>
      Some (set_caller tid (return_promise k (response sendRequest))
              (set_b (set_correlation_id (wrap32 (loaded + 1)) (b s)) s))
  | _ => None
  end.

(** Line 176 meets line 116: the sender takes the caller's envelope. *)
Definition accept_step (tid : nat) (s : state) : option state :=
  match sender s, callers s !! tid with
  | Running S116, Some (C176 k req sendRequest packet) =>
      if is_closed Requests s then None
      else Some (emit (EvAccept sendRequest req packet)
                   (set_caller tid (C177 k req sendRequest packet)
                      (set_sender (Running (S117 sendRequest)) s)))
  | _, _ => None
  end.

(** Line 177 meets line 117: the sender takes the serialized bytes. *)
Definition packet_step (tid : nat) (s : state) : option state :=
  match sender s, callers s !! tid with
  | Running (S117 request), Some (C177 k req sendRequest packet) =>
      if bool_decide (packets (response sendRequest)
                      = packets (response request))
         && negb (is_closed (packets (response request)) s)
      then Some (set_caller tid (C178 k req sendRequest)
                   (set_sender (Running (S118 request packet)) s))
      else None
  | _, _ => None
  end.

(** *** [sendRequestLoop], lines 116 to 128 *)

(** The sender's statements that need no partner: the loop ends when
    [b.requests] is closed (116); a receive on a closed channel gives nil
    (117); the send on line 124 alone can only panic; lines 126, 127
    close the promise's channels. *)
Definition sender_step (s : state) : option state :=
  match sender s with
  | Running S116 =>
      if is_closed Requests s then Some (set_sender Returned s) else None
  | Running (S117 request) =>
      if is_closed (packets (response request)) s
      then Some (set_sender (Running (S118 request None)) s)
      else None
  | Running (S124 request) => blocked_send Responses s
  | Running (S126 request) =>
      Some (close Sender (packets (response request))
              (set_sender (Running (S127 request))) s)
  | Running (S127 request) =>
      Some (close Sender (errors (response request))
              (set_sender (Running S116)) s)
  | _ => None
  end.

(** Lines 118 to 123: [b.conn.Write(buf)] and the two tests.  A write on a
    closed socket fails. *)
Definition write_step (res : option error) (s : state) : option state :=
  match sender s with
  | Running (S118 request buf) =>
      match res with
      | Some err =>
          Some (emit (EvWrite request buf (Some err))
                  (set_sender (Disconnecting FD72 (response request) err)
                     s))
      | None =>
          if (conn_closes s =? 0)%nat
          then Some (emit (EvWrite request buf None)
                       (set_sender
                          (Running (if expectResponse request
                                    then S124 request else S126 request))
                          s))
          else None
      end
  | _ => None
  end.

(** Line 124 meets line 134: the promise goes to the receiver. *)
Definition handoff_step (s : state) : option state :=
  match sender s, receiver s with
  | Running (S124 request), Running R134 =>
      if is_closed Responses s then None
      else Some (emit (EvHandoff (response request))
                   (set_receiver (Running (R135 (response request)))
                      (set_sender (Running S116) s)))
  | _, _ => None
  end.

(** *** [rcvResponseLoop], lines 134 to 163 *)

Definition receiver_step (s : state) : option state :=
  match receiver s with
  | Running R134 =>
      if is_closed Responses s then Some (set_receiver Returned s)
      else None
  | Running (R161 response buf) => blocked_send (packets response) s
  | Running (R162 response) =>
      Some (close Receiver (packets response)
              (set_receiver (Running (R163 response))) s)
  | Running (R163 response) =>
      Some (close Receiver (errors response)
              (set_receiver (Running R134)) s)
  | _ => None
  end.

(** Lines 135 to 152: [io.ReadFull(b.conn, header)] gives the eight bytes
    of the header or an error (always an error on a closed socket), then
    the header is checked. *)
Definition read_header_step (res : list byte + error) (s : state)
  : option state :=
  match receiver s with
  | Running (R135 response) =>
      match res with
      | inr err =>
          Some (set_receiver (Disconnecting FD72 response err) s)
      | inl header =>
          if (length header =? 8)%nat && (conn_closes s =? 0)%nat
          then
            Some (emit (EvHeader response header)
              (set_receiver
                 match check_header response header with
                 | HeaderOk len => Running (R155 response len)
                 | _ => Disconnecting FD72 response (DecodingError EmptyString)
                 end s))
          else None
      end
  | _ => None
  end.

(** Lines 154 to 159: [buf := make([]byte, length-4)] and
    [io.ReadFull(b.conn, buf)], which fills [buf] or fails. *)
Definition read_body_step (res : list byte + error) (s : state)
  : option state :=
  match receiver s with
  | Running (R155 response len) =>
      match res with
      | inr err =>
          Some (set_receiver (Disconnecting FD72 response err) s)
      | inl buf =>
          if (Z.of_nat (length buf) =? len - 4) && (conn_closes s =? 0)%nat
          then Some (set_receiver (Running (R161 response buf)) s)
          else None
      end
  | _ => None
  end.

(** Line 161 meets line 191: the reply goes to the caller in the select. *)
Definition deliver_step (tid : nat) (s : state) : option state :=
  match receiver s, callers s !! tid with
  | Running (R161 response buf), Some (C190 res responseChan) =>
      if bool_decide (packets responseChan = packets response)
         && negb (is_closed (packets response) s)
      then
        let '(gotReply, err) :=
          sendAndReceive_select res (FromPackets (Some buf)) in
        Some (emit (EvPacket response buf tid)
                (set_caller tid (SendAndReceiveReturned gotReply err)
                   (set_receiver (Running (R162 response)) s)))
      else None
  | _, _ => None
  end.

(** *** [forceDisconnect], lines 72 to 79 *)

Definition get_worker (w : wid) (s : state)
  : option (fd_pc * responsePromise * error) :=
  match w with
  | Sender =>
      match sender s with
      | Disconnecting pc reqRes err => Some (pc, reqRes, err)
      | _ => None
      end
  | Receiver =>
      match receiver s with
      | Disconnecting pc reqRes err => Some (pc, reqRes, err)
      | _ => None
      end
  end.

Definition set_worker (w : wid) (pc : option fd_pc)
    (reqRes : responsePromise) (err : error) (s : state) : state :=
  match w, pc with
  | Sender, Some pc => set_sender (Disconnecting pc reqRes err) s
  | Sender, None => set_sender Returned s
  | Receiver, Some pc => set_receiver (Disconnecting pc reqRes err) s
  | Receiver, None => set_receiver Returned s
  end.

(** Line 72 meets line 198: the error goes to the caller in the select. *)
Definition fail_step (w : wid) (tid : nat) (s : state) : option state :=
  match get_worker w s, callers s !! tid with
  | Some (FD72, reqRes, err), Some (C190 res responseChan) =>
      if bool_decide (errors responseChan = errors reqRes)
         && negb (is_closed (errors reqRes) s)
      then
        let '(gotReply, e) :=
          sendAndReceive_select res (FromErrors (Some err)) in
        Some (emit (EvError w reqRes err tid)
                (set_caller tid (SendAndReceiveReturned gotReply e)
                   (set_worker w (Some FD73) reqRes err s)))
      else None
  | _, _ => None
  end.

(** Lines 73 to 79, then the worker's [return]; line 72 alone can only
    panic on a closed channel. *)
Definition disconnect_step (w : wid) (s : state) : option state :=
  match get_worker w s with
  | Some (FD72, reqRes, err) => blocked_send (errors reqRes) s
  | Some (FD73, reqRes, err) =>
      Some (close w (errors reqRes) (set_worker w (Some FD74) reqRes err) s)
  | Some (FD74, reqRes, err) =>
      Some (close w (packets reqRes)
              (set_worker w (Some FD76) reqRes err) s)
  | Some (FD76, reqRes, err) =>
      Some (close w Requests (set_worker w (Some FD77) reqRes err) s)
  | Some (FD77, reqRes, err) =>
      Some (close w Responses (set_worker w (Some FD79) reqRes err) s)
  | Some (FD79, reqRes, err) =>
      Some (emit (EvConnClose w)
              (set_conn_closes (S (conn_closes s))
                 (set_worker w None reqRes err s)))
  | None => None
  end.

(** *** The select on closed channels *)

(** A receive on a closed channel gives the zero value at once. *)
Definition select_closed_step (tid : nat) (on_errors : bool) (s : state)
  : option state :=
  match callers s !! tid with
  | Some (C190 res responseChan) =>
      if is_closed (if on_errors then errors responseChan
                    else packets responseChan) s
      then
        let '(gotReply, err) :=
          sendAndReceive_select res
            (if on_errors then FromErrors None else FromPackets None) in
        Some (set_caller tid (SendAndReceiveReturned gotReply err) s)
      else None
  | _ => None
  end.

(** *** One step of the connection *)

Definition step (l : label) (s : state) : option state :=
  if panicked s then None
  else
    match l with
    | LCall k req => Some (set_callers (callers s ++ [C168 k req]) s)
    | LCaller tid => caller_step tid s
    | LAccept tid => accept_step tid s
    | LPacket tid => packet_step tid s
    | LSender => sender_step s
    | LWrite res => write_step res s
    | LHandoff => handoff_step s
    | LReceiver => receiver_step s
    | LReadHeader res => read_header_step res s
    | LReadBody res => read_body_step res s
    | LDeliver tid => deliver_step tid s
    | LFail w tid => fail_step w tid s
    | LDisconnect w => disconnect_step w s
    | LSelectClosed tid on_errors => select_closed_step tid on_errors s
    end.

(** A run: the steps of a schedule, one after the other. *)
Fixpoint run (ls : list label) (s : state) : option state :=
  match ls with
  | [] => Some s
  | l :: ls =>
      match step l s with
      | Some s' => run ls s'
      | None => None
      end
  end.

End Connection.

(* ===================================================================== *)
(** * Notions the properties are stated with *)
(* ===================================================================== *)

(** A call that returned a [DecodingError]. *)
Definition fails_with_DecodingError (r : returned) : Prop :=
  exists msg, r = Return (Some (DecodingError msg)).

Section Observations.

Context {codec : RequestCodec}.

(** *** What a run has done, read off its trace *)

Definition ev_accept (e : event)
  : option (requestToSend * request request_body * goslice) :=
  match e with EvAccept r req pk => Some (r, req, pk) | _ => None end.
Definition ev_write (e : event)
  : option (requestToSend * goslice * option error) :=
  match e with EvWrite r buf res => Some (r, buf, res) | _ => None end.
Definition ev_handoff (e : event) : option responsePromise :=
  match e with EvHandoff p => Some p | _ => None end.
Definition ev_header (e : event) : option (responsePromise * list byte) :=
  match e with EvHeader p header => Some (p, header) | _ => None end.
Definition ev_packet (e : event)
  : option (responsePromise * list byte * nat) :=
  match e with EvPacket p buf tid => Some (p, buf, tid) | _ => None end.
Definition ev_error (p : responsePromise) (e : event)
  : option (wid * error * nat) :=
  match e with
  | EvError w q err tid =>
      if bool_decide (errors q = errors p) then Some (w, err, tid)
      else None
  | _ => None
  end.
Definition ev_conn_close (e : event) : option wid :=
  match e with EvConnClose w => Some w | _ => None end.

(** The envelopes the sender took off [b.requests], in that order, each
    with the request as its caller serialized it and the bytes it
    serialized to. *)
Definition accepted (s : state)
  : list (requestToSend * request request_body * goslice) :=
  omap ev_accept (trace s).

(** The calls of [b.conn.Write], in order: whose envelope, the bytes, the
    result. *)
Definition written (s : state)
  : list (requestToSend * goslice * option error) :=
  omap ev_write (trace s).

(** The promises the receiver took off [b.responses], in order. *)
Definition handed (s : state) : list responsePromise :=
  omap ev_handoff (trace s).

(** The frame headers the receiver read, each with the promise it was
    read for. *)
Definition matched (s : state) : list (responsePromise * list byte) :=
  omap ev_header (trace s).

(** The replies handed to callers: promise, body, caller. *)
Definition delivered (s : state)
  : list (responsePromise * list byte * nat) :=
  omap ev_packet (trace s).

(** The errors handed to callers on the [errors] channel of [p]. *)
Definition errors_delivered (p : responsePromise) (s : state)
  : list (wid * error * nat) :=
  omap (ev_error p) (trace s).

(** The workers that closed the socket. *)
Definition conn_closed_by (s : state) : list wid :=
  omap ev_conn_close (trace s).

(** The queue of the sender: the accepted envelopes with their bytes. *)
Definition queued (s : state) : list (requestToSend * goslice) :=
  map (fun a => (fst (fst a), snd a)) (accepted s).

(** The wire: what was passed to [Write], call after call. *)
Definition wire (s : state) : list (requestToSend * goslice) :=
  map (fun w => (fst (fst w), snd (fst w))) (written s).

(** The promise of a request written in full that expects a response. *)
Definition ev_await (w : requestToSend * goslice * option error)
  : option responsePromise :=
  match snd w with
  | None =>
      if expectResponse (fst (fst w)) then Some (response (fst (fst w)))
      else None
  | Some _ => None
  end.

(** The promises whose replies are due, in the order of the writes. *)
Definition awaiting (s : state) : list responsePromise :=
  omap ev_await (written s).

(** The pair of channels of an accepted envelope. *)
Definition accepted_chans
    (a : requestToSend * request request_body * goslice) : nat :=
  rp_chans (response (fst (fst a))).

(** *** The promise a worker is servicing *)

Definition sender_promise (w : worker sender_pc) : option responsePromise :=
  match w with
  | Running S116 => None
  | Running (S117 r) | Running (S118 r _) | Running (S124 r)
  | Running (S126 r) | Running (S127 r) => Some (response r)
  | Disconnecting _ p _ => Some p
  | Returned => None
  end.

Definition receiver_promise (w : worker receiver_pc)
  : option responsePromise :=
  match w with
  | Running R134 => None
  | Running (R135 p) | Running (R155 p _) | Running (R161 p _)
  | Running (R162 p) | Running (R163 p) => Some p
  | Disconnecting _ p _ => Some p
  | Returned => None
  end.

(** The channels of its promise a worker has not closed yet. *)
Definition fd_open (pc : fd_pc) (p : responsePromise) : list chan :=
  match pc with
  | FD72 | FD73 => [errors p; packets p]
  | FD74 => [packets p]
  | _ => []
  end.

Definition sender_open (w : worker sender_pc) : list chan :=
  match w with
  | Running (S117 r) | Running (S118 r _) | Running (S124 r)
  | Running (S126 r) => [packets (response r); errors (response r)]
  | Running (S127 r) => [errors (response r)]
  | Disconnecting pc p _ => fd_open pc p
  | _ => []
  end.

Definition receiver_open (w : worker receiver_pc) : list chan :=
  match w with
  | Running (R135 p) | Running (R155 p _) | Running (R161 p _)
  | Running (R162 p) => [packets p; errors p]
  | Running (R163 p) => [errors p]
  | Disconnecting pc p _ => fd_open pc p
  | _ => []
  end.

(** The pair of channels a caller made (line 174), once it has. *)
Definition caller_chans (c : caller) : option nat :=
  match c with
  | C176 _ _ r _ | C177 _ _ r _ | C178 _ _ r | C178w _ _ r _ =>
      Some (rp_chans (response r))
  | C190 _ p => Some (rp_chans p)
  | SendRequestReturned (Some p) _ => Some (rp_chans p)
  | _ => None
  end.

(** A caller that is inside [sendRequest]. *)
Definition in_sendRequest (c : caller) : bool :=
  match c with
  | C168 _ _ | C174 _ _ _ | C176 _ _ _ _ | C177 _ _ _ _ | C178 _ _ _
  | C178w _ _ _ _ => true
  | _ => false
  end.

End Observations.

Section Invariants.

Context {codec : RequestCodec}.

(** *** Who holds which promise *)

Definition all_open (cs : list chan) (s : state) : Prop :=
  foldr (fun c P => (c ∉ closed s) /\ P) True cs.

(** The channel [c] is none of the promise [p]. *)
Definition chan_apart (c : chan) (p : option responsePromise) : Prop :=
  match p with
  | Some p => c <> packets p /\ c <> errors p
  | None => True
  end.

(** The pair of channels [n] is not the one of the promise [p]. *)
Definition not_chans (n : nat) (p : option responsePromise) : Prop :=
  match p with
  | Some p => rp_chans p <> n
  | None => True
  end.

Definition made (s : state) (p : option responsePromise) : Prop :=
  match p with
  | Some p => (rp_chans p < next_chans s)%nat
  | None => True
  end.

(** The two workers hold different promises. *)
Definition apart (s : state) : Prop :=
  match sender_promise (sender s), receiver_promise (receiver s) with
  | Some p, Some q => rp_chans p <> rp_chans q
  | _, _ => True
  end.

(** A pair of channels nobody but its maker has seen: both are open, no
    worker holds a promise with them, no accepted envelope has them. *)
Definition unseen (s : state) (n : nat) : Prop :=
  (Packets n ∉ closed s)
  /\ (Errors n ∉ closed s)
  /\ not_chans n (sender_promise (sender s))
  /\ not_chans n (receiver_promise (receiver s))
  /\ (n ∉ map accepted_chans (accepted s)).

(** The custody of promises: a worker finds the channels of its promise
    open until it closes them itself; the two workers never hold the same
    promise; a promise waiting to be accepted is fresh; no two callers
    made the same pair of channels. *)
Record Own (s : state) : Prop := {
  own_sender_open : all_open (sender_open (sender s)) s;
  own_receiver_open : all_open (receiver_open (receiver s)) s;
  own_apart : apart s;
  own_sender_made : made s (sender_promise (sender s));
  own_receiver_made : made s (receiver_promise (receiver s));
  own_closed_made : forall n,
    Packets n ∈ closed s \/ Errors n ∈ closed s -> (n < next_chans s)%nat;
  own_accepted_made : forall n,
    n ∈ map accepted_chans (accepted s) -> (n < next_chans s)%nat;
  own_accepted_NoDup : NoDup (map accepted_chans (accepted s));
  own_caller_made : forall tid c n,
    callers s !! tid = Some c -> caller_chans c = Some n ->
    (n < next_chans s)%nat;
  own_caller_apart : forall t1 t2 c1 c2 n,
    callers s !! t1 = Some c1 -> callers s !! t2 = Some c2 ->
    caller_chans c1 = Some n -> caller_chans c2 = Some n -> t1 = t2;
  own_fresh : forall tid k req r pk,
    callers s !! tid = Some (C176 k req r pk) ->
    unseen s (rp_chans (response r))
}.

(** *** The order of the pipeline *)

(** Where the sender is in its queue: all accepted envelopes are written,
    but the one it holds before line 118; all promises due are handed to
    the receiver, but the one it holds on line 124. *)
Definition sender_order (s : state) : Prop :=
  match sender s with
  | Running (S117 r) =>
      (exists pk, queued s = wire s ++ [(r, pk)])
      /\ awaiting s = handed s
  | Running (S118 r buf) =>
      queued s = wire s ++ [(r, buf)] /\ awaiting s = handed s
  | Running (S124 r) =>
      queued s = wire s /\ awaiting s = handed s ++ [response r]
  | _ => queued s = wire s /\ awaiting s = handed s
  end.

(** Where the receiver is: it has read a header for every promise it
    took, but the one it holds on line 135; it has delivered a reply for
    every header, but the one it is reading the body of. *)
Definition receiver_order (s : state) : Prop :=
  let hs := map fst (matched s) in
  let ds := map (fun d => fst (fst d)) (delivered s) in
  match receiver s with
  | Running R134 => handed s = hs /\ hs = ds
  | Running (R135 p) => handed s = hs ++ [p] /\ hs = ds
  | Running (R155 p _) | Running (R161 p _) =>
      handed s = hs /\ hs = ds ++ [p]
  | Running (R162 p) | Running (R163 p) => handed s = hs /\ hs = ds
  | Disconnecting _ p _ =>
      (handed s = hs \/ handed s = hs ++ [p])
      /\ (hs = ds \/ hs = ds ++ [p])
  | Returned =>
      (handed s = hs \/ exists p, handed s = hs ++ [p])
      /\ (hs = ds \/ exists p, hs = ds ++ [p])
  end.

Record Order (s : state) : Prop := {
  ord_sender : sender_order s;
  ord_receiver : receiver_order s;
  ord_c177 : forall tid k req r pk,
    callers s !! tid = Some (C177 k req r pk) ->
    sender s = Running (S117 r) /\ queued s = wire s ++ [(r, pk)]
}.

(** *** The teardown *)

(** A worker that has closed [b.requests] and not yet the socket. *)
Definition fd_past {pc : Type} (w : worker pc) : nat :=
  match w with
  | Disconnecting FD77 _ _ | Disconnecting FD79 _ _ => 1
  | _ => 0
  end.

(** A worker that has just handed its error over on [Errors n], and is
    about to close that channel. *)
Definition fd_delivered {pc : Type} (w : worker pc) (n : nat) : Prop :=
  match w with
  | Disconnecting FD73 q _ => rp_chans q = n
  | _ => False
  end.

(** The teardown runs once: only the worker that closed [b.requests]
    closes [b.responses] and the socket, and a promise gets an error at
    most once, before its [errors] channel is closed. *)
Record Tear (s : state) : Prop := {
  tear_queues : Responses ∈ closed s -> Requests ∈ closed s;
  tear_once :
    (conn_closes s + fd_past (sender s) + fd_past (receiver s)
     <= if bool_decide (Requests ∈ closed s) then 1 else 0)%nat;
  tear_closed_by : length (conn_closed_by s) = conn_closes s;
  tear_errors : forall p,
    errors_delivered p s = []
    \/ ((length (errors_delivered p s) = 1)%nat
        /\ (Errors (rp_chans p) ∈ closed s
            \/ fd_delivered (sender s) (rp_chans p)
            \/ fd_delivered (receiver s) (rp_chans p)))
}.

(** *** Who was served *)

(** Where an error handed to a caller comes from: the receiver delivers
    on promises that were handed to it, the sender on the promise of the
    envelope it failed to write. *)
Definition error_source (s : state) (e : event) : Prop :=
  match e with
  | EvError Receiver p _ _ => p ∈ handed s
  | EvError Sender p err _ =>
      exists r buf, (r, buf, Some err) ∈ written s /\ response r = p
  | _ => True
  end.

Record Served (s : state) : Prop := {
  srv_receiver : forall p,
    receiver_promise (receiver s) = Some p -> p ∈ handed s;
  srv_sender : forall pc p err,
    sender s = Disconnecting pc p err ->
    exists r buf, (r, buf, Some err) ∈ written s /\ response r = p;
  srv_errors : forall e, e ∈ trace s -> error_source s e
}.

(** *** What was serialized *)

(** The bytes a caller holds are those of its request, and the flag of
    its envelope is the one of its request. *)
Definition caller_built (c : caller) : Prop :=
  match c with
  | C174 _ req pk => buildBytes req = inl pk
  | C176 _ req r pk | C177 _ req r pk =>
      buildBytes req = inl pk
      /\ expectResponse r = req_expectResponse req
  | _ => True
  end.

Record Built (s : state) : Prop := {
  built_callers : forall tid c,
    callers s !! tid = Some c -> caller_built c;
  built_accepted : forall r req pk,
    (r, req, pk) ∈ accepted s ->
    buildBytes req = inl pk /\ expectResponse r = req_expectResponse req
}.

(** *** All of them *)

Record Inv (s : state) : Prop := {
  inv_own : Own s;
  inv_order : Order s;
  inv_tear : Tear s;
  inv_served : Served s;
  inv_built : Built s
}.

End Invariants.

(** *** Frames *)

(** The two fields of a frame header, as the receiver decodes them. *)
Definition frame_length (header : list byte) : Z :=
  fst (fst (real_getInt32 header)).

Definition frame_correlation (header : list byte) : Z :=
  fst (fst (real_getInt32 (snd (real_getInt32 header)))).

(** A frame header: length, then correlation id. *)
Definition frame_header (len corr : Z) : list byte :=
  int32_bytes len ++ int32_bytes corr.

Section ClaimNotions.

Context {codec : RequestCodec}.

(** The receiver, given this header for the promise it holds, goes into
    the teardown with a [DecodingError]. *)
Definition rejects (s : state) (header : list byte) : Prop :=
  exists s' p,
    step (LReadHeader (inl header)) s = Some s'
    /\ receiver s' = Disconnecting FD72 p (DecodingError EmptyString).

(** [forceDisconnect] from its first line to the worker's return, the
    caller [tid] taking the error in its select. *)
Definition teardown (w : wid) (tid : nat) : list label :=
  [LFail w tid; LDisconnect w; LDisconnect w; LDisconnect w;
   LDisconnect w; LDisconnect w].

(** What the trace shows of it. *)
Definition teardown_events (w : wid) (p : responsePromise) (err : error)
    (tid : nat) : list event :=
  [EvError w p err tid; EvClose w (errors p); EvClose w (packets p);
   EvClose w Requests; EvClose w Responses; EvConnClose w].

(** *** A teardown among other goroutines *)

(** The worker [w] has returned. *)
Definition returned_worker (w : wid) (s : state) : Prop :=
  match w with
  | Sender => sender s = Returned
  | Receiver => receiver s = Returned
  end.

(** The statements of [forceDisconnect] a worker has behind it. *)
Definition fd_stage (pc : fd_pc) : nat :=
  match pc with
  | FD72 => 0 | FD73 => 1 | FD74 => 2 | FD76 => 3 | FD77 => 4 | FD79 => 5
  end.

(** The worker [w] is in [forceDisconnect] for the promise [p] and the
    error [err] with [n] statements behind it, or, for [n = 6], it has
    returned. *)
Definition teardown_stage (w : wid) (p : responsePromise) (err : error)
    (n : nat) (s : state) : Prop :=
  match get_worker w s with
  | Some (pc, q, e) => q = p /\ e = err /\ n = fd_stage pc
  | None => returned_worker w s /\ n = 6%nat
  end.

(** What the statement number [m] of [forceDisconnect] leaves: lines 72,
    73, 74, 76, 77 and 79. *)
Definition teardown_effect (w : wid) (p : responsePromise) (err : error)
    (m : nat) (s : state) : Prop :=
  match m with
  | 1 => exists tid, (w, err, tid) ∈ errors_delivered p s
  | 2 => errors p ∈ closed s
  | 3 => packets p ∈ closed s
  | 4 => Requests ∈ closed s
  | 5 => Responses ∈ closed s
  | 6 => w ∈ conn_closed_by s
  | _ => True
  end%nat.

Definition teardown_done (w : wid) (p : responsePromise) (err : error)
    (n : nat) (s : state) : Prop :=
  forall m, (m <= n)%nat -> teardown_effect w p err m s.

(** The teardown of the worker [w] for [p] and [err] is complete: the
    error was delivered on [p], once; the two channels of [p] and the two
    queues are closed; the socket was closed once, by [w]. *)
Definition torn_down_by (w : wid) (p : responsePromise) (err : error)
    (s : state) : Prop :=
  (exists tid, errors_delivered p s = [(w, err, tid)])
  /\ errors p ∈ closed s /\ packets p ∈ closed s
  /\ Requests ∈ closed s /\ Responses ∈ closed s
  /\ conn_closes s = 1%nat /\ conn_closed_by s = [w].

(** The connection takes no further work: no envelope is accepted, no
    promise handed over, no write and no read succeeds. *)
Definition no_further_work (s : state) : Prop :=
  (forall t, step (LAccept t) s = None)
  /\ step LHandoff s = None
  /\ step (LWrite None) s = None
  /\ (forall header, step (LReadHeader (inl header)) s = None)
  /\ (forall buf, step (LReadBody (inl buf)) s = None).

(** The promise [p] comes from a plain call of [sendRequest] that has
    returned: its caller holds the promise and is not in a select. *)
Definition abandoned (p : responsePromise) (s : state) : Prop :=
  exists t0 p' e0,
    callers s !! t0 = Some (SendRequestReturned (Some p') e0)
    /\ rp_chans p' = rp_chans p.

(** The caller that takes part in a step, when one does. *)
Definition label_caller (l : label) : option nat :=
  match l with
  | LCaller tid | LAccept tid | LPacket tid | LDeliver tid | LFail _ tid
  | LSelectClosed tid _ => Some tid
  | _ => None
  end.

(** The pair of channels of the envelope of a write. *)
Definition written_chans (w : requestToSend * goslice * option error)
  : nat :=
  rp_chans (response (fst (fst w))).

(** The writes for the envelope with the pair of channels [n]. *)
Definition writes_of (n : nat) (s : state)
  : list (requestToSend * goslice * option error) :=
  filter (fun w => written_chans w = n) (written s).

(** The sender's turn for an envelope that expects no response: the
    write, then lines 126 and 127. *)
Definition no_reply_turn : list label := [LWrite None; LSender; LSender].

(** *** Sequential callers *)

Fixpoint count_if (f : caller -> bool) (cs : list caller) : nat :=
  match cs with
  | [] => 0
  | c :: cs => (if f c then 1 else 0) + count_if f cs
  end.

(** At most one caller is inside [sendRequest]. *)
Definition sequential (s : state) : bool :=
  (count_if in_sendRequest (callers s) <=? 1)%nat.

(** A run all of whose states are sequential. *)
Fixpoint run_seq (ls : list label) (s : state) : option state :=
  if sequential s then
    match ls with
    | [] => Some s
    | l :: ls =>
        match step l s with
        | Some s' => run_seq ls s'
        | None => None
        end
    end
  else None.

(** A caller whose envelope is accepted and which has not incremented
    the counter yet (lines 177 and 178, up to the store). *)
Definition before_increment (c : caller) : bool :=
  match c with
  | C177 _ _ _ _ | C178 _ _ _ | C178w _ _ _ _ => true
  | _ => false
  end.

(** The correlation ids of an accepted envelope: the promise's and the
    serialized request's. *)
Definition accepted_ids
    (a : requestToSend * request request_body * goslice) : Z * Z :=
  (rp_correlation_id (response (fst (fst a))),
   req_correlation_id (snd (fst a))).

(** The values a counter that starts at [c0] takes, wrapping as an
    int32 does. *)
Definition ids_from (c0 : Z) (n : nat) : list Z :=
  map (fun i => wrap32 (c0 + Z.of_nat i)) (seq 0 n).

(** The correlation ids a caller inside [sendRequest] has put in its
    request (line 168) and in its promise (line 174), and the value it
    has loaded on line 178, are [cur]. *)
Definition caller_ids (cur : Z) (c : caller) : Prop :=
  match c with
  | C174 _ req _ => req_correlation_id req = cur
  | C176 _ req r _ | C177 _ req r _ | C178 _ req r =>
      req_correlation_id req = cur /\ rp_correlation_id (response r) = cur
  | C178w _ req r loaded =>
      req_correlation_id req = cur /\ rp_correlation_id (response r) = cur
      /\ loaded = cur
  | _ => True
  end.

(** The counter of a connection whose callers are sequential: it counts
    the accepted envelopes, but the one whose caller has not reached
    line 178 yet; the caller inside [sendRequest] has used its value; the
    accepted envelopes have the values it took, in order. *)
Record Counter (c0 : Z) (s : state) : Prop := {
  cnt_value :
    correlation_id (b s)
    = wrap32 (c0 + Z.of_nat (length (accepted s))
              - Z.of_nat (count_if before_increment (callers s)));
  cnt_callers : forall tid c,
    callers s !! tid = Some c -> caller_ids (correlation_id (b s)) c;
  cnt_accepted :
    map accepted_ids (accepted s)
    = map (fun c => (c, c)) (ids_from c0 (length (accepted s)))
}.

End ClaimNotions.


Section ReplyNotions.

Context {codec : RequestCodec}.

(** *** Replies and their headers *)

(** The reply [d] was read under the header [m]: for the same promise, and
    the header passes the check with the length of the body plus 4. *)
Definition reply_of (d : responsePromise * list byte * nat)
    (m : responsePromise * list byte) : Prop :=
  fst (fst d) = fst m
  /\ check_header (fst m) (snd m)
     = HeaderOk (Z.of_nat (length (snd (fst d))) + 4).

(** The receiver between the header and the delivery: the last header read
    is the one of the promise it holds, and it passed the check. *)
Definition receiver_reading (s : state) : Prop :=
  match receiver s with
  | Running (R155 p len) =>
      exists ms header,
        matched s = ms ++ [(p, header)]
        /\ check_header p header = HeaderOk len
  | Running (R161 p buf) =>
      exists ms header,
        matched s = ms ++ [(p, header)]
        /\ check_header p header = HeaderOk (Z.of_nat (length buf) + 4)
  | _ => True
  end.

Record Replies (s : state) : Prop := {
  rep_reading : receiver_reading s;
  rep_delivered :
    Forall2 reply_of (delivered s) (take (length (delivered s)) (matched s))
}.

(** *** A whole exchange *)

(** A connection at rest: both workers at the head of their loops, nothing
    torn down. *)
Definition idle (s : state) : Prop :=
  panicked s = false /\ sender s = Running S116
  /\ receiver s = Running R134 /\ conn_closes s = 0%nat
  /\ (Requests ∉ closed s) /\ (Responses ∉ closed s).

(** One call of [sendAndReceive] by a new caller [tid], served to its end:
    the call, lines 168 to 178, the write, the hand-over, the reply read
    and delivered, and the receiver's two closes. *)
Definition exchange (tid : nat) (res : decoder)
    (req : request request_body) (header body : list byte) : list label :=
  [LCall (SendAndReceive res) req; LCaller tid; LCaller tid; LAccept tid;
   LPacket tid; LCaller tid; LCaller tid; LWrite None; LHandoff;
   LReadHeader (inl header); LReadBody (inl body); LDeliver tid;
   LReceiver; LReceiver].

(** One call of [sendAndReceive] with a request that expects no response:
    after the write the sender closes the channels, and the select takes
    the closed [packets]. *)
Definition one_way (tid : nat) (res : decoder)
    (req : request request_body) : list label :=
  [LCall (SendAndReceive res) req; LCaller tid; LCaller tid; LAccept tid;
   LPacket tid; LCaller tid; LCaller tid; LWrite None; LSender; LSender;
   LSelectClosed tid false].

(** *** The counter under concurrent callers *)

(** The value [v] is one the counter can have: the initial value plus a
    number of increments that is at most the number of accepted envelopes
    whose callers have stored on line 178. *)
Definition counted (c0 : Z) (s : state) (v : Z) : Prop :=
  exists k : nat,
    (k + count_if before_increment (callers s) <= length (accepted s))%nat
    /\ v = wrap32 (c0 + Z.of_nat k).

(** The counter, and every value a caller has loaded on line 178 and not
    stored yet, are such values. *)
Record Behind (c0 : Z) (s : state) : Prop := {
  behind_counter : counted c0 s (correlation_id (b s));
  behind_loaded : forall tid k req r v,
    callers s !! tid = Some (C178w k req r v) -> counted c0 s v
}.

End ReplyNotions.
(* ===================================================================== *)
(** * A concrete codec and network, to run the definitions on *)
(* ===================================================================== *)

Module Example.

(** Requests are numbered; even ones expect a response; request 99 does
    not serialize; the others serialize to one byte that tells whether
    their correlation id is 0. *)
#[global] Instance codec : RequestCodec := {|
  request_body := nat;
  req_expectResponse := fun r => Nat.even (req_body r);
  buildBytes := fun r =>
    if (req_body r =? 99)%nat then inr (CodecError 1)
    else inl (Some (if req_correlation_id r =? 0 then [x00] else [x01]));
  decoder := bool;
  decode_response := fun ok _ =>
    if ok then None else Some (DecodingError "bad response")
|}.

(** A network where only port 9092 of a known host answers. *)
#[global] Instance network : Network := {|
  ResolveIPAddr := fun h =>
    if String.eqb h "unknown" then inl 1%nat else inr 7%nat;
  DialTCP := fun _ p => if p =? 9092 then None else Some 2%nat
|}.

Definition b0 : broker :=
  {| id := -1; host := Some "kafka1"%string; port := 9092;
     correlation_id := 0 |}.

Definition req (n : nat) : request nat :=
  {| req_correlation_id := 0; req_body := n |}.

(** One [sendAndReceive] of request 2, up to the receiver taking its
    promise (line 134): caller 0 is then in its select. *)
Definition one_call : list label :=
  [LCall (SendAndReceive true) (req 2); LCaller 0; LCaller 0; LAccept 0;
   LPacket 0; LCaller 0; LCaller 0; LWrite None; LHandoff].

(** ... and its reply, a frame of length 5 with correlation id 0. *)
Definition one_reply : list label :=
  [LReadHeader (inl (frame_header 5 0)); LReadBody (inl [x2a]);
   LDeliver 0; LReceiver; LReceiver].

(** Two calls one after the other; the second request expects no
    response. *)
Definition two_calls : list label :=
  one_call ++ one_reply
  ++ [LCall SendOnly (req 3); LCaller 1; LCaller 1; LAccept 1; LPacket 1;
      LCaller 1; LCaller 1; LWrite None; LSender; LSender].

(** A call whose write fails. *)
Definition failed_write : list label :=
  [LCall (SendAndReceive true) (req 2); LCaller 0; LCaller 0; LAccept 0;
   LPacket 0; LCaller 0; LCaller 0; LWrite (Some (NetError 32))].

(** A no-reply request up to the write. *)
Definition no_reply_call : list label :=
  [LCall SendOnly (req 3); LCaller 0; LCaller 0; LAccept 0; LPacket 0;
   LCaller 0; LCaller 0].

(** The header and the body of a frame of length 5 for the promise with
    correlation id 0. *)
Definition one_frame : list label :=
  [LReadHeader (inl (frame_header 5 0)); LReadBody (inl [x2a])].

(** A header with the correlation id 1. *)
Definition other_frame : list label :=
  [LReadHeader (inl (frame_header 5 1))].

(** A call of [sendRequest] with a request that does not serialize. *)
Definition bad_call : list label := [LCall SendOnly (req 99)].

(** A call that comes after a teardown, up to its send on line 176. *)
Definition late_call : list label :=
  failed_write ++ teardown Sender 0
  ++ [LCall SendOnly (req 3); LCaller 1; LCaller 1].

(** Two calls, the write of the second fails and the read of the header
    for the first fails; the sender tears the connection down, then the
    receiver reaches line 76. *)
Definition both_fail : list label :=
  one_call
  ++ [LCall (SendAndReceive true) (req 4); LCaller 1; LCaller 1; LAccept 1;
      LPacket 1; LCaller 1; LCaller 1; LWrite (Some (NetError 32));
      LReadHeader (inr (NetError 54))]
  ++ teardown Sender 1
  ++ [LFail Receiver 0; LDisconnect Receiver; LDisconnect Receiver].

(** Two calls of [sendAndReceive]; the write of the second fails, so that
    the sender is on line 72 with the second promise, and the receiver
    holds the first. *)
Definition second_write_fails : list label :=
  one_call
  ++ [LCall (SendAndReceive true) (req 4); LCaller 1; LCaller 1; LAccept 1;
      LPacket 1; LCaller 1; LCaller 1; LWrite (Some (NetError 32))].

(** ... and the read of the header for the first fails too: both workers
    are on line 72, each with its caller in the select. *)
Definition both_on_line_72 : list label :=
  second_write_fails ++ [LReadHeader (inr (NetError 54))].

(** ... or the header for the first has the correlation id 1. *)
Definition mismatch_and_write_failure : list label :=
  second_write_fails ++ other_frame.

(** Two teardowns side by side: both errors are delivered, the sender
    closes the channels of its promise and [b.requests], then the receiver
    closes the channels of its promise and reaches line 76. *)
Definition racing_teardowns : list label :=
  [LFail Sender 1; LFail Receiver 0; LDisconnect Sender; LDisconnect Sender;
   LDisconnect Sender; LDisconnect Receiver; LDisconnect Receiver;
   LDisconnect Receiver].

(** A call of [sendRequest] alone, with a request that expects a response,
    up to the receiver taking its promise. *)
Definition abandoned_call : list label :=
  [LCall SendOnly (req 2); LCaller 0; LCaller 0; LAccept 0; LPacket 0;
   LCaller 0; LCaller 0; LWrite None; LHandoff].

(** A call of [sendRequest] alone whose write fails: nobody waits for the
    error. *)
Definition unheard_failure : list label :=
  [LCall SendOnly (req 2); LCaller 0; LCaller 0; LAccept 0; LPacket 0;
   LCaller 0; LCaller 0; LWrite (Some (NetError 32))].

(** Two callers that run lines 168 to 174 side by side. *)
Definition racing_calls : list label :=
  [LCall SendOnly (req 2); LCall SendOnly (req 4); LCaller 0; LCaller 1;
   LCaller 0; LCaller 1].

(** A call of [sendRequest] up to line 178. *)
Definition to_line_178 : list label :=
  [LCall SendOnly (req 3); LCaller 0; LCaller 0; LAccept 0; LPacket 0].

(** A write that fails, and the sender's teardown. *)
Definition torn_down : list label := failed_write ++ teardown Sender 0.

(** Two calls of [sendRequest] whose loads on line 178 both come before
    their stores. *)
Definition lost_update : list label :=
  [LCall SendOnly (req 3); LCall SendOnly (req 5); LCaller 0; LCaller 0;
   LCaller 1; LCaller 1; LAccept 0; LPacket 0; LWrite None; LSender;
   LSender; LAccept 1; LPacket 1; LWrite None; LSender; LSender;
   LCaller 0; LCaller 1; LCaller 0; LCaller 1].

(** The state after a schedule, from the connected broker [b0]. *)
Definition after (ls : list label) : state :=
  match run ls (connected b0) with
  | Some s => s
  | None => connected b0
  end.

(** The envelopes accepted along a schedule. *)
Definition accepted_after (ls : list label)
  : list (requestToSend * request nat * goslice) :=
  accepted (after ls).

End Example.

(* ===================================================================== *)
(** * Part 4: properties *)
(* ===================================================================== *)

(** ** The codec of [realEncoder] and [realDecoder] *)

Lemma Z_of_byte_range (x : byte) : 0 <= Z_of_byte x < 256.
Proof.
  unfold Z_of_byte. pose proof (Byte.to_N_bounded x). lia.
Qed.

Lemma Z_of_byte_of_Z (z : Z) : Z_of_byte (byte_of_Z z) = z mod 256.
Proof.
  unfold Z_of_byte, byte_of_Z.
  assert (Hr : 0 <= z mod 256 < 256) by (apply Z.mod_pos_bound; lia).
  destruct (Byte.of_N (Z.to_N (z mod 256))) as [x|] eqn:E.
  - apply Byte.to_of_N in E. rewrite E. lia.
  - apply Byte.of_N_None_iff in E. lia.
Qed.

Lemma wrap32_id (z : Z) : int32_range z -> wrap32 z = z.
Proof.
  unfold int32_range, wrap32. intros Hz.
  rewrite Z.mod_small; lia.
Qed.

Lemma wrap32_range (z : Z) : int32_range (wrap32 z).
Proof.
  unfold int32_range, wrap32.
  pose proof (Z.mod_pos_bound (z + 2 ^ 31) (2 ^ 32)). lia.
Qed.

Lemma wrap32_mod (z : Z) : wrap32 (z mod 2 ^ 32) = wrap32 z.
Proof.
  unfold wrap32.
  rewrite <- (Zplus_mod_idemp_l z). reflexivity.
Qed.

Lemma int32_of_bytes_int32_bytes (z : Z) (rest : list byte) :
  int32_range z -> real_getInt32 (int32_bytes z ++ rest) = (z, None, rest).
Proof.
  intros Hz. unfold int32_bytes. cbn [app real_getInt32].
  unfold int32_of_bytes. rewrite !Z_of_byte_of_Z.
  do 2 f_equal.
  transitivity (wrap32 z); [|apply wrap32_id, Hz].
  rewrite <- (wrap32_mod z). f_equal.
  change (2 ^ 24) with 16777216. change (2 ^ 16) with 65536.
  change (2 ^ 8) with 256. change (2 ^ 32) with 4294967296.
  Z.div_mod_to_equations. lia.
Qed.

Lemma int16_of_bytes_int16_bytes (z : Z) :
  - 2 ^ 15 <= z < 2 ^ 15 ->
  int16_of_bytes (byte_of_Z (z / 2 ^ 8)) (byte_of_Z z) = z.
Proof.
  intros Hz. unfold int16_of_bytes. rewrite !Z_of_byte_of_Z.
  change (2 ^ 8) with 256 in *. change (2 ^ 16) with 65536 in *.
  change (2 ^ 15) with 32768 in *.
  Z.div_mod_to_equations. lia.
Qed.

Lemma length_list_byte_of_string (s : string) :
  length (String.list_byte_of_string s) = String.length s.
Proof.
  induction s as [|a s IH]; [reflexivity|].
  cbn. f_equal. exact IH.
Qed.

Lemma real_getString_putString (s : option string) (rest : list byte) :
  real_encodable s ->
  real_getString (real_putString s ++ rest) = (s, None, rest).
Proof.
  destruct s as [str|]; cbn [real_encodable real_putString]; intros Hs.
  - unfold int16_bytes. cbn [app real_getString].
    rewrite int16_of_bytes_int16_bytes by lia.
    destruct (Z.eqb_spec (Z.of_nat (String.length str)) (-1)); [lia|].
    rewrite length_app, length_list_byte_of_string.
    destruct (Z.ltb_spec (Z.of_nat (String.length str)) (-1)); [lia|].
    destruct (Z.ltb_spec
                (Z.of_nat (String.length str + length rest))
                (Z.of_nat (String.length str))); [lia|].
    cbn [orb]. rewrite Nat2Z.id.
    rewrite <- (length_list_byte_of_string str).
    rewrite take_app_length, drop_app_length.
    rewrite String.string_of_list_byte_of_string. reflexivity.
  - unfold int16_bytes. cbn [app real_getString].
    rewrite int16_of_bytes_int16_bytes by lia. reflexivity.
Qed.

#[export] Instance realCodec : PacketCodec realEncoder realDecoder := {|
  encodable := real_encodable;
  getInt32_putInt32 := int32_of_bytes_int32_bytes;
  getString_putString := real_getString_putString
|}.

(** ** The node descriptor *)

Section DescriptorProperties.

Context {net : Network} {pe : packetEncoder} {pd : packetDecoder}.

Lemma connect_not_DecodingError (b : broker) :
  ~ fails_with_DecodingError (connect b).
Proof.
  unfold fails_with_DecodingError, connect. intros [msg Hm].
  destruct (host b); [|discriminate].
  destruct (ResolveIPAddr s); [discriminate|].
  destruct (DialTCP n (port b)); discriminate.
Qed.

(** [decode] when the three reads succeed: the fields are those read, and
    the result is decided by the port. *)
Lemma decode_reads (b : broker) (raw r1 r2 r3 : list byte)
    (i p : Z) (h : option string) :
  getInt32 raw = (i, None, r1) ->
  getString r1 = (h, None, r2) ->
  getInt32 r2 = (p, None, r3) ->
  let b' := {| id := i; host := h; port := p;
               correlation_id := correlation_id b |} in
  decode b raw =
    (b', if p >? MaxUint16
         then Return (Some (DecodingError "Broker port > 65536"))
         else connect b').
Proof.
  intros H1 H2 H3. unfold decode. rewrite H1. cbn. rewrite H2. cbn.
  rewrite H3. cbn. destruct (p >? MaxUint16); reflexivity.
Qed.

(** C7: when the three fields decode, [decode] fails with a
    [DecodingError] exactly when the port read is greater than 65535.  Port
    65535 passes and 65536 fails; a negative port passes as well, since
    only the upper bound is tested.  A port that passes leaves the result
    to [connect]. *)
Theorem decode_port_bound (b : broker) (raw r1 r2 r3 : list byte)
    (i p : Z) (h : option string) :
  getInt32 raw = (i, None, r1) ->
  getString r1 = (h, None, r2) ->
  getInt32 r2 = (p, None, r3) ->
  let b' := {| id := i; host := h; port := p;
               correlation_id := correlation_id b |} in
  fst (decode b raw) = b'
  /\ (fails_with_DecodingError (snd (decode b raw)) <-> 65535 < p)
  /\ (p = 65535 -> snd (decode b raw) = connect b')
  /\ (p = 65536 -> fails_with_DecodingError (snd (decode b raw)))
  /\ (p < 0 -> snd (decode b raw) = connect b').
Proof.
  intros H1 H2 H3 b'.
  rewrite (decode_reads b raw r1 r2 r3 i p h H1 H2 H3). fold b'.
  cbn [fst snd]. unfold MaxUint16.
  destruct (Z.gtb_spec p 65535) as [Hgt|Hle].
  - split; [reflexivity|]. split; [|split; [lia|split; [|lia]]].
    + split; [lia|]. intros _. eexists. reflexivity.
    + intros _. eexists. reflexivity.
  - split; [reflexivity|]. split; [|split; [reflexivity|split; [lia|]]].
    + split; [|lia]. intros Hf.
      exfalso. exact (connect_not_DecodingError b' Hf).
    + reflexivity.
Qed.

Context {laws : PacketCodec pe pd}.

(** C8: decoding what [encode] wrote for [c] gives back the id, the host
    and the port of [c], and no decoding error: [encode] writes id, host,
    port in this order and [decode] reads them in the same order.  The id
    and the port are int32 values, the host is one the encoder can write
    and the port one that [decode] accepts. *)
Theorem descriptor_roundtrip (c b : broker) (rest : list byte) :
  int32_range (id c) ->
  int32_range (port c) ->
  encodable (host c) ->
  port c <= MaxUint16 ->
  let r := decode b (encode c ++ rest) in
  id (fst r) = id c
  /\ host (fst r) = host c
  /\ port (fst r) = port c
  /\ correlation_id (fst r) = correlation_id b
  /\ snd r = connect (fst r).
Proof.
  intros Hid Hport Hhost Hmax r. subst r. unfold encode.
  rewrite <- !app_assoc.
  erewrite decode_reads.
  2: { apply getInt32_putInt32, Hid. }
  2: { apply getString_putString, Hhost. }
  2: { apply getInt32_putInt32, Hport. }
  cbn [fst snd id host port correlation_id].
  destruct (Z.gtb_spec (port c) MaxUint16); [lia|].
  repeat split; reflexivity.
Qed.

End DescriptorProperties.

Lemma decode_port_bound_witness :
  fails_with_DecodingError
    (snd (decode Example.b0
            (encode {| id := 3; host := Some "kafka1"%string; port := 65536;
                       correlation_id := 0 |})))
  /\ snd (decode Example.b0
            (encode {| id := 3; host := Some "kafka1"%string; port := 65535;
                       correlation_id := 0 |}))
     = Return (Some (NetError 2)).
Proof.
  split.
  - edestruct (decode_port_bound (pd := realDecoder)
                 Example.b0
                 (encode {| id := 3; host := Some "kafka1"%string;
                            port := 65536; correlation_id := 0 |}))
      as (_ & _ & _ & H & _); [reflexivity..|].
    exact (H eq_refl).
  - edestruct (decode_port_bound (pd := realDecoder)
                 Example.b0
                 (encode {| id := 3; host := Some "kafka1"%string;
                            port := 65535; correlation_id := 0 |}))
      as (_ & _ & H & _); [reflexivity..|].
    exact (H eq_refl).
Defined.

Lemma descriptor_roundtrip_witness :
  let c := {| id := 3; host := Some "kafka1"%string; port := 9092;
              correlation_id := 7 |} in
  let r := decode {| id := 0; host := None; port := 0; correlation_id := 0 |}
             (encode c ++ []) in
  id (fst r) = 3 /\ host (fst r) = Some "kafka1"%string
  /\ port (fst r) = 9092 /\ correlation_id (fst r) = 0
  /\ snd r = connect (fst r).
Proof.
  apply (descriptor_roundtrip (laws := realCodec)
           {| id := 3; host := Some "kafka1"%string; port := 9092;
              correlation_id := 7 |}).
  - unfold int32_range; cbn; lia.
  - unfold int32_range; cbn; lia.
  - cbn. lia.
  - unfold MaxUint16; cbn; lia.
Defined.

(** ** Runs *)

Section RunProperties.

Context {codec : RequestCodec}.

Lemma run_app (ls1 ls2 : list label) (s : state) :
  run (ls1 ++ ls2) s =
    match run ls1 s with Some s' => run ls2 s' | None => None end.
Proof.
  revert s. induction ls1 as [|l ls1 IH]; intros s; cbn; [reflexivity|].
  destruct (step l s); [apply IH|reflexivity].
Qed.

(** A property that every step preserves holds along every run. *)
Lemma run_invariant (P : state -> Prop) :
  (forall l s s', P s -> step l s = Some s' -> P s') ->
  forall ls s s', P s -> run ls s = Some s' -> P s'.
Proof.
  intros Hstep ls. induction ls as [|l ls IH]; intros s s' Hs Hrun.
  - cbn in Hrun. congruence.
  - cbn in Hrun. destruct (step l s) as [s1|] eqn:E; [|discriminate].
    eapply IH; [|exact Hrun]. eapply Hstep; eauto.
Qed.

Lemma step_not_panicked (l : label) (s s' : state) :
  step l s = Some s' -> panicked s = false.
Proof.
  unfold step. destruct (panicked s); [discriminate|reflexivity].
Qed.

End RunProperties.

Ltac simpl_bools :=
  repeat match goal with
    | H : bool_decide _ = true |- _ => apply bool_decide_eq_true in H
    | H : bool_decide _ = false |- _ => apply bool_decide_eq_false in H
    | H : is_closed _ _ = true |- _ =>
        unfold is_closed in H; apply bool_decide_eq_true in H
    | H : is_closed _ _ = false |- _ =>
        unfold is_closed in H; apply bool_decide_eq_false in H
    | H : _ && _ = true |- _ => apply andb_true_iff in H; destruct H
    | H : negb _ = true |- _ => apply negb_true_iff in H
    | H : (_ =? _)%nat = true |- _ => apply Nat.eqb_eq in H
    | H : (_ =? _)%Z = true |- _ => apply Z.eqb_eq in H
    end.

(** Case analysis on a step: one goal for each way a step can be taken,
    with the new state spelled out. *)
Ltac unfold_steps H :=
  unfold step, caller_step, accept_step, packet_step, sender_step,
    write_step, handoff_step, receiver_step, read_header_step,
    read_body_step, deliver_step, fail_step, disconnect_step,
    select_closed_step, blocked_send, get_worker,
    sendAndReceive_select in H.

Ltac step_cases H :=
  let l := match type of H with step ?l _ = _ => l end in
  pose proof (step_not_panicked _ _ _ H);
  destruct l; unfold_steps H; unfold close in H;
  repeat case_match; simplify_eq; simpl_bools.

Ltac simpl_state :=
  cbn [b closed conn_closes next_chans sender receiver callers panicked
       trace emit set_b set_closed set_conn_closes set_next_chans
       set_sender set_receiver set_callers set_panicked set_trace
       set_caller panic set_worker] in *.

Lemma omap_snoc {A B : Type} (f : A -> option B) (l : list A) (x : A) :
  omap f (l ++ [x]) = omap f l ++ match f x with Some y => [y] | None => [] end.
Proof.
  rewrite omap_app. cbn. destruct (f x); reflexivity.
Qed.

(** The observations of a state after a step, in terms of those before. *)
Ltac simpl_obs :=
  unfold accepted, written, handed, matched, delivered, errors_delivered,
    conn_closed_by in *;
  simpl_state;
  rewrite ?omap_snoc in *;
  cbn [ev_accept ev_write ev_handoff ev_header ev_packet ev_error
       ev_conn_close] in *;
  rewrite ?app_nil_r in *;
  repeat match goal with
    | |- context [omap ev_accept (trace ?s)] =>
        change (omap ev_accept (trace s)) with (accepted s)
    | H : context [omap ev_accept (trace ?s)] |- _ =>
        change (omap ev_accept (trace s)) with (accepted s) in H
    | |- context [omap ev_write (trace ?s)] =>
        change (omap ev_write (trace s)) with (written s)
    | H : context [omap ev_write (trace ?s)] |- _ =>
        change (omap ev_write (trace s)) with (written s) in H
    | |- context [omap ev_handoff (trace ?s)] =>
        change (omap ev_handoff (trace s)) with (handed s)
    | H : context [omap ev_handoff (trace ?s)] |- _ =>
        change (omap ev_handoff (trace s)) with (handed s) in H
    | |- context [omap ev_header (trace ?s)] =>
        change (omap ev_header (trace s)) with (matched s)
    | H : context [omap ev_header (trace ?s)] |- _ =>
        change (omap ev_header (trace s)) with (matched s) in H
    | |- context [omap ev_packet (trace ?s)] =>
        change (omap ev_packet (trace s)) with (delivered s)
    | H : context [omap ev_packet (trace ?s)] |- _ =>
        change (omap ev_packet (trace s)) with (delivered s) in H
    | |- context [omap (ev_error ?p) (trace ?s)] =>
        change (omap (ev_error p) (trace s)) with (errors_delivered p s)
    | H : context [omap (ev_error ?p) (trace ?s)] |- _ =>
        change (omap (ev_error p) (trace s)) with (errors_delivered p s) in H
    | |- context [omap ev_conn_close (trace ?s)] =>
        change (omap ev_conn_close (trace s)) with (conn_closed_by s)
    | H : context [omap ev_conn_close (trace ?s)] |- _ =>
        change (omap ev_conn_close (trace s)) with (conn_closed_by s) in H
    end.

(** What a caller was before a step, from what it is after. *)
Ltac caller_lookup :=
  repeat match goal with
    | H : <[_:=_]> _ !! _ = Some _ |- _ =>
        apply list_lookup_insert_Some in H;
        destruct H as [(? & ? & ?)|(? & H)]; simplify_eq
    | H : (_ ++ [_]) !! _ = Some _ |- _ =>
        apply lookup_snoc_Some in H;
        destruct H as [(? & H)|(? & ?)]; simplify_eq
    end.

(** Use what is known of the program points of the two workers. *)
Ltac rewrite_pcs :=
  repeat match goal with
    | H : sender ?s = _, H' : context [sender ?s] |- _ =>
        lazymatch type of H' with
        | sender s = _ => fail
        | _ => rewrite H in H'
        end
    | H : receiver ?s = _, H' : context [receiver ?s] |- _ =>
        lazymatch type of H' with
        | receiver s = _ => fail
        | _ => rewrite H in H'
        end
    | H : sender ?s = _ |- context [sender ?s] => rewrite H
    | H : receiver ?s = _ |- context [receiver ?s] => rewrite H
    end.

(** ** The custody of promises *)

(** The facts of [Own] at the program points the workers are at. *)
Ltac own_facts HO :=
  pose proof (own_sender_open _ HO);
  pose proof (own_receiver_open _ HO);
  pose proof (own_apart _ HO);
  pose proof (own_sender_made _ HO);
  pose proof (own_receiver_made _ HO);
  repeat match goal with
    | H : callers ?s !! _ = Some (C176 _ _ _ _) |- _ =>
        lazymatch goal with
        | _ : unseen s _ |- _ => fail
        | _ => pose proof (own_fresh _ HO _ _ _ _ _ H)
        end
    end;
  repeat match goal with
    | H : callers ?s !! _ = Some ?c |- _ =>
        let n := eval cbn in (caller_chans c) in
        lazymatch n with
        | Some ?m =>
            lazymatch goal with
            | _ : (m < next_chans s)%nat |- _ => fail
            | _ =>
                assert (m < next_chans s)%nat
                  by exact (own_caller_made _ HO _ _ _ H eq_refl)
            end
        end
    end;
  unfold unseen, apart in *;
  repeat match goal with
    | H : sender ?s = _, H' : context [sender ?s] |- _ =>
        lazymatch type of H' with
        | sender s = _ => fail
        | _ => rewrite H in H'
        end
    | H : receiver ?s = _, H' : context [receiver ?s] |- _ =>
        lazymatch type of H' with
        | receiver s = _ => fail
        | _ => rewrite H in H'
        end
    | H : sender ?s = _ |- context [sender ?s] => rewrite H
    | H : receiver ?s = _ |- context [receiver ?s] => rewrite H
    end;
  cbn [all_open sender_open receiver_open fd_open sender_promise
       receiver_promise made not_chans foldr] in *;
  destruct_and?.

Section OwnProperties.

Context {codec : RequestCodec}.

Lemma Own_connected (b0 : broker) : Own (connected b0).
Proof.
  split; cbn; try done.
  - intros n [H|H]; by apply elem_of_nil in H.
  - intros n H; by apply elem_of_nil in H.
  - apply NoDup_nil; done.
Qed.

Lemma all_open_spec (cs : list chan) (s : state) :
  all_open cs s <-> forall c, c ∈ cs -> c ∉ closed s.
Proof.
  induction cs as [|d cs IH]; cbn.
  - split; [|done]. intros _ c H. by apply elem_of_nil in H.
  - rewrite IH. split.
    + intros [H1 H2] c Hc. apply elem_of_cons in Hc as [->|Hc]; auto.
    + intros H. split; [apply H; left|].
      intros c Hc. apply H. by right.
Qed.

Lemma all_open_same (cs : list chan) (s s' : state) :
  closed s' = closed s -> all_open cs s -> all_open cs s'.
Proof. rewrite !all_open_spec. intros ->. done. Qed.

Lemma all_open_cons (cs : list chan) (c : chan) (s s' : state) :
  closed s' = c :: closed s -> all_open cs s -> c ∉ cs -> all_open cs s'.
Proof.
  rewrite !all_open_spec. intros -> H Hc d Hd.
  apply not_elem_of_cons. split; [|by apply H].
  intros ->. done.
Qed.

Lemma not_in_sender_open (c : chan) (w : worker sender_pc) :
  chan_apart c (sender_promise w) -> c ∉ sender_open w.
Proof.
  destruct w as [[]|[]|]; cbn; intros H; destruct_and?;
    repeat (apply not_elem_of_cons; split; [done|]);
    apply not_elem_of_nil.
Qed.

Lemma not_in_receiver_open (c : chan) (w : worker receiver_pc) :
  chan_apart c (receiver_promise w) -> c ∉ receiver_open w.
Proof.
  destruct w as [[]|[]|]; cbn; intros H; destruct_and?;
    repeat (apply not_elem_of_cons; split; [done|]);
    apply not_elem_of_nil.
Qed.

Lemma chan_apart_packets (n : nat) (q : option responsePromise) :
  not_chans n q -> chan_apart (Packets n) q.
Proof.
  destruct q as [q|]; cbn; [|done]. unfold packets, errors.
  intros H. split; congruence.
Qed.

Lemma chan_apart_errors (n : nat) (q : option responsePromise) :
  not_chans n q -> chan_apart (Errors n) q.
Proof.
  destruct q as [q|]; cbn; [|done]. unfold packets, errors.
  intros H. split; congruence.
Qed.

Lemma chan_apart_Requests (q : option responsePromise) :
  chan_apart Requests q.
Proof. destruct q as [q|]; cbn; [|done]. split; discriminate. Qed.

Lemma chan_apart_Responses (q : option responsePromise) :
  chan_apart Responses q.
Proof. destruct q as [q|]; cbn; [|done]. split; discriminate. Qed.

Lemma Own_sender_apart (s : state) (q : responsePromise) :
  Own s -> receiver_promise (receiver s) = Some q ->
  not_chans (rp_chans q) (sender_promise (sender s)).
Proof.
  intros HO Hq. pose proof (own_apart _ HO) as H. unfold apart in H.
  rewrite Hq in H.
  destruct (sender_promise (sender s)); cbn; [congruence|done].
Qed.

Lemma Own_receiver_apart (s : state) (p : responsePromise) :
  Own s -> sender_promise (sender s) = Some p ->
  not_chans (rp_chans p) (receiver_promise (receiver s)).
Proof.
  intros HO Hp. pose proof (own_apart _ HO) as H. unfold apart in H.
  rewrite Hp in H.
  destruct (receiver_promise (receiver s)); cbn; [congruence|done].
Qed.

Lemma Own_step_sender_open (l : label) (s s' : state) :
  Own s -> step l s = Some s' -> all_open (sender_open (sender s')) s'.
Proof.
  intros HO H. step_cases H; unfold packets, errors in *; simpl_state.
  all: match goal with HO : Own ?s |- _ =>
         try (apply (all_open_same _ s);
              [reflexivity|exact (own_sender_open _ HO)]);
         try (eapply (all_open_cons _ _ s);
              [reflexivity|exact (own_sender_open _ HO)
              |apply not_in_sender_open])
       end.
  all: try first [apply chan_apart_Requests|apply chan_apart_Responses].
  all: lazymatch goal with
       | |- chan_apart _ _ =>
           first [apply chan_apart_packets|apply chan_apart_errors];
           apply Own_sender_apart; [assumption|];
           match goal with
           | H : receiver _ = _ |- _ => rewrite H; reflexivity
           end
       | |- _ => idtac
       end.
  all: own_facts HO; simpl_obs.
  all: cbn [all_open sender_open receiver_open fd_open sender_promise
     receiver_promise made not_chans foldr] in *; simpl_state.
  all: try tauto.
  all: rewrite ?not_elem_of_cons; unfold packets, errors in *.
  all: try (intuition discriminate).
Qed.

Lemma Own_step_receiver_open (l : label) (s s' : state) :
  Own s -> step l s = Some s' -> all_open (receiver_open (receiver s')) s'.
Proof.
  intros HO H. step_cases H; unfold packets, errors in *; simpl_state.
  all: match goal with HO : Own ?s |- _ =>
         try (apply (all_open_same _ s);
              [reflexivity|exact (own_receiver_open _ HO)]);
         try (eapply (all_open_cons _ _ s);
              [reflexivity|exact (own_receiver_open _ HO)
              |apply not_in_receiver_open])
       end.
  all: try first [apply chan_apart_Requests|apply chan_apart_Responses].
  all: try (first [apply chan_apart_packets|apply chan_apart_errors];
            apply Own_receiver_apart; [assumption|];
            match goal with
            | H : sender _ = _ |- _ => rewrite H; reflexivity
            end).
  all: own_facts HO; simpl_obs.
  all: cbn [all_open sender_open receiver_open fd_open sender_promise
     receiver_promise made not_chans foldr] in *; simpl_state.
  all: try tauto.
  all: rewrite ?not_elem_of_cons; unfold packets, errors in *.
  all: try (intuition discriminate).
Qed.

Lemma Own_step_apart (l : label) (s s' : state) :
  Own s -> step l s = Some s' -> apart s'.
Proof.
  intros HO H. step_cases H; unfold packets, errors in *; simpl_state.
  all: try exact (own_apart _ HO).
  all: own_facts HO; simpl_obs.
  all: cbn [all_open sender_open receiver_open fd_open sender_promise
     receiver_promise made not_chans foldr] in *; simpl_state.
  all: try done.
  all: try (destruct (sender_promise (sender s)); done).
  all: try (destruct (receiver_promise (receiver s)); done).
Qed.

Lemma made_mono (s s' : state) (p : option responsePromise) :
  (next_chans s <= next_chans s')%nat -> made s p -> made s' p.
Proof. destruct p; cbn; [lia|done]. Qed.

Lemma Own_step_sender_made (l : label) (s s' : state) :
  Own s -> step l s = Some s' -> made s' (sender_promise (sender s')).
Proof.
  intros HO H. step_cases H; unfold packets, errors in *; simpl_state.
  all: try exact (own_sender_made _ HO).
  all: try (apply (made_mono s); [cbn; lia|exact (own_sender_made _ HO)]).
  all: own_facts HO; simpl_obs.
  all: cbn [all_open sender_open receiver_open fd_open sender_promise
     receiver_promise made not_chans foldr] in *; simpl_state.
  all: try done.
Qed.

Lemma Own_step_receiver_made (l : label) (s s' : state) :
  Own s -> step l s = Some s' -> made s' (receiver_promise (receiver s')).
Proof.
  intros HO H. step_cases H; unfold packets, errors in *; simpl_state.
  all: try exact (own_receiver_made _ HO).
  all: try (apply (made_mono s);
            [cbn; lia|exact (own_receiver_made _ HO)]).
  all: own_facts HO; simpl_obs.
  all: cbn [all_open sender_open receiver_open fd_open sender_promise
     receiver_promise made not_chans foldr] in *; simpl_state.
  all: try done.
Qed.

Lemma Own_step_closed_made (l : label) (s s' : state) :
  Own s -> step l s = Some s' ->
  forall n, Packets n ∈ closed s' \/ Errors n ∈ closed s' ->
            (n < next_chans s')%nat.
Proof.
  intros HO H. step_cases H; unfold packets, errors in *; simpl_state.
  all: try exact (own_closed_made _ HO).
  all: intros n Hn; own_facts HO; simpl_obs.
  all: rewrite ?elem_of_cons in Hn.
  all: try (pose proof (own_closed_made _ HO n);
            intuition (simplify_eq; lia)).
Qed.

Lemma Own_step_accepted_made (l : label) (s s' : state) :
  Own s -> step l s = Some s' ->
  forall n, n ∈ map accepted_chans (accepted s') -> (n < next_chans s')%nat.
Proof.
  intros HO H. step_cases H; unfold packets, errors in *; simpl_obs.
  all: try exact (own_accepted_made _ HO).
  all: intros n Hn; own_facts HO; simpl_obs.
  all: try (pose proof (own_accepted_made _ HO n Hn); lia).
  rewrite map_app, elem_of_app in Hn. destruct Hn as [Hn|Hn].
  - exact (own_accepted_made _ HO n Hn).
  - cbn in Hn. apply list_elem_of_singleton in Hn. by subst.
Qed.

Lemma Own_step_accepted_NoDup (l : label) (s s' : state) :
  Own s -> step l s = Some s' ->
  NoDup (map accepted_chans (accepted s')).
Proof.
  intros HO H. step_cases H; unfold packets, errors in *; simpl_obs.
  all: try exact (own_accepted_NoDup _ HO).
  own_facts HO. rewrite map_app. apply NoDup_app. split_and!.
  - exact (own_accepted_NoDup _ HO).
  - intros n Hn Hn'. cbn in Hn'. apply list_elem_of_singleton in Hn'.
    by subst.
  - apply NoDup_singleton.
Qed.

Lemma Own_step_caller_made (l : label) (s s' : state) :
  Own s -> step l s = Some s' ->
  forall tid c n, callers s' !! tid = Some c -> caller_chans c = Some n ->
                  (n < next_chans s')%nat.
Proof.
  intros HO H. step_cases H; unfold packets, errors in *; simpl_obs.
  all: try exact (own_caller_made _ HO).
  all: intros t c n Hc Hn; own_facts HO; caller_lookup.
  all: repeat match goal with k : call_kind |- _ => destruct k end.
  all: cbn in Hn; simplify_eq; try done.
  all: try (pose proof (own_caller_made _ HO _ _ _ Hc Hn); simpl_state; lia).
  all: simpl_state; lia.
Qed.

Lemma Own_step_caller_apart (l : label) (s s' : state) :
  Own s -> step l s = Some s' ->
  forall t1 t2 c1 c2 n,
    callers s' !! t1 = Some c1 -> callers s' !! t2 = Some c2 ->
    caller_chans c1 = Some n -> caller_chans c2 = Some n -> t1 = t2.
Proof.
  intros HO H. step_cases H; unfold packets, errors in *; simpl_obs.
  all: try exact (own_caller_apart _ HO).
  all: intros t1 t2 c1 c2 n Hc1 Hc2 Hn1 Hn2; caller_lookup.
  all: repeat match goal with k : call_kind |- _ => destruct k end.
  all: cbn [caller_chans return_error return_promise] in *;
    simplify_eq; try done.
  all: try (by eapply (own_caller_apart _ HO); eauto).
  all: exfalso; cbn in *.
  all: match goal with
       | Hc : callers _ !! _ = Some ?c, Hn : caller_chans ?c = Some _ |- _ =>
           pose proof (own_caller_made _ HO _ _ _ Hc Hn); lia
       end.
Qed.

Lemma not_chans_None_or (n : nat) (p q : option responsePromise) :
  not_chans n p -> q = p \/ q = None -> not_chans n q.
Proof. intros Hp [->| ->]; done. Qed.

Lemma made_not_chans (s : state) (p : option responsePromise) :
  made s p -> not_chans (next_chans s) p.
Proof. destruct p; cbn; [lia|done]. Qed.

Lemma unseen_next (s : state) :
  Own s -> unseen s (next_chans s).
Proof.
  intros HO. unfold unseen. split_and!.
  - intros Hin. pose proof (own_closed_made _ HO _ (or_introl Hin)). lia.
  - intros Hin. pose proof (own_closed_made _ HO _ (or_intror Hin)). lia.
  - apply made_not_chans, HO.
  - apply made_not_chans, HO.
  - intros Hin. pose proof (own_accepted_made _ HO _ Hin). lia.
Qed.

Lemma Own_step_fresh (l : label) (s s' : state) :
  Own s -> step l s = Some s' ->
  forall tid k req r pk,
    callers s' !! tid = Some (C176 k req r pk) ->
    unseen s' (rp_chans (response r)).
Proof.
  intros HO H. step_cases H; unfold packets, errors in *; simpl_obs.
  all: try exact (own_fresh _ HO).
  all: intros t k' req' r' pk' Hc; caller_lookup.
  all: repeat match goal with k : call_kind |- _ => destruct k end.
  all: cbn [caller_chans return_error return_promise] in *;
    simplify_eq; try done.
  all: try (pose proof (own_fresh _ HO _ _ _ _ _ Hc) as Hu).
  all: try exact (unseen_next _ HO).
  all: unfold unseen; simpl_obs.
  all: own_facts HO; simpl_obs.
  all: cbn [all_open sender_open receiver_open fd_open sender_promise
     receiver_promise made not_chans foldr] in *; simpl_state.
  all: cbn [response rp_chans expectResponse] in *.
  all: destruct_and?; split_and!; try done.
  all: rewrite ?map_app, ?not_elem_of_app; cbn [map];
    rewrite ?list_elem_of_singleton.
  all: try (split; [done|]).
  all: rewrite ?not_elem_of_cons; try (split; [congruence|done]).
  all: try (split; [discriminate|done]).
  all: try congruence.
  all: unfold accepted_chans in *; cbn [fst] in *.
  all: try (intros Heq;
            match goal with
            | Hne : ?t1 <> ?t2, H1 : callers _ !! ?t1 = Some _,
                H2 : callers _ !! ?t2 = Some _ |- _ =>
                apply Hne;
                apply (own_caller_apart _ HO _ _ _ _ _ H1 H2 eq_refl);
                cbn; congruence
            end).
  all: try done.
Qed.

Lemma Own_step (l : label) (s s' : state) :
  Own s -> step l s = Some s' -> Own s'.
Proof.
  intros HO H. split.
  - eapply Own_step_sender_open; eauto.
  - eapply Own_step_receiver_open; eauto.
  - eapply Own_step_apart; eauto.
  - eapply Own_step_sender_made; eauto.
  - eapply Own_step_receiver_made; eauto.
  - eapply Own_step_closed_made; eauto.
  - eapply Own_step_accepted_made; eauto.
  - eapply Own_step_accepted_NoDup; eauto.
  - eapply Own_step_caller_made; eauto.
  - eapply Own_step_caller_apart; eauto.
  - eapply Own_step_fresh; eauto.
Qed.

Lemma Own_run (b0 : broker) (ls : list label) (s : state) :
  run ls (connected b0) = Some s -> Own s.
Proof.
  apply (run_invariant Own Own_step). apply Own_connected.
Qed.

End OwnProperties.

(** ** The order of the pipeline *)

Ltac simpl_order :=
  unfold queued, wire, awaiting in *; simpl_obs;
  rewrite ?map_app, ?omap_app in *;
  cbn [map omap list_omap ev_await fst snd] in *;
  rewrite ?app_nil_r in *;
  repeat match goal with
    | |- context [map ?f (accepted ?s)] =>
        change (map f (accepted s)) with (queued s)
    | H : context [map ?f (accepted ?s)] |- _ =>
        change (map f (accepted s)) with (queued s) in H
    | |- context [map ?f (written ?s)] =>
        change (map f (written s)) with (wire s)
    | H : context [map ?f (written ?s)] |- _ =>
        change (map f (written s)) with (wire s) in H
    | |- context [omap ev_await (written ?s)] =>
        change (omap ev_await (written s)) with (awaiting s)
    | H : context [omap ev_await (written ?s)] |- _ =>
        change (omap ev_await (written s)) with (awaiting s) in H
    end.

Section OrderProperties.

Context {codec : RequestCodec}.

Lemma Order_connected (b0 : broker) : Order (connected b0).
Proof. split; cbn; try done. Qed.

Lemma Order_step_sender (l : label) (s s' : state) :
  Own s -> Order s -> step l s = Some s' -> sender_order s'.
Proof.
  intros HO HR H. step_cases H.
  all: pose proof (ord_sender _ HR) as Hs.
  all: unfold sender_order in *; simpl_order; rewrite_pcs.
  all: try done.
  all: destruct_and?; try (split; congruence).
  - (* 176 meets 116 *)
    split; [|done]. exists packet. congruence.
  - (* 177 meets 117 *)
    destruct (ord_c177 _ HR _ _ _ _ _ H4) as [E Hq].
    rewrite H2 in E. by simplify_eq.
  - (* 117 on a closed channel: it is open *)
    pose proof (own_sender_open _ HO) as Ho. rewrite H2 in Ho.
    cbn in Ho. tauto.
  - rewrite H6. split; congruence.
  - rewrite H6, app_nil_r. split; congruence.
Qed.

Lemma Order_step_receiver (l : label) (s s' : state) :
  Own s -> Order s -> step l s = Some s' -> receiver_order s'.
Proof.
  intros HO HR H. step_cases H.
  all: pose proof (ord_receiver _ HR) as Hr;
    pose proof (ord_sender _ HR) as Hs.
  all: unfold receiver_order, sender_order in *; simpl_order; rewrite_pcs.
  all: cbn [map fst snd] in *.
  all: try done.
  all: destruct_and?; try (split; congruence).
  all: destruct_or?; split.
  all: first [congruence|left; congruence|right; congruence
             |right; eexists; eassumption].
Qed.

Lemma Order_step_c177 (l : label) (s s' : state) :
  Own s -> Order s -> step l s = Some s' ->
  forall tid k req r pk,
    callers s' !! tid = Some (C177 k req r pk) ->
    sender s' = Running (S117 r) /\ queued s' = wire s' ++ [(r, pk)].
Proof.
  intros HO HR H. step_cases H.
  all: pose proof (ord_sender _ HR) as Hs.
  all: intros t k' req' r' pk' Hc; simpl_state; caller_lookup.
  all: repeat match goal with k : call_kind |- _ => destruct k end.
  all: cbn [caller_chans return_error return_promise] in *;
    simplify_eq.
  all: try (destruct (ord_c177 _ HR _ _ _ _ _ Hc) as [E Hq]).
  all: unfold sender_order in *; simpl_order; rewrite_pcs.
  all: try done.
  all: try congruence.
  all: destruct_and?; try (split; congruence).
  all: exfalso.
  all: try (pose proof (own_sender_open _ HO) as Ho; rewrite H2 in Ho;
            cbn in Ho; tauto).
  all: destruct (ord_c177 _ HR _ _ _ _ _ H4) as [E' _].
  all: apply H3.
  all: apply (own_caller_apart _ HO _ _ _ _
                (rp_chans (response r')) H4 Hc); cbn; congruence.
Qed.

Lemma Order_step (l : label) (s s' : state) :
  Own s -> Order s -> step l s = Some s' -> Order s'.
Proof.
  intros HO HR H. split.
  - eapply Order_step_sender; eauto.
  - eapply Order_step_receiver; eauto.
  - eapply Order_step_c177; eauto.
Qed.

Lemma Order_run (b0 : broker) (ls : list label) (s : state) :
  run ls (connected b0) = Some s -> Order s.
Proof.
  intros Hrun.
  cut (Own s /\ Order s); [tauto|].
  revert Hrun.
  apply (run_invariant (fun s => Own s /\ Order s)).
  - intros l s1 s2 [HO HR] H. split.
    + eapply Own_step; eauto.
    + eapply Order_step; eauto.
  - split; [apply Own_connected|apply Order_connected].
Qed.

End OrderProperties.

(** ** The teardown *)

Section TearProperties.

Context {codec : RequestCodec}.

Lemma Tear_connected (b0 : broker) : Tear (connected b0).
Proof.
  split; cbn; try done.
  - intros H. by apply elem_of_nil in H.
  - intros p. by left.
Qed.

Lemma Tear_step_queues (l : label) (s s' : state) :
  Tear s -> step l s = Some s' ->
  Responses ∈ closed s' -> Requests ∈ closed s'.
Proof.
  intros HT H. step_cases H; unfold packets, errors in *; simpl_state.
  all: try exact (tear_queues _ HT).
  all: rewrite !elem_of_cons; intros [?|Hin]; try done.
  all: try (right; by apply (tear_queues _ HT)).
  all: right; pose proof (tear_once _ HT) as Ht; rewrite_pcs.
  all: cbn [fd_past] in Ht; case_bool_decide; [done|lia].
Qed.

Lemma Tear_step_once (l : label) (s s' : state) :
  Tear s -> step l s = Some s' ->
  (conn_closes s' + fd_past (sender s') + fd_past (receiver s')
   <= if bool_decide (Requests ∈ closed s') then 1 else 0)%nat.
Proof.
  intros HT H. step_cases H; unfold packets, errors in *; simpl_state.
  all: pose proof (tear_once _ HT) as Ht.
  all: rewrite_pcs; cbn [fd_past] in *.
  all: try done.
  all: repeat case_bool_decide; rewrite ?elem_of_cons in *; try lia.
  all: try (exfalso; intuition congruence).
Qed.

Lemma Tear_step_closed_by (l : label) (s s' : state) :
  Tear s -> step l s = Some s' ->
  length (conn_closed_by s') = conn_closes s'.
Proof.
  intros HT H. step_cases H; simpl_obs.
  all: pose proof (tear_closed_by _ HT) as Ht.
  all: try done.
  all: rewrite length_app; cbn; lia.
Qed.

Lemma Tear_step_errors (l : label) (s s' : state) :
  Own s -> Tear s -> step l s = Some s' ->
  forall p,
    errors_delivered p s' = []
    \/ ((length (errors_delivered p s') = 1)%nat
        /\ (Errors (rp_chans p) ∈ closed s'
            \/ fd_delivered (sender s') (rp_chans p)
            \/ fd_delivered (receiver s') (rp_chans p))).
Proof.
  intros HO HT H p. step_cases H; unfold packets, errors in *; simpl_obs.
  all: pose proof (tear_errors _ HT p) as Ht.
  all: rewrite_pcs; cbn [fd_delivered] in *.
  all: try done.
  all: rewrite ?elem_of_cons.
  all: try (destruct Ht as [Ht|[Ht1 Ht]]; [by left|right; split; [done|]];
            intuition congruence).
  all: pose proof (own_apart _ HO) as Ha; unfold apart in Ha.
  all: rewrite_pcs; cbn [sender_promise receiver_promise] in Ha.
  all: case_bool_decide as Hp; unfold errors in Hp; simplify_eq;
    rewrite ?app_nil_r.
  all: try (destruct Ht as [Ht|[Ht1 Ht]]; [by left|right; split; [done|]];
            tauto).
  all: right; destruct Ht as [Ht|[Ht1 Ht]].
  all: try (rewrite Ht; split; [done|tauto]).
  all: exfalso; destruct Ht as [Ht|[Ht|Ht]]; try done.
  all: try (rewrite <- Hp in Ht; done).
  - destruct (receiver s) as [|[] q ?|]; cbn in *; try done. congruence.
  - destruct (sender s) as [|[] q ?|]; cbn in *; try done. congruence.
Qed.

Lemma Tear_step (l : label) (s s' : state) :
  Own s -> Tear s -> step l s = Some s' -> Tear s'.
Proof.
  intros HO HT H. split.
  - eapply Tear_step_queues; eauto.
  - eapply Tear_step_once; eauto.
  - eapply Tear_step_closed_by; eauto.
  - eapply Tear_step_errors; eauto.
Qed.

Lemma Tear_run (b0 : broker) (ls : list label) (s : state) :
  run ls (connected b0) = Some s -> Tear s.
Proof.
  intros Hrun.
  cut (Own s /\ Tear s); [tauto|].
  revert Hrun.
  apply (run_invariant (fun s => Own s /\ Tear s)).
  - intros l s1 s2 [HO HR] H. split.
    + eapply Own_step; eauto.
    + eapply Tear_step; eauto.
  - split; [apply Own_connected|apply Tear_connected].
Qed.

End TearProperties.

(** ** Who was served, and what was serialized *)

Section ServedProperties.

Context {codec : RequestCodec}.

(** The trace only grows. *)
Lemma step_trace (l : label) (s s' : state) :
  step l s = Some s' -> exists es, trace s' = trace s ++ es.
Proof.
  intros H. step_cases H; simpl_state.
  all: first [by exists []; rewrite app_nil_r
             |eexists; reflexivity
             |rewrite <- app_assoc; eexists; reflexivity].
Qed.

Lemma run_trace (ls : list label) (s s' : state) :
  run ls s = Some s' -> exists es, trace s' = trace s ++ es.
Proof.
  revert s. induction ls as [|l ls IH]; intros s Hrun; cbn in Hrun.
  - simplify_eq. exists []. by rewrite app_nil_r.
  - destruct (step l s) as [s1|] eqn:E; [|done].
    destruct (step_trace _ _ _ E) as [es1 E1].
    destruct (IH _ Hrun) as [es2 E2].
    exists (es1 ++ es2). by rewrite E2, E1, app_assoc.
Qed.

Lemma error_source_mono (s s' : state) (e : event) (es : list event) :
  trace s' = trace s ++ es -> error_source s e -> error_source s' e.
Proof.
  intros E. destruct e as [| | | | |[] p err tid| | |]; cbn; try done.
  - intros (r & buf & Hin & Hr). exists r, buf. split; [|done].
    unfold written. rewrite E, omap_app. apply elem_of_app. by left.
  - unfold handed. rewrite E, omap_app. intros Hin.
    apply elem_of_app. by left.
Qed.

Lemma Served_connected (b0 : broker) : Served (connected b0).
Proof.
  split; cbn; try done. intros e H. by apply elem_of_nil in H.
Qed.

Lemma Served_step_receiver (l : label) (s s' : state) :
  Order s -> Served s -> step l s = Some s' ->
  forall p, receiver_promise (receiver s') = Some p -> p ∈ handed s'.
Proof.
  intros HR HS H. step_cases H; simpl_obs.
  all: try exact (srv_receiver _ HS).
  all: intros p Hp; cbn in Hp; simplify_eq.
  all: try (apply (srv_receiver _ HS); rewrite_pcs; done).
  all: try (apply elem_of_app; right; by apply list_elem_of_singleton).
Qed.

Lemma Served_step_sender (l : label) (s s' : state) :
  Served s -> step l s = Some s' ->
  forall pc p err,
    sender s' = Disconnecting pc p err ->
    exists r buf, (r, buf, Some err) ∈ written s' /\ response r = p.
Proof.
  intros HS H. step_cases H; simpl_obs.
  all: try exact (srv_sender _ HS).
  all: intros pc p err Hp; cbn in Hp; simplify_eq.
  all: try (eapply (srv_sender _ HS); rewrite_pcs; done).
  all: try (destruct (srv_sender _ HS _ _ _ Hp) as (r' & buf' & Hin & Hr);
            exists r', buf'; split; [|done];
            apply elem_of_app; by left).
  match goal with
  | H : sender _ = Running (S118 ?r ?b) |- _ => exists r, b
  end.
  split; [|done].
  apply elem_of_app. right. by apply list_elem_of_singleton.
Qed.

Lemma Served_step_errors (l : label) (s s' : state) :
  Served s -> step l s = Some s' ->
  forall e, e ∈ trace s' -> error_source s' e.
Proof.
  intros HS H e He.
  destruct (step_trace _ _ _ H) as [es Hes].
  rewrite Hes in He. apply elem_of_app in He as [He|He].
  { eapply error_source_mono; [exact Hes|]. by apply (srv_errors _ HS). }
  revert es Hes He.
  step_cases H; simpl_state; intros es Hes He.
  all: try (rewrite <- (app_nil_r (trace s)) in Hes at 1).
  all: try (rewrite <- app_assoc in Hes).
  all: apply app_inv_head in Hes; subst es.
  all: try (by apply elem_of_nil in He).
  all: repeat (apply elem_of_cons in He as [->|He]); cbn; try done.
  all: try (by apply elem_of_nil in He).
  - simpl_obs. apply (srv_sender _ HS _ _ _ ltac:(eassumption)).
  - simpl_obs. apply (srv_receiver _ HS). by rewrite_pcs.
Qed.

Lemma Served_step (l : label) (s s' : state) :
  Order s -> Served s -> step l s = Some s' -> Served s'.
Proof.
  intros HR HS H. split.
  - eapply Served_step_receiver; eauto.
  - eapply Served_step_sender; eauto.
  - eapply Served_step_errors; eauto.
Qed.

Lemma Built_connected (b0 : broker) : Built (connected b0).
Proof.
  split; cbn; try done. intros r req pk H. by apply elem_of_nil in H.
Qed.

Lemma Built_step (l : label) (s s' : state) :
  Built s -> step l s = Some s' -> Built s'.
Proof.
  intros HB H. split.
  - step_cases H; simpl_state.
    all: try exact (built_callers _ HB).
    all: intros t c Hc; caller_lookup.
    all: try (by apply (built_callers _ HB _ _ Hc)).
    all: repeat match goal with k : call_kind |- _ => destruct k end.
    all: cbn; try done.
    all: match goal with
         | H : callers _ !! _ = Some _ |- _ =>
             pose proof (built_callers _ HB _ _ H) as Hb; cbn in Hb
         end; try done.
  - step_cases H; simpl_obs.
    all: try exact (built_accepted _ HB).
    intros r req' pk Hin. apply elem_of_app in Hin as [Hin|Hin].
    + by apply (built_accepted _ HB).
    + apply list_elem_of_singleton in Hin. simplify_eq.
      match goal with
      | H : callers _ !! _ = Some _ |- _ =>
          exact (built_callers _ HB _ _ H)
      end.
Qed.

(** All five invariants hold along every run of a connection. *)
Lemma Inv_run (b0 : broker) (ls : list label) (s : state) :
  run ls (connected b0) = Some s -> Inv s.
Proof.
  apply (run_invariant Inv).
  - intros l s1 s2 [HO HR HT HS HB] H. split.
    + eapply Own_step; eauto.
    + eapply Order_step; eauto.
    + eapply Tear_step; eauto.
    + eapply Served_step; eauto.
    + eapply Built_step; eauto.
  - split.
    + apply Own_connected.
    + apply Order_connected.
    + apply Tear_connected.
    + apply Served_connected.
    + apply Built_connected.
Qed.

Lemma Inv_step (l : label) (s s' : state) :
  Inv s -> step l s = Some s' -> Inv s'.
Proof.
  intros [HO HR HT HS HB] H. split.
  - eapply Own_step; eauto.
  - eapply Order_step; eauto.
  - eapply Tear_step; eauto.
  - eapply Served_step; eauto.
  - eapply Built_step; eauto.
Qed.

End ServedProperties.

(** ** What a teardown leaves *)

Section TeardownProperties.

Context {codec : RequestCodec}.

Lemma run_app_Some (ls1 ls2 : list label) (s s1 s2 : state) :
  run ls1 s = Some s1 -> run ls2 s1 = Some s2 ->
  run (ls1 ++ ls2) s = Some s2.
Proof. intros H1 H2. by rewrite run_app, H1. Qed.

(** A closed channel stays closed. *)
Lemma step_closed_mono (l : label) (s s' : state) (c : chan) :
  step l s = Some s' -> c ∈ closed s -> c ∈ closed s'.
Proof.
  intros H Hc. step_cases H; simpl_state; try done.
  all: by apply elem_of_cons; right.
Qed.

(** The socket is closed for good. *)
Lemma step_conn_closes_mono (l : label) (s s' : state) :
  step l s = Some s' -> (conn_closes s <= conn_closes s')%nat.
Proof. intros H. step_cases H; simpl_state; lia. Qed.

(** Once [b.requests] is closed, no envelope is accepted. *)
Lemma step_accepted_closed (l : label) (s s' : state) :
  step l s = Some s' -> Requests ∈ closed s -> accepted s' = accepted s.
Proof. intros H Hc. step_cases H; simpl_obs; done. Qed.

(** Once [b.responses] is closed, no promise is handed over. *)
Lemma step_handed_closed (l : label) (s s' : state) :
  step l s = Some s' -> Responses ∈ closed s -> handed s' = handed s.
Proof. intros H Hc. step_cases H; simpl_obs; done. Qed.

Lemma run_after_teardown (ls : list label) (s s' : state) :
  run ls s = Some s' ->
  Requests ∈ closed s -> Responses ∈ closed s ->
  accepted s' = accepted s /\ handed s' = handed s
  /\ (conn_closes s <= conn_closes s')%nat
  /\ (forall c, c ∈ closed s -> c ∈ closed s').
Proof.
  revert s. induction ls as [|l ls IH]; intros s Hrun H1 H2; cbn in Hrun.
  - by simplify_eq.
  - destruct (step l s) as [s1|] eqn:E; [|done].
    destruct (IH _ Hrun) as (Ha & Hh & Hc & Hm);
      [by eapply step_closed_mono..|].
    rewrite Ha, Hh. split_and!.
    + by eapply step_accepted_closed.
    + by eapply step_handed_closed.
    + pose proof (step_conn_closes_mono _ _ _ E). lia.
    + intros c Hin. apply Hm. by eapply step_closed_mono.
Qed.

Lemma close_open (w : wid) (c : chan) (next : state -> state)
    (s : state) :
  c ∉ closed s ->
  close w c next s
  = next (emit (EvClose w c) (set_closed (c :: closed s) s)).
Proof.
  intros Hc. unfold close, is_closed. by rewrite bool_decide_eq_false_2.
Qed.

(** What a worker finds when it enters [forceDisconnect] first: the
    channels of its promise and the two queues are open, the socket too,
    and no error was delivered yet on the promise. *)
Lemma teardown_first (s : state) (w : wid) (p : responsePromise)
    (err : error) :
  Own s -> Tear s ->
  get_worker w s = Some (FD72, p, err) -> Requests ∉ closed s ->
  (errors p ∉ closed s) /\ (packets p ∉ closed s)
  /\ (Responses ∉ closed s)
  /\ conn_closes s = 0%nat /\ errors_delivered p s = [].
Proof.
  intros HO HT Hw Hq.
  pose proof (tear_once _ HT) as Hc.
  rewrite bool_decide_eq_false_2 in Hc by done.
  pose proof (tear_errors _ HT p) as He.
  pose proof (own_apart _ HO) as Ha. unfold apart in Ha.
  assert (Hopen : (errors p ∉ closed s) /\ (packets p ∉ closed s)).
  { destruct w; unfold get_worker in Hw.
    - pose proof (own_sender_open _ HO) as H.
      destruct (sender s) as [|pc q e|]; simplify_eq. cbn in H. tauto.
    - pose proof (own_receiver_open _ HO) as H.
      destruct (receiver s) as [|pc q e|]; simplify_eq. cbn in H. tauto. }
  split_and!; try tauto; try lia.
  - intros H. by apply (tear_queues _ HT) in H.
  - destruct He as [He|[_ He]]; [done|exfalso].
    destruct He as [He|He]; [unfold errors in Hopen; tauto|].
    destruct w; unfold get_worker in Hw.
    + destruct (sender s) as [|pc q e|]; simplify_eq.
      cbn in He, Ha. destruct He as [[]|He].
      destruct (receiver s) as [|[] q' ?|]; cbn in He, Ha; try done;
        try congruence.
    + destruct (receiver s) as [|pc q e|]; simplify_eq.
      cbn in He. destruct He as [He|[]].
      destruct (sender s) as [|[] q' ?|]; cbn in He, Ha; try done;
        try congruence.
Qed.

(** [forceDisconnect] run from its first line to the worker's return,
    by the worker that tears the connection down first, the caller in
    the select taking the error. *)
Lemma teardown_run (s : state) (w : wid) (p rc : responsePromise)
    (err : error) (tid : nat) (res : decoder) :
  Own s -> Tear s -> panicked s = false ->
  get_worker w s = Some (FD72, p, err) -> Requests ∉ closed s ->
  callers s !! tid = Some (C190 res rc) -> errors rc = errors p ->
  exists s',
    run (teardown w tid) s = Some s'
    /\ trace s' = trace s ++ teardown_events w p err tid
    /\ callers s'
       = <[tid := SendAndReceiveReturned false (Some err)]> (callers s)
    /\ closed s' = [Responses; Requests; packets p; errors p] ++ closed s
    /\ conn_closes s' = 1%nat
    /\ panicked s' = false
    /\ b s' = b s /\ next_chans s' = next_chans s
    /\ match w with
       | Sender => sender s' = Returned /\ receiver s' = receiver s
       | Receiver => receiver s' = Returned /\ sender s' = sender s
       end.
Proof.
  intros HO HT Hp Hw Hq Ht Hrc.
  destruct (teardown_first _ _ _ _ HO HT Hw Hq)
    as (He & Hk & Hr & Hc & _).
  assert (Hne : packets p <> errors p) by done.
  destruct w; unfold get_worker in Hw;
    [destruct (sender s) as [|pc q e|] eqn:Hs
    |destruct (receiver s) as [|pc q e|] eqn:Hs]; simplify_eq.
  all: eexists; split;
    [unfold teardown; cbn [run];
     unfold step at 1, fail_step, get_worker;
     rewrite Hp, Hs, Ht; unfold is_closed;
     rewrite bool_decide_eq_true_2 by (unfold errors; congruence);
     rewrite bool_decide_eq_false_2 by done;
     cbn [andb negb sendAndReceive_select];
     repeat (unfold step at 1, disconnect_step, get_worker;
             simpl_state; rewrite ?Hp;
             rewrite ?close_open
               by (simpl_state; unfold packets, errors in *;
                   rewrite ?elem_of_cons; intuition congruence));
     reflexivity
    |simpl_state; rewrite Hc, <- ?app_assoc; split_and!; done].
Qed.

Lemma errors_delivered_teardown (w : wid) (p : responsePromise)
    (err : error) (tid : nat) :
  omap (ev_error p) (teardown_events w p err tid) = [(w, err, tid)].
Proof. cbn. by rewrite bool_decide_eq_true_2. Qed.

(** Along every run the socket is closed at most once and a promise gets
    at most one error. *)
Lemma Tear_at_most_once (s : state) (p : responsePromise) :
  Tear s ->
  (conn_closes s <= 1)%nat /\ (length (errors_delivered p s) <= 1)%nat.
Proof.
  intros HT. split.
  - pose proof (tear_once _ HT). case_bool_decide; lia.
  - destruct (tear_errors _ HT p) as [->|[-> _]]; cbn; lia.
Qed.

(** What holds for good once a teardown is over. *)
Lemma after_teardown (b0 : broker) (ls ls' : list label) (s s' : state)
    (p : responsePromise) (x : wid * error * nat) :
  run ls (connected b0) = Some s -> run ls' s = Some s' ->
  Requests ∈ closed s -> Responses ∈ closed s ->
  conn_closes s = 1%nat -> errors_delivered p s = [x] ->
  accepted s' = accepted s /\ handed s' = handed s
  /\ conn_closes s' = 1%nat /\ errors_delivered p s' = [x]
  /\ (forall t, step (LAccept t) s' = None)
  /\ step LHandoff s' = None
  /\ step (LWrite None) s' = None
  /\ (forall header, step (LReadHeader (inl header)) s' = None)
  /\ (forall buf, step (LReadBody (inl buf)) s' = None).
Proof.
  intros Hrun Hrun' Hq Hr Hc He.
  destruct (run_after_teardown _ _ _ Hrun' Hq Hr) as (Ha & Hh & Hle & Hm).
  pose proof (inv_tear _ (Inv_run _ _ _ (run_app_Some _ _ _ _ _ Hrun Hrun')))
    as HT.
  destruct (Tear_at_most_once s' p HT) as [Hc1 He1].
  destruct (run_trace _ _ _ Hrun') as [es Hes].
  assert (Hc' : conn_closes s' = 1%nat) by lia.
  assert (Hq' : bool_decide (Requests ∈ closed s') = true)
    by (apply bool_decide_eq_true_2; auto).
  assert (Hr' : bool_decide (Responses ∈ closed s') = true)
    by (apply bool_decide_eq_true_2; auto).
  split_and!; try done.
  - unfold errors_delivered in *. rewrite Hes, omap_app, He in *.
    destruct (omap (ev_error p) es); [done|cbn in He1; lia].
  - intros t. unfold step, accept_step, is_closed. rewrite Hq'.
    by repeat case_match.
  - unfold step, handoff_step, is_closed. rewrite Hr'.
    by repeat case_match.
  - unfold step, write_step. rewrite Hc'. cbn [Nat.eqb].
    by repeat case_match.
  - intros header. unfold step, read_header_step. rewrite Hc'.
    destruct (panicked s'); [done|].
    destruct (receiver s') as [[]| |]; try done.
    cbn. by rewrite andb_false_r.
  - intros buf. unfold step, read_body_step. rewrite Hc'.
    destruct (panicked s'); [done|].
    destruct (receiver s') as [[]| |]; try done.
    cbn. by rewrite andb_false_r.
Qed.

End TeardownProperties.

(** ** The check of a frame header *)

Section HeaderProperties.

Context {codec : RequestCodec}.

Lemma frame_length_header (len corr : Z) :
  int32_range len -> frame_length (frame_header len corr) = len.
Proof.
  intros Hl. unfold frame_length, frame_header.
  by rewrite int32_of_bytes_int32_bytes.
Qed.

Lemma frame_correlation_header (len corr : Z) :
  int32_range corr -> frame_correlation (frame_header len corr) = corr.
Proof.
  intros Hc. unfold frame_correlation, frame_header.
  assert (E : forall l, real_getInt32 (int32_bytes len ++ l)
                        = (int32_of_bytes (byte_of_Z (len / 2 ^ 24))
                             (byte_of_Z (len / 2 ^ 16))
                             (byte_of_Z (len / 2 ^ 8)) (byte_of_Z len),
                           None, l)) by reflexivity.
  rewrite E. cbn [snd].
  rewrite <- (app_nil_r (int32_bytes corr)).
  by rewrite int32_of_bytes_int32_bytes.
Qed.

(** The check in terms of the two fields of the header. *)
Lemma check_header_fields (p : responsePromise) (header : list byte) :
  check_header p header
  = if (frame_length header <=? 4) || (frame_length header >? 2 * MaxUint16)
    then BadLength
    else if negb (rp_correlation_id p =? frame_correlation header)
         then BadCorrelation
         else HeaderOk (frame_length header).
Proof.
  unfold check_header, frame_length, frame_correlation.
  destruct (real_getInt32 header) as [[len e] rest]. cbn [fst snd].
  destruct (real_getInt32 rest) as [[corr e'] rest']. reflexivity.
Qed.

Lemma check_header_BadLength (p : responsePromise) (header : list byte) :
  check_header p header = BadLength
  <-> frame_length header <= 4 \/ 2 * MaxUint16 < frame_length header.
Proof.
  rewrite check_header_fields.
  destruct (Z.leb_spec (frame_length header) 4);
    destruct (Z.gtb_spec (frame_length header) (2 * MaxUint16));
    cbn [orb]; try (split; [intros _; lia|done]).
  destruct (negb _); split; try done; lia.
Qed.

Lemma check_header_BadCorrelation (p : responsePromise)
    (header : list byte) :
  check_header p header = BadCorrelation
  <-> 4 < frame_length header <= 2 * MaxUint16
      /\ frame_correlation header <> rp_correlation_id p.
Proof.
  rewrite check_header_fields.
  destruct (Z.leb_spec (frame_length header) 4);
    destruct (Z.gtb_spec (frame_length header) (2 * MaxUint16));
    cbn [orb]; try (split; [done|lia]).
  destruct (Z.eqb_spec (rp_correlation_id p) (frame_correlation header));
    cbn [negb]; split; try done; try lia.
Qed.

Lemma check_header_HeaderOk (p : responsePromise) (header : list byte)
    (len : Z) :
  check_header p header = HeaderOk len
  <-> len = frame_length header /\ 4 < len <= 2 * MaxUint16
      /\ frame_correlation header = rp_correlation_id p.
Proof.
  rewrite check_header_fields.
  destruct (Z.leb_spec (frame_length header) 4);
    destruct (Z.gtb_spec (frame_length header) (2 * MaxUint16));
    cbn [orb]; try (split; [done|lia]).
  destruct (Z.eqb_spec (rp_correlation_id p) (frame_correlation header));
    cbn [negb]; split; try done.
  - intros [= <-]. split_and!; try done; lia.
  - intros (-> & _ & _). done.
  - intros (_ & _ & Heq). congruence.
Qed.

(** The step of the receiver that reads a header. *)
Lemma read_header_enabled (s : state) (p : responsePromise)
    (header : list byte) :
  panicked s = false -> receiver s = Running (R135 p) ->
  conn_closes s = 0%nat -> length header = 8%nat ->
  step (LReadHeader (inl header)) s
  = Some (emit (EvHeader p header)
            (set_receiver
               match check_header p header with
               | HeaderOk len => Running (R155 p len)
               | _ => Disconnecting FD72 p (DecodingError EmptyString)
               end s)).
Proof.
  intros Hp Hr Hc Hl. unfold step, read_header_step.
  by rewrite Hp, Hr, Hc, Hl.
Qed.

End HeaderProperties.

(** ** Counting callers *)

Section CountProperties.

Context {codec : RequestCodec}.

Lemma count_if_app (f : caller -> bool) (l1 l2 : list caller) :
  count_if f (l1 ++ l2) = (count_if f l1 + count_if f l2)%nat.
Proof.
  induction l1 as [|c l1 IH]; cbn; [done|]. rewrite IH.
  destruct (f c); lia.
Qed.

Lemma count_if_insert (f : caller -> bool) (cs : list caller) (i : nat)
    (c c' : caller) :
  cs !! i = Some c ->
  (count_if f (<[i:=c']> cs) + (if f c then 1 else 0)
   = count_if f cs + (if f c' then 1 else 0))%nat.
Proof.
  revert i. induction cs as [|a cs IH]; intros [|i] Hi; try done.
  - injection Hi as ->. change (<[0%nat:=c']> (c :: cs)) with (c' :: cs).
    cbn [count_if]. destruct (f c), (f c'); lia.
  - change (<[S i:=c']> (a :: cs)) with (a :: <[i:=c']> cs).
    cbn [count_if]. specialize (IH i Hi). destruct (f a); lia.
Qed.

Lemma count_if_lookup (f : caller -> bool) (cs : list caller) (i : nat)
    (c : caller) :
  cs !! i = Some c -> f c = true -> (1 <= count_if f cs)%nat.
Proof.
  revert i. induction cs as [|a cs IH]; intros [|i] Hi Hf; try done.
  - cbn in *. simplify_eq. rewrite Hf. lia.
  - cbn in *. specialize (IH i Hi Hf). destruct (f a); lia.
Qed.

(** Two callers that satisfy [f] count for two. *)
Lemma count_if_two (f : caller -> bool) (cs : list caller) (i j : nat)
    (c c' : caller) :
  cs !! i = Some c -> cs !! j = Some c' -> i <> j ->
  f c = true -> f c' = true -> (2 <= count_if f cs)%nat.
Proof.
  revert i j. induction cs as [|a cs IH]; intros [|i] [|j] Hi Hj Hne Hc Hc';
    try done; cbn in *; simplify_eq.
  - pose proof (count_if_lookup f cs j c' Hj Hc'). rewrite Hc. lia.
  - pose proof (count_if_lookup f cs i c Hi Hc). rewrite Hc'. lia.
  - assert (i <> j) by congruence.
    specialize (IH i j Hi Hj ltac:(done) Hc Hc'). destruct (f a); lia.
Qed.

(** A caller that satisfies [g] and not [f], where [f] implies [g]. *)
Lemma count_if_less (f g : caller -> bool) (cs : list caller) (i : nat)
    (c : caller) :
  (forall x, f x = true -> g x = true) ->
  cs !! i = Some c -> g c = true -> f c = false ->
  (count_if f cs + 1 <= count_if g cs)%nat.
Proof.
  intros Hfg. revert i.
  assert (Hle : forall l, (count_if f l <= count_if g l)%nat).
  { induction l as [|a l IHl]; cbn; [done|].
    specialize (IHl). specialize (Hfg a).
    destruct (f a), (g a); first [lia|by specialize (Hfg eq_refl)]. }
  induction cs as [|a cs IH]; intros [|i] Hi Hg Hf; try done.
  - cbn in *. simplify_eq. rewrite Hg, Hf. specialize (Hle cs). lia.
  - cbn in *. specialize (IH i Hi Hg Hf). specialize (Hfg a).
    destruct (f a), (g a); first [lia|by specialize (Hfg eq_refl)].
Qed.

Lemma before_increment_in_sendRequest (c : caller) :
  before_increment c = true -> in_sendRequest c = true.
Proof. by destruct c. Qed.

(** While a caller is before line 177 in a sequential state, no envelope
    waits for its caller to reach line 178. *)
Lemma sequential_none_before (s : state) (tid : nat) (c : caller) :
  sequential s = true -> callers s !! tid = Some c ->
  in_sendRequest c = true -> before_increment c = false ->
  count_if before_increment (callers s) = 0%nat.
Proof.
  unfold sequential. intros Hs Ht Hin Hb. apply Nat.leb_le in Hs.
  pose proof (count_if_less before_increment in_sendRequest (callers s)
                tid c before_increment_in_sendRequest Ht Hin Hb).
  lia.
Qed.

(** In a sequential state the caller inside [sendRequest] is alone
    there. *)
Lemma sequential_alone (s : state) (t1 t2 : nat) (c1 c2 : caller) :
  sequential s = true ->
  callers s !! t1 = Some c1 -> callers s !! t2 = Some c2 ->
  in_sendRequest c1 = true -> t1 <> t2 -> in_sendRequest c2 = false.
Proof.
  unfold sequential. intros Hs H1 H2 Hin Hne. apply Nat.leb_le in Hs.
  destruct (in_sendRequest c2) eqn:E; [|done].
  pose proof (count_if_two in_sendRequest _ _ _ _ _ H1 H2 Hne Hin E). lia.
Qed.

Lemma caller_ids_outside (cur : Z) (c : caller) :
  in_sendRequest c = false -> caller_ids cur c.
Proof. by destruct c. Qed.

Lemma before_increment_return_promise (k : call_kind)
    (p : responsePromise) :
  before_increment (return_promise k p) = false.
Proof. by destruct k. Qed.

Lemma before_increment_return_error (k : call_kind) (e : error) :
  before_increment (return_error k e) = false.
Proof. by destruct k. Qed.

Lemma run_seq_run (ls : list label) (s s' : state) :
  run_seq ls s = Some s' -> run ls s = Some s'.
Proof.
  revert s. induction ls as [|l ls IH]; intros s; cbn.
  - by destruct (sequential s).
  - destruct (sequential s); [|done].
    destruct (step l s); [apply IH|done].
Qed.

Lemma run_seq_sequential (ls : list label) (s s' : state) :
  run_seq ls s = Some s' -> sequential s = true /\ sequential s' = true.
Proof.
  revert s. induction ls as [|l ls IH]; intros s; cbn.
  - destruct (sequential s) eqn:E; [|done]. intros [= <-]. done.
  - destruct (sequential s) eqn:E; [|done].
    destruct (step l s) as [s1|]; [|done].
    intros H. by destruct (IH _ H).
Qed.

(** A property that every step between sequential states preserves holds
    along every sequential run. *)
Lemma run_seq_invariant (P : state -> Prop) :
  (forall l s s', P s -> sequential s = true -> step l s = Some s' ->
                  sequential s' = true -> P s') ->
  forall ls s s', P s -> run_seq ls s = Some s' -> P s'.
Proof.
  intros Hstep ls. induction ls as [|l ls IH]; intros s s' Hs Hrun.
  - cbn in Hrun. destruct (sequential s); by simplify_eq.
  - cbn in Hrun. destruct (sequential s) eqn:E; [|done].
    destruct (step l s) as [s1|] eqn:E1; [|done].
    destruct (run_seq_sequential _ _ _ Hrun) as [E2 _].
    eapply IH; [|exact Hrun]. by eapply Hstep.
Qed.

Lemma wrap32_succ (z : Z) : wrap32 (wrap32 z + 1) = wrap32 (z + 1).
Proof.
  unfold wrap32.
  change (2 ^ 31) with 2147483648. change (2 ^ 32) with 4294967296.
  Z.div_mod_to_equations. lia.
Qed.

End CountProperties.

(** ** The counter of correlation ids *)

Section CounterProperties.

Context {codec : RequestCodec}.

Lemma Counter_connected (b0 : broker) :
  int32_range (correlation_id b0) ->
  Counter (correlation_id b0) (connected b0).
Proof.
  intros Hc. split; cbn.
  - by rewrite Z.add_0_r, Z.sub_0_r, wrap32_id.
  - intros tid c H. done.
  - done.
Qed.

(** The counter counts the envelopes whose callers have passed line 178:
    the caller that stores on line 178 had loaded the present value. *)
Lemma Counter_step_value (c0 : Z) (l : label) (s s' : state) :
  Counter c0 s ->
  step l s = Some s' ->
  correlation_id (b s')
  = wrap32 (c0 + Z.of_nat (length (accepted s'))
            - Z.of_nat (count_if before_increment (callers s'))).
Proof.
  intros HC H. pose proof (cnt_value _ _ HC) as Hv.
  pose proof (cnt_callers _ _ HC) as Hcs.
  step_cases H; simpl_obs.
  all: try exact Hv.
  all: try match goal with
       | H : callers ?s !! ?i = Some ?c
         |- context [count_if ?f (<[?i:=?c']> (callers ?s))] =>
           pose proof (count_if_insert f _ _ _ c' H) as Hins;
           pose proof (Hcs _ _ H) as Hids; cbn [caller_ids] in Hids
       end.
  all: rewrite ?count_if_app, ?length_app in *.
  all: cbn [count_if before_increment length correlation_id
            set_correlation_id] in *.
  all: rewrite ?before_increment_return_promise,
         ?before_increment_return_error in *.
  all: first [etransitivity; [exact Hv|]; f_equal; lia
             |destruct Hids as (_ & _ & ->);
              rewrite Hv, wrap32_succ; f_equal; lia].
Qed.

(** Line 178, the load and the store with no other caller in between. *)
Lemma increment_run (s : state) (tid : nat) (k : call_kind)
    (req : request request_body) (r : requestToSend) :
  panicked s = false -> callers s !! tid = Some (C178 k req r) ->
  run [LCaller tid; LCaller tid] s
  = Some (set_caller tid (return_promise k (response r))
            (set_b (set_correlation_id
                      (wrap32 (correlation_id (b s) + 1)) (b s))
               (set_caller tid (C178w k req r (correlation_id (b s))) s))).
Proof.
  intros Hp Ht. cbn [run]. unfold step at 1, caller_step. rewrite Hp, Ht.
  unfold step, caller_step. simpl_state. rewrite Hp.
  rewrite list_lookup_insert_eq by (by eapply lookup_lt_Some).
  reflexivity.
Qed.

Lemma in_sendRequest_return_promise (k : call_kind)
    (p : responsePromise) :
  in_sendRequest (return_promise k p) = false.
Proof. by destruct k. Qed.

Lemma in_sendRequest_return_error (k : call_kind) (e : error) :
  in_sendRequest (return_error k e) = false.
Proof. by destruct k. Qed.

(** The caller inside [sendRequest] has used the counter's value. *)
Lemma Counter_step_callers (c0 : Z) (l : label) (s s' : state) :
  Counter c0 s -> sequential s = true -> step l s = Some s' ->
  forall tid c,
    callers s' !! tid = Some c -> caller_ids (correlation_id (b s')) c.
Proof.
  intros HC Hseq H tid c Hc. pose proof (cnt_callers _ _ HC) as Hcs.
  step_cases H; simpl_state; caller_lookup.
  all: cbn [correlation_id set_correlation_id].
  all: try (by eapply Hcs).
  all: try (apply caller_ids_outside;
            first [apply in_sendRequest_return_promise
                  |apply in_sendRequest_return_error|reflexivity]).
  all: try match goal with
       | H : callers _ !! _ = Some _ |- _ =>
           pose proof (Hcs _ _ H) as Hold; cbn [caller_ids] in Hold
       end.
  all: cbn [caller_ids req_correlation_id rp_correlation_id response];
    try tauto.
  all: try (destruct Hold; split_and!; done).
  all: apply caller_ids_outside.
  all: match goal with
       | H1 : callers ?s !! ?t1 = Some (C178w _ _ _ _),
         H2 : callers ?s !! ?t2 = Some ?c |- in_sendRequest ?c = false =>
           apply (sequential_alone s t1 t2 _ c Hseq H1 H2 eq_refl);
           congruence
       end.
Qed.

(** The accepted envelopes have the values the counter took, in order. *)
Lemma Counter_step_accepted (c0 : Z) (l : label) (s s' : state) :
  Counter c0 s -> sequential s = true -> step l s = Some s' ->
  map accepted_ids (accepted s')
  = map (fun c => (c, c)) (ids_from c0 (length (accepted s'))).
Proof.
  intros HC Hseq H. pose proof (cnt_accepted _ _ HC) as Ha.
  step_cases H; simpl_obs; try exact Ha.
  match goal with
  | H : callers _ !! _ = Some _ |- _ =>
      pose proof (cnt_callers _ _ HC _ _ H) as [Hreq Hrp];
      pose proof (sequential_none_before _ _ _ Hseq H eq_refl eq_refl)
        as Hnone
  end.
  pose proof (cnt_value _ _ HC) as Hv.
  rewrite Hnone, Z.sub_0_r in Hv.
  rewrite length_app, map_app. cbn [length map].
  rewrite Nat.add_1_r. unfold ids_from in *. rewrite seq_S, !map_app.
  cbn [map Nat.add]. rewrite <- Ha. f_equal.
  unfold accepted_ids. cbn [fst snd]. by rewrite Hreq, Hrp, Hv.
Qed.

Lemma Counter_step (c0 : Z) (l : label) (s s' : state) :
  Counter c0 s -> sequential s = true -> step l s = Some s' ->
  Counter c0 s'.
Proof.
  intros HC Hseq H. split.
  - by eapply Counter_step_value.
  - by eapply Counter_step_callers.
  - by eapply Counter_step_accepted.
Qed.

Lemma Counter_run (b0 : broker) (ls : list label) (s : state) :
  int32_range (correlation_id b0) ->
  run_seq ls (connected b0) = Some s -> Counter (correlation_id b0) s.
Proof.
  intros Hc. apply (run_seq_invariant (Counter (correlation_id b0))).
  - intros l s1 s2 HC Hseq H _. by eapply Counter_step.
  - by apply Counter_connected.
Qed.

End CounterProperties.

(** ** A teardown among other goroutines *)

Section TeardownSafety.

Context {codec : RequestCodec}.

Lemma elem_of_omap_app {A B : Type} (f : A -> option B) (l k : list A)
    (y : B) :
  y ∈ omap f l -> y ∈ omap f (l ++ k).
Proof. intros H. rewrite omap_app. apply elem_of_app. by left. Qed.

(** What a statement of [forceDisconnect] has done stays done. *)
Lemma teardown_effect_step (w : wid) (p : responsePromise) (err : error)
    (m : nat) (l : label) (s s' : state) :
  step l s = Some s' ->
  teardown_effect w p err m s -> teardown_effect w p err m s'.
Proof.
  intros H. destruct (step_trace _ _ _ H) as [es Hes].
  pose proof (fun c => step_closed_mono _ _ _ c H) as Hc.
  destruct m as [|[|[|[|[|[|[|m]]]]]]]; cbn; auto.
  - intros [tid Hin]. exists tid. unfold errors_delivered in *.
    rewrite Hes. by apply elem_of_omap_app.
  - unfold conn_closed_by. rewrite Hes. by apply elem_of_omap_app.
Qed.

Lemma teardown_done_step (w : wid) (p : responsePromise) (err : error)
    (n : nat) (l : label) (s s' : state) :
  step l s = Some s' ->
  teardown_done w p err n s -> teardown_done w p err n s'.
Proof.
  intros H Hd m Hm. eapply teardown_effect_step; [exact H|]. by apply Hd.
Qed.

Lemma teardown_done_S (w : wid) (p : responsePromise) (err : error)
    (n : nat) (s : state) :
  teardown_done w p err n s -> teardown_effect w p err (S n) s ->
  teardown_done w p err (S n) s.
Proof.
  intros Hd He m Hm. destruct (decide (m = S n)) as [->|Hne]; [done|].
  apply Hd. lia.
Qed.

(** A step leaves the worker where it is in [forceDisconnect], or takes
    it through its next statement. *)
Lemma teardown_stage_step (w : wid) (p : responsePromise) (err : error)
    (n : nat) (l : label) (s s' : state) :
  teardown_stage w p err n s -> step l s = Some s' ->
  teardown_stage w p err n s'
  \/ (teardown_stage w p err (S n) s'
      /\ teardown_effect w p err (S n) s').
Proof.
  intros Hst H. unfold teardown_stage, get_worker, returned_worker in Hst.
  destruct w.
  - destruct (sender s) as [pc0|pc q e|] eqn:Hs.
    + destruct Hst as [? _]. congruence.
    + destruct Hst as (-> & -> & ->).
      step_cases H; unfold teardown_stage, get_worker, returned_worker,
        teardown_effect; simpl_obs; rewrite_pcs; simplify_eq;
        cbn [fd_stage].
      all: try (left; done).
      all: right; split; [done|].
      all: rewrite ?bool_decide_eq_true_2 by done.
      all: first [by left|by eexists; apply elem_of_app; right; left
                 |apply elem_of_app; right; by left].
    + destruct Hst as [_ ->]. left.
      step_cases H; unfold teardown_stage, get_worker, returned_worker;
        simpl_state; rewrite_pcs; simplify_eq; done.
  - destruct (receiver s) as [pc0|pc q e|] eqn:Hs.
    + destruct Hst as [? _]. congruence.
    + destruct Hst as (-> & -> & ->).
      step_cases H; unfold teardown_stage, get_worker, returned_worker,
        teardown_effect; simpl_obs; rewrite_pcs; simplify_eq;
        cbn [fd_stage].
      all: try (left; done).
      all: right; split; [done|].
      all: rewrite ?bool_decide_eq_true_2 by done.
      all: first [by left|by eexists; apply elem_of_app; right; left
                 |apply elem_of_app; right; by left].
    + destruct Hst as [_ ->]. left.
      step_cases H; unfold teardown_stage, get_worker, returned_worker;
        simpl_state; rewrite_pcs; simplify_eq; done.
Qed.

Lemma teardown_progress (w : wid) (p : responsePromise) (err : error)
    (ls : list label) :
  forall (n : nat) (s s' : state),
    teardown_stage w p err n s -> teardown_done w p err n s ->
    run ls s = Some s' ->
    exists n', teardown_stage w p err n' s' /\ teardown_done w p err n' s'.
Proof.
  induction ls as [|l ls IH]; intros n s s' Hst Hd Hrun; cbn in Hrun.
  - simplify_eq. by exists n.
  - destruct (step l s) as [s1|] eqn:E; [|done].
    pose proof (teardown_done_step _ _ _ _ _ _ _ E Hd) as Hd1.
    destruct (teardown_stage_step _ _ _ _ _ _ _ Hst E) as [Hst1|[Hst1 He]].
    + by apply (IH n s1).
    + apply (IH (S n) s1); [done| |done]. by apply teardown_done_S.
Qed.

Lemma singleton_of_length {A : Type} (l : list A) (x : A) :
  x ∈ l -> (length l <= 1)%nat -> l = [x].
Proof.
  destruct l as [|y [|z l]]; cbn; intros Hin Hl; try lia.
  - by apply elem_of_nil in Hin.
  - by apply list_elem_of_singleton in Hin as ->.
Qed.

(** The six statements, done: the teardown as a whole. *)
Lemma teardown_complete (w : wid) (p : responsePromise) (err : error)
    (s : state) :
  Tear s -> teardown_done w p err 6 s -> torn_down_by w p err s.
Proof.
  intros HT Hd.
  destruct (Tear_at_most_once s p HT) as [Hc He].
  destruct (Hd 1%nat ltac:(lia)) as [tid Hin].
  pose proof (Hd 2%nat ltac:(lia)) as H2.
  pose proof (Hd 3%nat ltac:(lia)) as H3.
  pose proof (Hd 4%nat ltac:(lia)) as H4.
  pose proof (Hd 5%nat ltac:(lia)) as H5.
  pose proof (Hd 6%nat ltac:(lia)) as H6. cbn in H2, H3, H4, H5, H6.
  pose proof (tear_closed_by _ HT) as Hby.
  assert (Hw : conn_closed_by s = [w])
    by (apply singleton_of_length; [done|lia]).
  split_and!; try done.
  - exists tid. by apply singleton_of_length.
  - rewrite Hw in Hby. cbn in Hby. lia.
Qed.

Lemma no_further_work_closed (s : state) :
  Requests ∈ closed s -> Responses ∈ closed s -> conn_closes s = 1%nat ->
  no_further_work s.
Proof.
  intros Hq Hr Hc.
  assert (Hq' : bool_decide (Requests ∈ closed s) = true)
    by (by apply bool_decide_eq_true_2).
  assert (Hr' : bool_decide (Responses ∈ closed s) = true)
    by (by apply bool_decide_eq_true_2).
  split_and!.
  - intros t. unfold step, accept_step, is_closed. rewrite Hq'.
    by repeat case_match.
  - unfold step, handoff_step, is_closed. rewrite Hr'.
    by repeat case_match.
  - unfold step, write_step. rewrite Hc. cbn [Nat.eqb].
    by repeat case_match.
  - intros header. unfold step, read_header_step. rewrite Hc.
    destruct (panicked s); [done|].
    destruct (receiver s) as [[]| |]; try done.
    cbn. by rewrite andb_false_r.
  - intros buf. unfold step, read_body_step. rewrite Hc.
    destruct (panicked s); [done|].
    destruct (receiver s) as [[]| |]; try done.
    cbn. by rewrite andb_false_r.
Qed.

(** Whatever the other goroutines do: a worker that has entered
    [forceDisconnect] and has returned has run the whole teardown, once;
    and on the way the socket is closed at most once and the promise gets
    at most one error. *)
Lemma teardown_safe (b0 : broker) (ls ls' : list label) (s s' : state)
    (w : wid) (pc : fd_pc) (p : responsePromise) (err : error) :
  run ls (connected b0) = Some s ->
  get_worker w s = Some (pc, p, err) ->
  teardown_done w p err (fd_stage pc) s ->
  run ls' s = Some s' ->
  (conn_closes s' <= 1)%nat /\ (length (errors_delivered p s') <= 1)%nat
  /\ length (conn_closed_by s') = conn_closes s'
  /\ (returned_worker w s' ->
      torn_down_by w p err s' /\ no_further_work s').
Proof.
  intros Hrun Hw Hd Hrun'.
  pose proof (inv_tear _ (Inv_run _ _ _ (run_app_Some _ _ _ _ _ Hrun Hrun')))
    as HT.
  destruct (Tear_at_most_once s' p HT) as [Hc He].
  split_and!; try done; [apply (tear_closed_by _ HT)|].
  intros Hret.
  assert (Hst : teardown_stage w p err (fd_stage pc) s)
    by (unfold teardown_stage; by rewrite Hw).
  destruct (teardown_progress _ _ _ _ _ _ _ Hst Hd Hrun')
    as (n' & Hst' & Hd').
  assert (n' = 6%nat) as ->.
  { unfold teardown_stage, get_worker, returned_worker in *.
    destruct w; rewrite Hret in Hst'; tauto. }
  pose proof (teardown_complete _ _ _ _ HT Hd') as Ht.
  split; [done|].
  destruct Ht as (_ & _ & _ & Hq & Hr & Hc1 & _).
  by apply no_further_work_closed.
Qed.

Lemma teardown_done_0 (w : wid) (p : responsePromise) (err : error)
    (s : state) :
  teardown_done w p err 0 s.
Proof. intros m Hm. by replace m with 0%nat by lia. Qed.

(** *** A promise nobody waits on *)

(** A caller that has returned from [sendRequest] stays so. *)
Lemma step_returned_caller (l : label) (s s' : state) (t : nat)
    (q : option responsePromise) (e : option error) :
  step l s = Some s' ->
  callers s !! t = Some (SendRequestReturned q e) ->
  callers s' !! t = Some (SendRequestReturned q e).
Proof.
  intros H Ht. step_cases H; simpl_state; try done.
  all: try (rewrite list_lookup_insert_ne; [done|congruence]).
  by apply lookup_app_l_Some.
Qed.

Lemma abandoned_step (p : responsePromise) (l : label) (s s' : state) :
  step l s = Some s' -> abandoned p s -> abandoned p s'.
Proof.
  intros H (t0 & p' & e0 & Ht & Hp). exists t0, p', e0.
  split; [|done]. by eapply step_returned_caller.
Qed.

(** No caller is in a select on the channels of such a promise. *)
Lemma abandoned_no_select (p rc : responsePromise) (s : state) (tid : nat)
    (res : decoder) :
  Own s -> abandoned p s -> callers s !! tid = Some (C190 res rc) ->
  rp_chans rc <> rp_chans p.
Proof.
  intros HO (t0 & p' & e0 & Ht & Hp) Hc Heq.
  assert (tid = t0) as ->.
  { apply (own_caller_apart _ HO tid t0 _ _ (rp_chans p) Hc Ht); cbn;
      congruence. }
  congruence.
Qed.

(** No error is ever delivered on it. *)
Lemma abandoned_step_errors (p : responsePromise) (l : label)
    (s s' : state) :
  Own s -> abandoned p s -> step l s = Some s' ->
  errors_delivered p s' = errors_delivered p s.
Proof.
  intros HO Ha H.
  assert (Hno : forall tid res rc,
            callers s !! tid = Some (C190 res rc) ->
            rp_chans rc <> rp_chans p)
    by (intros tid res rc; by apply abandoned_no_select).
  step_cases H; simpl_obs; try done.
  all: case_bool_decide as Hq; [exfalso|by rewrite app_nil_r].
  all: unfold errors in *; simplify_eq.
  all: match goal with
       | H : callers _ !! _ = Some (C190 _ _) |- _ =>
           apply (Hno _ _ _ H); congruence
       end.
Qed.

(** A worker on line 72 stays there while no caller takes its error. *)
Lemma step_waits (w : wid) (p : responsePromise) (err : error) (l : label)
    (s s' : state) :
  get_worker w s = Some (FD72, p, err) -> step l s = Some s' ->
  (forall tid, l <> LFail w tid) ->
  get_worker w s' = Some (FD72, p, err).
Proof.
  intros Hw E Hl. destruct w; unfold get_worker in *.
  - destruct (sender s) as [|pc q e|] eqn:Hs; simplify_eq.
    step_cases E; simpl_state; try done; try congruence.
    all: try (exfalso; eapply Hl; reflexivity).
    all: match goal with H : sender _ = _ |- _ => by rewrite H end.
  - destruct (receiver s) as [|pc q e|] eqn:Hs; simplify_eq.
    step_cases E; simpl_state; try done; try congruence.
    all: try (exfalso; eapply Hl; reflexivity).
    all: match goal with H : receiver _ = _ |- _ => by rewrite H end.
Qed.

(** The teardown for a promise nobody waits on never starts: on every run
    the worker stays on line 72, the error is not delivered and the
    channels of the promise stay open. *)
Lemma abandoned_waits (w : wid) (p : responsePromise) (err : error)
    (ls' : list label) :
  forall s s',
    Inv s -> get_worker w s = Some (FD72, p, err) -> abandoned p s ->
    run ls' s = Some s' ->
    Inv s' /\ get_worker w s' = Some (FD72, p, err) /\ abandoned p s'
    /\ errors_delivered p s' = errors_delivered p s.
Proof.
  induction ls' as [|l ls' IH]; intros s s' HI Hw Ha Hrun; cbn in Hrun.
  - by simplify_eq.
  - destruct (step l s) as [s1|] eqn:E; [|done].
    assert (Hl : forall tid, l <> LFail w tid).
    { intros tid ->. unfold step, fail_step in E. rewrite Hw in E.
      destruct (panicked s); [done|].
      destruct (callers s !! tid) as [[]|] eqn:Ht; try done.
      destruct (bool_decide _) eqn:Hb; [|done].
      apply bool_decide_eq_true in Hb. unfold errors in Hb.
      apply (abandoned_no_select p responseChan s tid res);
        [apply (inv_own _ HI)|done|done|congruence]. }
    destruct (IH s1 s') as (HI' & Hw' & Ha' & He'); try done.
    + by eapply Inv_step.
    + by eapply step_waits.
    + by eapply abandoned_step.
    + split_and!; try done. rewrite He'.
      eapply abandoned_step_errors; [apply (inv_own _ HI)|done..].
Qed.

(** While the sender waits on line 72 and the receiver at the head of its
    loop, nothing is accepted, closed or torn down, and nothing panics. *)
Lemma hang_step (p : responsePromise) (err : error) (l : label)
    (s s' : state) :
  Inv s -> sender s = Disconnecting FD72 p err ->
  receiver s = Running R134 -> Requests ∉ closed s ->
  (forall tid, l <> LFail Sender tid) -> step l s = Some s' ->
  receiver s' = Running R134 /\ closed s' = closed s
  /\ conn_closes s' = conn_closes s /\ panicked s' = false
  /\ accepted s' = accepted s.
Proof.
  intros [HO HR HT _ _] Hs Hr Hq Hl H.
  pose proof (own_sender_open _ HO) as Hopen. rewrite Hs in Hopen.
  cbn in Hopen. destruct Hopen as (He & Hk & _).
  step_cases H; simpl_obs; rewrite_pcs; simplify_eq; try done.
  all: try (exfalso; eapply Hl; reflexivity).
  all: try match goal with
       | H : callers _ !! _ = Some (C177 _ _ _ _) |- _ =>
           destruct (ord_c177 _ HR _ _ _ _ _ H) as [Hs117 _]; congruence
       end.
  all: try (exfalso; by apply Hq, (tear_queues _ HT)).
Qed.

Lemma sender_hangs (p : responsePromise) (err : error) (ls' : list label) :
  forall s s',
    Inv s -> sender s = Disconnecting FD72 p err ->
    receiver s = Running R134 -> Requests ∉ closed s -> abandoned p s ->
    panicked s = false -> run ls' s = Some s' ->
    sender s' = Disconnecting FD72 p err /\ receiver s' = Running R134
    /\ closed s' = closed s /\ conn_closes s' = conn_closes s
    /\ panicked s' = false /\ accepted s' = accepted s
    /\ errors_delivered p s' = errors_delivered p s.
Proof.
  induction ls' as [|l ls' IH]; intros s s' HI Hs Hr Hq Ha Hp Hrun;
    cbn in Hrun.
  - by simplify_eq.
  - destruct (step l s) as [s1|] eqn:E; [|done].
    assert (Hw : get_worker Sender s = Some (FD72, p, err))
      by (unfold get_worker; by rewrite Hs).
    assert (Hl : forall tid, l <> LFail Sender tid).
    { intros tid ->. unfold step, fail_step in E. rewrite Hw in E.
      destruct (panicked s); [done|].
      destruct (callers s !! tid) as [[]|] eqn:Ht; try done.
      destruct (bool_decide _) eqn:Hb; [|done].
      apply bool_decide_eq_true in Hb. unfold errors in Hb.
      apply (abandoned_no_select p responseChan s tid res);
        [apply (inv_own _ HI)|done|done|congruence]. }
    destruct (hang_step _ _ _ _ _ HI Hs Hr Hq Hl E)
      as (Hr1 & Hc1 & Hn1 & Hp1 & Ha1).
    pose proof (step_waits _ _ _ _ _ _ Hw E Hl) as Hw1.
    assert (Hs1 : sender s1 = Disconnecting FD72 p err).
    { unfold get_worker in Hw1.
      destruct (sender s1) as [|pc q e|]; by simplify_eq. }
    destruct (IH s1 s') as (? & ? & -> & -> & ? & -> & ->); try done.
    + by eapply Inv_step.
    + by rewrite Hc1.
    + by eapply abandoned_step.
    + split_and!; try done.
      eapply abandoned_step_errors; [apply (inv_own _ HI)|done..].
Qed.

End TeardownSafety.

(** ** The pipeline keeps the order of acceptance *)

Section PipelineOrder.

Context {codec : RequestCodec}.

Lemma sender_order_prefix (s : state) :
  sender_order s ->
  wire s `prefix_of` queued s /\ handed s `prefix_of` awaiting s.
Proof.
  unfold sender_order.
  destruct (sender s) as [[]| |]; intros [Hq Ha].
  all: repeat match goal with H : exists _, _ |- _ => destruct H as [? H] end.
  all: rewrite Hq, Ha; split;
    first [done|eexists; reflexivity].
Qed.

Lemma receiver_order_prefix (s : state) :
  receiver_order s ->
  map fst (matched s) `prefix_of` handed s
  /\ map (fun d => fst (fst d)) (delivered s) `prefix_of` map fst (matched s).
Proof.
  unfold receiver_order.
  destruct (receiver s) as [[]| |]; intros [Hh Hd].
  all: destruct_or?.
  all: repeat match goal with H : exists _, _ |- _ => destruct H as [? H] end.
  all: rewrite Hh, Hd; split; first [done|eexists; reflexivity].
Qed.

Lemma prefix_sublist {A : Type} (l1 l2 : list A) :
  l1 `prefix_of` l2 -> l1 `sublist_of` l2.
Proof. intros [k ->]. by apply sublist_inserts_r. Qed.

Lemma awaiting_sublist (s : state) :
  awaiting s `sublist_of` map (fun w => response (fst w)) (wire s).
Proof.
  unfold awaiting, wire. induction (written s) as [|[[r buf] res] ws IH].
  - constructor.
  - cbn. unfold ev_await at 1. cbn.
    destruct res; [by constructor|].
    destruct (expectResponse r); by constructor.
Qed.

(** C1: along every run, the bytes passed to [Write] are those of the
    accepted envelopes, in the order of acceptance; the promises handed to
    the receiver are those of the requests written in full that expect a
    response, in the order of the writes, hence in the order of
    acceptance; the receiver reads the frame headers for the promises in
    the order it took them, and delivers the replies in that order.  The
    bytes of an accepted envelope are those its request serialized to. *)
Theorem pipeline_fifo (b0 : broker) (ls : list label) (s : state) :
  run ls (connected b0) = Some s ->
  wire s `prefix_of` queued s
  /\ handed s `prefix_of` awaiting s
  /\ handed s `sublist_of` map (fun a => response (fst a)) (queued s)
  /\ map fst (matched s) `prefix_of` handed s
  /\ map (fun d => fst (fst d)) (delivered s) `prefix_of` map fst (matched s)
  /\ (forall r req pk, (r, req, pk) ∈ accepted s ->
        buildBytes req = inl pk
        /\ expectResponse r = req_expectResponse req).
Proof.
  intros Hrun. destruct (Inv_run _ _ _ Hrun) as [HO HR HT HS HB].
  destruct (sender_order_prefix _ (ord_sender _ HR)) as [Hw Hh].
  destruct (receiver_order_prefix _ (ord_receiver _ HR)) as [Hm Hd].
  split_and!; try done.
  - transitivity (awaiting s); [by apply prefix_sublist|].
    transitivity (map (fun w => response (fst w)) (wire s)).
    + apply awaiting_sublist.
    + apply prefix_sublist. destruct Hw as [k Hk]. rewrite Hk, map_app.
      by eexists.
  - apply (built_accepted _ HB).
Qed.

End PipelineOrder.

Lemma pipeline_fifo_witness :
  wire (Example.after Example.two_calls)
    `prefix_of` queued (Example.after Example.two_calls)
  /\ handed (Example.after Example.two_calls)
     = [{| rp_correlation_id := 0; rp_chans := 0 |}].
Proof.
  assert (H : run Example.two_calls (connected Example.b0)
              = Some (Example.after Example.two_calls))
    by (vm_compute; reflexivity).
  split.
  - exact (proj1 (pipeline_fifo _ _ _ H)).
  - vm_compute. reflexivity.
Defined.

(** ** A request that does not serialize *)

Section SerializationError.

Context {codec : RequestCodec}.

Lemma insert_snoc_lookup {A : Type} (l : list A) (i : nat) (x y : A) :
  is_Some (l !! i) -> <[i:=x]> l ++ [y] = <[i:=x]> (l ++ [y]).
Proof.
  intros Hi. symmetry. apply insert_app_l. by apply lookup_lt_is_Some.
Qed.

(** A step in which the caller [tid] takes no part does not see what
    that caller is. *)
Lemma step_other_caller (l : label) (tid : nat) (c : caller) (s : state) :
  is_Some (callers s !! tid) ->
  label_caller l <> Some tid ->
  step l (set_caller tid c s) = set_caller tid c <$> step l s.
Proof.
  intros Ht Hl. unfold step. cbn [panicked set_caller set_callers].
  destruct (panicked s) eqn:Hp; [reflexivity|].
  destruct l; cbn [label_caller] in Hl.
  all: unfold caller_step, accept_step, packet_step, sender_step,
    write_step, handoff_step, receiver_step, read_header_step,
    read_body_step, deliver_step, fail_step, disconnect_step,
    select_closed_step, blocked_send, get_worker, close, is_closed.
  all: cbn [b closed conn_closes next_chans sender receiver callers
            set_caller set_callers].
  all: rewrite ?list_lookup_insert_ne by congruence.
  all: repeat case_match; try reflexivity.
  all: cbn [fmap option_fmap option_map]; f_equal.
  all: try match goal with w : wid |- _ => destruct w end.
  all: unfold panic, emit, set_worker, set_caller, set_callers, set_sender,
    set_receiver, set_closed, set_trace, set_panicked, set_conn_closes,
    set_next_chans, set_b; cbn; f_equal.
  all: first [by apply insert_snoc_lookup
             |apply list_insert_insert_ne; congruence].
Qed.

(** C10: when the request does not serialize, the step of line 168 to 171
    is enabled and the call returns from there: [sendRequest] with a nil
    promise and the error, [sendAndReceive] with [false] and the error.
    The counter, the channels, the socket, the two workers, the trace
    (hence what was accepted, written and handed over) and the other
    callers are what they were, and every step the caller takes no part
    in goes on as it would have, among them the calls that follow. *)
Theorem sendRequest_serialization_error
    (s : state) (tid : nat) (k : call_kind) (req : request request_body)
    (err : error) :
  panicked s = false ->
  callers s !! tid = Some (C168 k req) ->
  buildBytes {| req_correlation_id := correlation_id (b s);
                req_body := req_body req |} = inr err ->
  exists s',
    step (LCaller tid) s = Some s'
    /\ callers s' !! tid
       = Some match k with
              | SendOnly => SendRequestReturned None (Some err)
              | SendAndReceive _ => SendAndReceiveReturned false (Some err)
              end
    /\ (forall t, t <> tid -> callers s' !! t = callers s !! t)
    /\ length (callers s') = length (callers s)
    /\ b s' = b s /\ closed s' = closed s
    /\ conn_closes s' = conn_closes s /\ next_chans s' = next_chans s
    /\ sender s' = sender s /\ receiver s' = receiver s
    /\ panicked s' = false /\ trace s' = trace s
    /\ (forall l, label_caller l <> Some tid ->
          step l s' = set_caller tid (return_error k err) <$> step l s).
Proof.
  intros Hp Ht Hb. exists (set_caller tid (return_error k err) s).
  split_and!; try reflexivity.
  - unfold step, caller_step. rewrite Hp, Ht. cbn zeta. by rewrite Hb.
  - cbn. rewrite list_lookup_insert_eq by (by eapply lookup_lt_Some).
    by destruct k.
  - intros t Hne. cbn. by rewrite list_lookup_insert_ne.
  - cbn. apply length_insert.
  - done.
  - intros l Hl. apply step_other_caller; [by eexists|done].
Qed.

End SerializationError.

Lemma sendRequest_serialization_error_witness :
  exists s',
    step (LCaller 0) (Example.after Example.bad_call)
    = Some s'
    /\ callers s' !! 0%nat
       = Some (SendRequestReturned None (Some (CodecError 1)))
    /\ b s' = Example.b0 /\ trace s' = [].
Proof.
  destruct (sendRequest_serialization_error
              (Example.after Example.bad_call) 0 SendOnly
              (Example.req 99) (CodecError 1))
    as (s' & H1 & H2 & _ & _ & H3 & _ & _ & _ & _ & _ & _ & H4 & _);
    [reflexivity..|].
  exists s'. split_and!; [exact H1|exact H2|exact H3|exact H4].
Defined.

(** ** What [sendAndReceive] returns *)

Section SelectOutcomes.

Context {codec : RequestCodec}.

(** C5: a caller waiting in the select of [sendAndReceive] leaves it in
    one of three ways only.  The receiver hands it the body of a reply on
    [packets]: it returns [true] with what the response decoder returned,
    an error or none.  A worker in [forceDisconnect] hands it its error on
    [errors]: it returns [false] with that error.  One of the two
    channels is closed, as the sender does for a request that expects no
    response: it returns [false] and no error.  Each of the three is
    taken as soon as its partner is there. *)
Theorem sendAndReceive_outcomes
    (s : state) (tid : nat) (res : decoder) (p : responsePromise) :
  panicked s = false ->
  callers s !! tid = Some (C190 res p) ->
  (forall l s' c',
      step l s = Some s' -> callers s' !! tid = Some c' ->
      c' = C190 res p
      \/ (exists q buf,
            l = LDeliver tid /\ receiver s = Running (R161 q buf)
            /\ packets q = packets p
            /\ c' = SendAndReceiveReturned true (decode_response res buf))
      \/ (exists w q err,
            l = LFail w tid /\ get_worker w s = Some (FD72, q, err)
            /\ errors q = errors p
            /\ c' = SendAndReceiveReturned false (Some err))
      \/ (exists on_errors,
            l = LSelectClosed tid on_errors
            /\ (if on_errors then errors p else packets p) ∈ closed s
            /\ c' = SendAndReceiveReturned false None))
  /\ (forall q buf,
        receiver s = Running (R161 q buf) -> packets q = packets p ->
        packets q ∉ closed s ->
        exists s',
          step (LDeliver tid) s = Some s'
          /\ callers s' !! tid
             = Some (SendAndReceiveReturned true (decode_response res buf)))
  /\ (forall w q err,
        get_worker w s = Some (FD72, q, err) -> errors q = errors p ->
        errors q ∉ closed s ->
        exists s',
          step (LFail w tid) s = Some s'
          /\ callers s' !! tid
             = Some (SendAndReceiveReturned false (Some err)))
  /\ (forall on_errors : bool,
        (if on_errors then errors p else packets p) ∈ closed s ->
        exists s',
          step (LSelectClosed tid on_errors) s = Some s'
          /\ callers s' !! tid = Some (SendAndReceiveReturned false None)).
Proof.
  intros Hp Ht.
  assert (Hlt : (tid < length (callers s))%nat) by (by eapply lookup_lt_Some).
  split_and!.
  - intros l s' c' H Hc'. step_cases H; simpl_state.
    all: caller_lookup; simplify_eq.
    all: try (by left).
    all: try lia.
    all: right.
    + left.
      match goal with
      | |- context [Running (R161 ?q ?buf) = _] => exists q, buf
      end.
      split_and!; try done. unfold packets in *. congruence.
    + right; left.
      match goal with
      | H : sender _ = Disconnecting _ ?q ?e |- _ =>
          exists Sender, q, e; split_and!; try done;
          [unfold get_worker; by rewrite H|unfold errors in *; congruence]
      end.
    + right; left.
      match goal with
      | H : receiver _ = Disconnecting _ ?q ?e |- _ =>
          exists Receiver, q, e; split_and!; try done;
          [unfold get_worker; by rewrite H|unfold errors in *; congruence]
      end.
    + right; right. by exists false.
    + right; right. by exists true.
  - intros q buf Hr Hq Ho. eexists. split.
    + unfold step, deliver_step. rewrite Hp, Hr, Ht.
      unfold is_closed. rewrite bool_decide_eq_true_2 by done.
      rewrite bool_decide_eq_false_2 by done. cbn. reflexivity.
    + cbn. by rewrite list_lookup_insert_eq.
  - intros w q err Hw Hq Ho. eexists. split.
    + unfold step, fail_step. rewrite Hp, Hw, Ht.
      unfold is_closed. rewrite bool_decide_eq_true_2 by done.
      rewrite bool_decide_eq_false_2 by done. cbn. reflexivity.
    + destruct w; cbn; by rewrite list_lookup_insert_eq.
  - intros on_errors Hc. eexists. split.
    + unfold step, select_closed_step. rewrite Hp, Ht.
      unfold is_closed. rewrite bool_decide_eq_true_2 by done.
      destruct on_errors; cbn; reflexivity.
    + destruct on_errors; cbn; by rewrite list_lookup_insert_eq.
Qed.

End SelectOutcomes.

Lemma sendAndReceive_outcomes_witness :
  exists s',
    step (LDeliver 0) (Example.after (Example.one_call ++ Example.one_frame))
    = Some s'
    /\ callers s' !! 0%nat = Some (SendAndReceiveReturned true None).
Proof.
  destruct (sendAndReceive_outcomes
              (Example.after (Example.one_call ++ Example.one_frame)) 0 true
              {| rp_correlation_id := 0; rp_chans := 0 |})
    as (_ & H & _); [reflexivity..|].
  apply (H {| rp_correlation_id := 0; rp_chans := 0 |} [x2a]);
    [reflexivity|reflexivity|].
  intros Hin. vm_compute in Hin. inversion Hin.
Defined.

(** ** The teardown, run by the worker that fails first *)

Section FatalTeardown.

Context {codec : RequestCodec}.

(** C2, amended: a worker enters [forceDisconnect] for a promise and an
    error.  Whatever the other goroutines do from there, the socket is
    closed at most once and the promise gets at most one error; and
    whenever the worker has returned, the teardown is complete: it has
    delivered that error on the promise's [errors], once, the two channels
    of the promise and the two queues are closed, the socket was closed
    once, by this worker, and the connection takes no further work.  When
    the worker is the first to tear down ([b.requests] is open) and the
    caller of its promise waits in the select of [sendAndReceive], the
    teardown run from line 72 to line 79 with no other goroutine in
    between hands the error to that caller, closes the promise's [errors]
    and [packets], [b.requests], [b.responses] and the socket, in that
    order and without a panic, and the worker returns; all four channels
    were open before, the socket too, and from then on no envelope is
    accepted, no promise handed over, and no write or read succeeds. *)
Theorem forceDisconnect_once
    (b0 : broker) (ls : list label) (s : state) (w : wid)
    (p : responsePromise) (err : error) :
  run ls (connected b0) = Some s ->
  get_worker w s = Some (FD72, p, err) ->
  (forall ls' t,
      run ls' s = Some t ->
      (conn_closes t <= 1)%nat /\ (length (errors_delivered p t) <= 1)%nat
      /\ length (conn_closed_by t) = conn_closes t
      /\ (returned_worker w t ->
          torn_down_by w p err t /\ no_further_work t))
  /\ (forall (rc : responsePromise) (tid : nat) (res : decoder),
        panicked s = false -> Requests ∉ closed s ->
        callers s !! tid = Some (C190 res rc) -> errors rc = errors p ->
        exists s',
          run (teardown w tid) s = Some s'
          /\ trace s' = trace s ++ teardown_events w p err tid
          /\ callers s' !! tid
             = Some (SendAndReceiveReturned false (Some err))
          /\ errors_delivered p s = []
          /\ errors_delivered p s' = [(w, err, tid)]
          /\ all_open [errors p; packets p; Requests; Responses] s
          /\ closed s'
             = [Responses; Requests; packets p; errors p] ++ closed s
          /\ conn_closes s = 0%nat /\ conn_closes s' = 1%nat
          /\ panicked s' = false
          /\ returned_worker w s'
          /\ forall ls' s'',
               run ls' s' = Some s'' ->
               accepted s'' = accepted s' /\ handed s'' = handed s'
               /\ conn_closes s'' = 1%nat
               /\ errors_delivered p s'' = [(w, err, tid)]
               /\ (forall t, step (LAccept t) s'' = None)
               /\ step LHandoff s'' = None
               /\ step (LWrite None) s'' = None
               /\ (forall header,
                     step (LReadHeader (inl header)) s'' = None)
               /\ (forall buf, step (LReadBody (inl buf)) s'' = None)).
Proof.
  intros Hrun Hw. split.
  { intros ls' t Hrun'.
    apply (teardown_safe b0 ls ls' s t w FD72 p err); try done.
    apply teardown_done_0. }
  intros rc tid res Hp Hq Ht Hrc.
  destruct (Inv_run _ _ _ Hrun) as [HO _ HT _ _].
  destruct (teardown_first _ _ _ _ HO HT Hw Hq)
    as (He & Hk & Hr & Hc & Hd).
  destruct (teardown_run _ _ _ _ _ _ _ HO HT Hp Hw Hq Ht Hrc)
    as (s' & Hrun' & Htr & Hcs & Hcl & Hc' & Hp' & _ & _ & Hret).
  assert (Hd' : errors_delivered p s' = [(w, err, tid)]).
  { unfold errors_delivered in *.
    by rewrite Htr, omap_app, Hd, errors_delivered_teardown. }
  exists s'. split_and!; try done.
  - rewrite Hcs. apply list_lookup_insert_eq. by eapply lookup_lt_Some.
  - unfold returned_worker. destruct w; tauto.
  - intros ls' s'' Hrun''.
    eapply (after_teardown b0 (ls ++ teardown w tid)); try done.
    + by eapply run_app_Some.
    + rewrite Hcl; cbn [app]; rewrite !elem_of_cons; auto.
    + rewrite Hcl; cbn [app]; rewrite !elem_of_cons; auto.
Qed.

End FatalTeardown.

Lemma forceDisconnect_once_witness :
  exists s',
    run (teardown Sender 0) (Example.after Example.failed_write) = Some s'
    /\ conn_closes s' = 1%nat
    /\ errors_delivered {| rp_correlation_id := 0; rp_chans := 0 |} s'
       = [(Sender, NetError 32, 0%nat)].
Proof.
  assert (H : run Example.failed_write (connected Example.b0)
              = Some (Example.after Example.failed_write))
    by (vm_compute; reflexivity).
  destruct (forceDisconnect_once (codec := Example.codec) _ _ _ Sender
              {| rp_correlation_id := 0; rp_chans := 0 |}
              (NetError 32) H eq_refl) as [_ Hrun].
  destruct (Hrun {| rp_correlation_id := 0; rp_chans := 0 |} 0%nat true)
    as (s' & H1 & _ & _ & _ & H2 & _ & _ & _ & H3 & _);
    [reflexivity| |reflexivity|reflexivity|].
  - intros Hin. vm_compute in Hin. inversion Hin.
  - exists s'. split_and!; [exact H1|exact H3|exact H2].
Defined.

(** C2, as it is stated, fails.  After a plain [sendRequest] whose write
    fails, the sender is on line 72 of its first teardown and stays there
    on every run: the error is never delivered, nothing is closed, the
    socket stays open.  And when both workers are on line 72, each with
    its caller in the select, the two teardowns side by side end in a
    panic on line 76, with the socket and [b.responses] still open. *)
Lemma forceDisconnect_counterexample :
  (get_worker Sender (Example.after Example.unheard_failure)
   = Some (FD72, {| rp_correlation_id := 0; rp_chans := 0 |}, NetError 32)
   /\ panicked (Example.after Example.unheard_failure) = false
   /\ closed (Example.after Example.unheard_failure) = []
   /\ forall ls' s',
        run ls' (Example.after Example.unheard_failure) = Some s' ->
        errors_delivered {| rp_correlation_id := 0; rp_chans := 0 |} s' = []
        /\ closed s' = [] /\ conn_closes s' = 0%nat
        /\ ~ returned_worker Sender s')
  /\ (get_worker Sender (Example.after Example.both_on_line_72)
      = Some (FD72, {| rp_correlation_id := 1; rp_chans := 1 |},
              NetError 32)
      /\ get_worker Receiver (Example.after Example.both_on_line_72)
         = Some (FD72, {| rp_correlation_id := 0; rp_chans := 0 |},
                 NetError 54)
      /\ closed (Example.after Example.both_on_line_72) = []
      /\ callers (Example.after Example.both_on_line_72)
         = [C190 true {| rp_correlation_id := 0; rp_chans := 0 |};
            C190 true {| rp_correlation_id := 1; rp_chans := 1 |}]
      /\ exists s',
           run Example.racing_teardowns
             (Example.after Example.both_on_line_72) = Some s'
           /\ panicked s' = true /\ conn_closes s' = 0%nat
           /\ (Responses ∉ closed s')
           /\ ~ returned_worker Sender s'
           /\ ~ returned_worker Receiver s').
Proof.
  split.
  - split_and!; [reflexivity..|].
    intros ls' s' Hrun'.
    assert (Hrun : run Example.unheard_failure (connected Example.b0)
                   = Some (Example.after Example.unheard_failure))
      by (vm_compute; reflexivity).
    destruct (sender_hangs {| rp_correlation_id := 0; rp_chans := 0 |}
                (NetError 32) ls'
                (Example.after Example.unheard_failure) s')
      as (Hs & _ & Hc & Hn & _ & _ & He); try done.
    + by eapply Inv_run.
    + intros Hin. vm_compute in Hin. inversion Hin.
    + exists 0%nat, {| rp_correlation_id := 0; rp_chans := 0 |}, None.
      split; reflexivity.
    + split_and!; [exact He|exact Hc|exact Hn|].
      unfold returned_worker. rewrite Hs. discriminate.
  - split_and!; [reflexivity..|].
    exists (Example.after (Example.both_on_line_72
                           ++ Example.racing_teardowns)).
    split_and!; try (vm_compute; reflexivity).
    + intros Hin. apply list_elem_of_In in Hin. vm_compute in Hin.
      intuition discriminate.
    + vm_compute. discriminate.
    + vm_compute. discriminate.
Qed.

(** ** Which frames the receiver rejects *)

Section FrameLength.

Context {codec : RequestCodec}.

Lemma rejects_check (s : state) (p : responsePromise) (header : list byte) :
  panicked s = false -> receiver s = Running (R135 p) ->
  conn_closes s = 0%nat -> length header = 8%nat ->
  rejects s header
  <-> check_header p header = BadLength
      \/ check_header p header = BadCorrelation.
Proof.
  intros Hp Hr Hc Hl. unfold rejects.
  rewrite (read_header_enabled s p header Hp Hr Hc Hl). split.
  - intros (s' & q & [= <-] & Hq). cbn in Hq.
    destruct (check_header p header); [by left|by right|done].
  - intros H. do 2 eexists. split; [reflexivity|]. cbn.
    by destruct H as [-> | ->].
Qed.

(** C4, amended: the receiver, reading a header for the promise it
    holds, goes into the teardown with a [DecodingError] if and only if
    the length is at most 4, or greater than 131070, or the correlation
    id is not the promise's.  The test on the length alone fails exactly
    for the lengths at most 4 or greater than 131070.  With the
    promise's correlation id, the lengths 4 and 131071 are rejected and
    the lengths 5 and 131070 are not; a header that is not rejected takes
    the receiver to line 154, where the read of the body succeeds with
    length - 4 bytes and with no other number of bytes. *)
Theorem header_rejected_iff
    (s : state) (p : responsePromise) (header : list byte) :
  panicked s = false -> receiver s = Running (R135 p) ->
  conn_closes s = 0%nat -> length header = 8%nat ->
  (rejects s header
   <-> frame_length header <= 4 \/ 131070 < frame_length header
       \/ frame_correlation header <> rp_correlation_id p)
  /\ (check_header p header = BadLength
      <-> frame_length header <= 4 \/ 131070 < frame_length header)
  /\ (int32_range (rp_correlation_id p) ->
      rejects s (frame_header 4 (rp_correlation_id p))
      /\ rejects s (frame_header 131071 (rp_correlation_id p))
      /\ ~ rejects s (frame_header 5 (rp_correlation_id p))
      /\ ~ rejects s (frame_header 131070 (rp_correlation_id p)))
  /\ (~ rejects s header ->
      exists s1,
        step (LReadHeader (inl header)) s = Some s1
        /\ receiver s1 = Running (R155 p (frame_length header))
        /\ closed s1 = closed s /\ conn_closes s1 = 0%nat
        /\ forall buf,
             (Z.of_nat (length buf) = frame_length header - 4 ->
              exists s2,
                step (LReadBody (inl buf)) s1 = Some s2
                /\ receiver s2 = Running (R161 p buf))
             /\ (Z.of_nat (length buf) <> frame_length header - 4 ->
                 step (LReadBody (inl buf)) s1 = None)).
Proof.
  intros Hp Hr Hc Hl.
  assert (Hiff : forall h, length h = 8%nat ->
            rejects s h
            <-> frame_length h <= 4 \/ 131070 < frame_length h
                \/ frame_correlation h <> rp_correlation_id p).
  { intros h Hh. rewrite (rejects_check s p h Hp Hr Hc Hh).
    rewrite check_header_BadLength, check_header_BadCorrelation.
    change (2 * MaxUint16) with 131070. lia. }
  split_and!.
  - by apply Hiff.
  - apply check_header_BadLength.
  - intros Hid.
    assert (Hf : forall len, int32_range len ->
              rejects s (frame_header len (rp_correlation_id p))
              <-> len <= 4 \/ 131070 < len).
    { intros len Hlen. rewrite Hiff by reflexivity.
      rewrite frame_length_header, frame_correlation_header by done.
      tauto. }
    unfold int32_range in Hf. rewrite !Hf by lia. lia.
  - intros Hn. rewrite Hiff in Hn by done.
    assert (Hok : check_header p header = HeaderOk (frame_length header)).
    { apply check_header_HeaderOk. change (2 * MaxUint16) with 131070.
      lia. }
    eexists. split; [by apply read_header_enabled|].
    rewrite Hok. cbn. split_and!; try done.
    intros buf. unfold step, read_body_step. cbn. rewrite Hp, Hc. split.
    + intros ->. rewrite Z.eqb_refl. cbn. by eexists.
    + intros Hne. by rewrite (proj2 (Z.eqb_neq _ _) Hne).
Qed.

End FrameLength.

(** C4, as it is stated, fails: a header with the length 5 is rejected
    when its correlation id, here 1, is not the one of the promise, here
    0. *)
Lemma header_rejected_counterexample :
  ~ (rejects (Example.after Example.one_call) (frame_header 5 1)
     <-> frame_length (frame_header 5 1) <= 4
         \/ 131070 < frame_length (frame_header 5 1)).
Proof.
  intros [H _].
  assert (Hr : rejects (Example.after Example.one_call) (frame_header 5 1)).
  { exists (Example.after (Example.one_call ++ Example.other_frame)),
      {| rp_correlation_id := 0; rp_chans := 0 |}.
    split; vm_compute; reflexivity. }
  apply H in Hr. vm_compute in Hr.
  destruct Hr as [Hr|Hr]; [by apply Hr|discriminate Hr].
Qed.

Lemma header_rejected_iff_witness :
  rejects (Example.after Example.one_call) (frame_header 4 0)
  /\ ~ rejects (Example.after Example.one_call) (frame_header 5 0).
Proof.
  destruct (header_rejected_iff (Example.after Example.one_call)
              {| rp_correlation_id := 0; rp_chans := 0 |}
              (frame_header 5 0))
    as (_ & _ & H & _); [reflexivity..|].
  destruct H as (H4 & _ & H5 & _);
    [unfold int32_range; cbn [rp_correlation_id]; lia|].
  split; [exact H4|exact H5].
Defined.

(** ** A reply that is not the one awaited *)

Section CorrelationMismatch.

Context {codec : RequestCodec}.

(** C3, amended: the receiver reads, from the open socket, a header whose
    length passes the test, for the promise [p] it holds.  When the
    correlation id is the one of [p], the receiver goes on to read the
    body: nothing is closed and no error is delivered at this step.  When
    it is not, the receiver enters [forceDisconnect] with a
    [DecodingError].  Whatever the other goroutines do from there,
    whenever the receiver has returned its teardown is complete: that
    error was delivered on [p], once, the channels of [p] and the two
    queues are closed, the socket was closed once, by the receiver, and
    the connection takes no further work.  When the sender has not torn
    the connection down ([b.requests] is open) and the caller of [p]
    waits in the select of [sendAndReceive], the teardown run with no
    other goroutine in between hands the error to that caller, closes the
    socket, and the receiver returns; on every run from there the socket
    stays closed once and the promise has that one error.  On every run
    from the read on, whatever the schedule, the socket is closed at most
    once, by one worker, and a promise gets at most one error. *)
Theorem correlation_mismatch
    (b0 : broker) (ls : list label) (s : state) (p : responsePromise)
    (header : list byte) :
  run ls (connected b0) = Some s -> panicked s = false ->
  receiver s = Running (R135 p) -> conn_closes s = 0%nat ->
  length header = 8%nat ->
  4 < frame_length header <= 2 * MaxUint16 ->
  (forall ls' t q,
      run ls' s = Some t ->
      (conn_closes t <= 1)%nat
      /\ length (conn_closed_by t) = conn_closes t
      /\ (length (errors_delivered q t) <= 1)%nat)
  /\ exists s1,
    step (LReadHeader (inl header)) s = Some s1
    /\ trace s1 = trace s ++ [EvHeader p header]
    /\ closed s1 = closed s /\ conn_closes s1 = 0%nat
    /\ callers s1 = callers s /\ sender s1 = sender s
    /\ (frame_correlation header = rp_correlation_id p ->
        receiver s1 = Running (R155 p (frame_length header)))
    /\ (frame_correlation header <> rp_correlation_id p ->
        receiver s1 = Disconnecting FD72 p (DecodingError EmptyString)
        /\ (forall ls' t,
              run ls' s1 = Some t -> returned_worker Receiver t ->
              torn_down_by Receiver p (DecodingError EmptyString) t
              /\ no_further_work t)
        /\ forall tid res rc,
             Requests ∉ closed s ->
             callers s !! tid = Some (C190 res rc) ->
             errors rc = errors p ->
             exists s2,
               run (teardown Receiver tid) s1 = Some s2
               /\ trace s2
                  = trace s1
                    ++ teardown_events Receiver p
                         (DecodingError EmptyString) tid
               /\ callers s2 !! tid
                  = Some (SendAndReceiveReturned false
                            (Some (DecodingError EmptyString)))
               /\ errors_delivered p s2
                  = [(Receiver, DecodingError EmptyString, tid)]
               /\ conn_closes s2 = 1%nat /\ conn_closed_by s2 = [Receiver]
               /\ receiver s2 = Returned /\ panicked s2 = false
               /\ forall ls' s3,
                    run ls' s2 = Some s3 ->
                    conn_closes s3 = 1%nat
                    /\ conn_closed_by s3 = [Receiver]
                    /\ errors_delivered p s3
                       = [(Receiver, DecodingError EmptyString, tid)]).
Proof.
  intros Hrun Hp Hr Hc Hl Hlen. split.
  { intros ls' t q Hrun'.
    pose proof (inv_tear _ (Inv_run _ _ _
                              (run_app_Some _ _ _ _ _ Hrun Hrun'))) as HT.
    destruct (Tear_at_most_once t q HT). split_and!; try done.
    apply (tear_closed_by _ HT). }
  pose proof (read_header_enabled s p header Hp Hr Hc Hl) as Hstep.
  eexists. split; [exact Hstep|].
  split_and!; try done.
  - intros Heq.
    assert (Hok : check_header p header = HeaderOk (frame_length header))
      by (by apply check_header_HeaderOk).
    cbn. by rewrite Hok.
  - intros Hne.
    assert (Hbad : check_header p header = BadCorrelation)
      by (by apply check_header_BadCorrelation).
    rewrite Hbad in *. split; [done|].
    set (s1 := emit (EvHeader p header)
                 (set_receiver
                    (Disconnecting FD72 p (DecodingError EmptyString)) s))
      in *.
    assert (Hrun1 : run (ls ++ [LReadHeader (inl header)]) (connected b0)
                    = Some s1).
    { eapply run_app_Some; [exact Hrun|]. cbn. by rewrite Hstep. }
    split.
    { intros ls' t Hrun' Hret.
      by apply (teardown_safe b0 _ ls' s1 t Receiver FD72 p
                  (DecodingError EmptyString) Hrun1 eq_refl
                  (teardown_done_0 _ _ _ _) Hrun'). }
    intros tid res rc Hq Ht Hrc.
    destruct (Inv_run _ _ _ Hrun1) as [HO _ HT _ _].
    destruct (teardown_first s1 Receiver p (DecodingError EmptyString)
                HO HT eq_refl Hq) as (_ & _ & _ & _ & Hd).
    destruct (teardown_run s1 Receiver p rc (DecodingError EmptyString)
                tid res HO HT Hp eq_refl Hq Ht Hrc)
      as (s2 & Hrun2 & Htr & Hcs & Hcl & Hc2 & Hp2 & _ & _ & Hret & _).
    assert (Hd2 : errors_delivered p s2
                  = [(Receiver, DecodingError EmptyString, tid)]).
    { unfold errors_delivered in *.
      by rewrite Htr, omap_app, Hd, errors_delivered_teardown. }
    assert (Hrun12 : run ((ls ++ [LReadHeader (inl header)])
                          ++ teardown Receiver tid) (connected b0)
                     = Some s2) by (by eapply run_app_Some).
    assert (Hby : forall s3 k, run k (connected b0) = Some s3 ->
                    (exists es, trace s3 = trace s2 ++ es) ->
                    conn_closes s3 = 1%nat ->
                    conn_closed_by s3 = [Receiver]).
    { intros s3 k Hk [es Hes] Hc3.
      pose proof (tear_closed_by _ (inv_tear _ (Inv_run _ _ _ Hk))) as Hn.
      rewrite Hc3 in Hn. unfold conn_closed_by in *.
      rewrite Hes, Htr, !omap_app in *.
      change (omap ev_conn_close (teardown_events _ _ _ _))
        with [Receiver] in *.
      rewrite !length_app in Hn. cbn [length] in Hn.
      destruct (omap ev_conn_close (trace s1)); [|cbn in Hn; lia].
      destruct (omap ev_conn_close es); [done|cbn in Hn; lia]. }
    exists s2. split_and!; try done.
    + rewrite Hcs. apply list_lookup_insert_eq. by eapply lookup_lt_Some.
    + apply (Hby _ _ Hrun12); [|done]. exists []. by rewrite app_nil_r.
    + intros ls' s3 Hrun3.
      destruct (after_teardown b0 _ ls' s2 s3 p
                  (Receiver, DecodingError EmptyString, tid) Hrun12 Hrun3)
        as (_ & _ & Hc3 & Hd3 & _); try done.
      * rewrite Hcl; cbn [app]; rewrite !elem_of_cons; auto.
      * rewrite Hcl; cbn [app]; rewrite !elem_of_cons; auto.
      * split_and!; try done.
        apply (Hby _ _ (run_app_Some _ _ _ _ _ Hrun12 Hrun3)); [|done].
        by eapply run_trace.
Qed.

End CorrelationMismatch.

Lemma correlation_mismatch_witness :
  exists s1,
    step (LReadHeader (inl (frame_header 5 1)))
      (Example.after Example.one_call) = Some s1
    /\ receiver s1
       = Disconnecting FD72 {| rp_correlation_id := 0; rp_chans := 0 |}
           (DecodingError EmptyString).
Proof.
  assert (H : run Example.one_call (connected Example.b0)
              = Some (Example.after Example.one_call))
    by (vm_compute; reflexivity).
  destruct (correlation_mismatch Example.b0 Example.one_call _
              {| rp_correlation_id := 0; rp_chans := 0 |}
              (frame_header 5 1) H)
    as (_ & s1 & H1 & _ & _ & _ & _ & _ & _ & H2);
    [reflexivity|reflexivity|reflexivity|reflexivity
    |vm_compute; split; [reflexivity|discriminate]|].
  exists s1. split; [exact H1|].
  apply H2. vm_compute. discriminate.
Defined.

(** C3, as it is stated, fails.  After a plain [sendRequest] nobody
    listens on the promise: the receiver reads a header of length 5 with
    the correlation id 1 for the promise with the id 0, enters
    [forceDisconnect] and stays on line 72 on every run; the
    [DecodingError] is never delivered and the receiver closes nothing.
    And when the sender is on line 72 for a failed write, the caller of
    each promise in its select, the same header starts a second teardown;
    side by side the two end in a panic on line 76: the error was
    delivered, the socket was never closed. *)
Lemma correlation_mismatch_counterexample :
  (receiver (Example.after Example.abandoned_call)
   = Running (R135 {| rp_correlation_id := 0; rp_chans := 0 |})
   /\ conn_closes (Example.after Example.abandoned_call) = 0%nat
   /\ 4 < frame_length (frame_header 5 1) <= 2 * MaxUint16
   /\ frame_correlation (frame_header 5 1) <> 0
   /\ step (LReadHeader (inl (frame_header 5 1)))
        (Example.after Example.abandoned_call)
      = Some (Example.after (Example.abandoned_call ++ Example.other_frame))
   /\ forall ls' s',
        run ls' (Example.after (Example.abandoned_call
                                ++ Example.other_frame)) = Some s' ->
        errors_delivered {| rp_correlation_id := 0; rp_chans := 0 |} s' = []
        /\ receiver s'
           = Disconnecting FD72 {| rp_correlation_id := 0; rp_chans := 0 |}
               (DecodingError EmptyString))
  /\ (receiver (Example.after Example.second_write_fails)
      = Running (R135 {| rp_correlation_id := 0; rp_chans := 0 |})
      /\ conn_closes (Example.after Example.second_write_fails) = 0%nat
      /\ callers (Example.after Example.second_write_fails)
         = [C190 true {| rp_correlation_id := 0; rp_chans := 0 |};
            C190 true {| rp_correlation_id := 1; rp_chans := 1 |}]
      /\ step (LReadHeader (inl (frame_header 5 1)))
           (Example.after Example.second_write_fails)
         = Some (Example.after Example.mismatch_and_write_failure)
      /\ receiver (Example.after Example.mismatch_and_write_failure)
         = Disconnecting FD72 {| rp_correlation_id := 0; rp_chans := 0 |}
             (DecodingError EmptyString)
      /\ exists s',
           run Example.racing_teardowns
             (Example.after Example.mismatch_and_write_failure) = Some s'
           /\ errors_delivered {| rp_correlation_id := 0; rp_chans := 0 |} s'
              = [(Receiver, DecodingError EmptyString, 0%nat)]
           /\ panicked s' = true /\ conn_closes s' = 0%nat
           /\ conn_closed_by s' = []
           /\ receiver s'
              = Disconnecting FD76
                  {| rp_correlation_id := 0; rp_chans := 0 |}
                  (DecodingError EmptyString)).
Proof.
  split.
  - split_and!; [reflexivity|reflexivity|vm_compute; reflexivity
                |vm_compute; discriminate|vm_compute; discriminate
                |vm_compute; reflexivity|].
    intros ls' s' Hrun'.
    assert (Hrun : run (Example.abandoned_call ++ Example.other_frame)
                     (connected Example.b0)
                   = Some (Example.after (Example.abandoned_call
                                          ++ Example.other_frame)))
      by (vm_compute; reflexivity).
    destruct (abandoned_waits Receiver
                {| rp_correlation_id := 0; rp_chans := 0 |}
                (DecodingError EmptyString) ls'
                (Example.after (Example.abandoned_call
                                ++ Example.other_frame)) s')
      as (_ & Hw & _ & He); try done.
    + by eapply Inv_run.
    + exists 0%nat, {| rp_correlation_id := 0; rp_chans := 0 |}, None.
      split; reflexivity.
    + split; [exact He|].
      unfold get_worker in Hw. destruct (receiver s'); congruence.
  - split_and!; [reflexivity|reflexivity|reflexivity
                |vm_compute; reflexivity|reflexivity|].
    exists (Example.after (Example.mismatch_and_write_failure
                           ++ Example.racing_teardowns)).
    split_and!; vm_compute; reflexivity.
Qed.

(** ** A request that expects no response *)

Section NoReply.

Context {codec : RequestCodec}.

Lemma omap_nil_iff {A B : Type} (f : A -> option B) (l : list A) :
  omap f l = [] <-> forall x, x ∈ l -> f x = None.
Proof.
  induction l as [|a l IH]; cbn.
  - split; [intros _ x Hx; by apply elem_of_nil in Hx|done].
  - destruct (f a) eqn:E; split; try done.
    + intros H. specialize (H a (list_elem_of_here _ _)). congruence.
    + intros H x Hx. apply elem_of_cons in Hx as [->|Hx]; [done|].
      by apply IH.
    + intros H. apply IH. intros x Hx. apply H. by right.
Qed.

Lemma filter_none {A : Type} (P : A -> Prop) `{!forall x, Decision (P x)}
    (l : list A) :
  (forall y, y ∈ l -> ~ P y) -> filter P l = [].
Proof.
  induction l as [|a l IH]; intros Hl; [done|].
  rewrite filter_cons_False by (apply Hl; by left).
  apply IH. intros y Hy. apply Hl. by right.
Qed.

Lemma elem_of_map {A B : Type} (f : A -> B) (l : list A) (x : A) :
  x ∈ l -> f x ∈ map f l.
Proof.
  intros Hx. apply list_elem_of_In, in_map. by apply list_elem_of_In.
Qed.

Lemma filter_NoDup_singleton {A : Type} (f : A -> nat) (l : list A)
    (x : A) :
  NoDup (map f l) -> x ∈ l -> filter (fun y => f y = f x) l = [x].
Proof.
  induction l as [|a l IH]; intros Hnd Hx.
  - by apply elem_of_nil in Hx.
  - cbn in Hnd. apply NoDup_cons in Hnd as [Ha Hnd].
    apply elem_of_cons in Hx as [->|Hx].
    + rewrite filter_cons_True by done. f_equal.
      apply filter_none. intros y Hy Heq.
      apply Ha. rewrite <- Heq. by apply elem_of_map.
    + rewrite filter_cons_False; [by apply IH|].
      intros Heq. apply Ha. rewrite Heq. by apply elem_of_map.
Qed.

(** An envelope is written at most once. *)
Lemma written_chans_NoDup (s : state) :
  Inv s -> NoDup (map written_chans (written s)).
Proof.
  intros [HO HR _ _ _].
  destruct (sender_order_prefix _ (ord_sender _ HR)) as [[k Hk] _].
  pose proof (own_accepted_NoDup _ HO) as Hnd.
  assert (E : map accepted_chans (accepted s)
              = map (fun x => rp_chans (response (fst x))) (queued s)).
  { unfold queued. rewrite map_map. reflexivity. }
  rewrite E, Hk, map_app in Hnd. apply NoDup_app in Hnd as [Hnd _].
  unfold wire in Hnd. by rewrite map_map in Hnd.
Qed.

(** What was never done for an envelope written in full that expects no
    response. *)
Lemma no_reply_served (s : state) (r : requestToSend) (buf : goslice) :
  Inv s -> (r, buf, None) ∈ written s -> expectResponse r = false ->
  writes_of (rp_chans (response r)) s = [(r, buf, None)]
  /\ (forall q, q ∈ handed s -> rp_chans q <> rp_chans (response r))
  /\ (forall q, q ∈ map fst (matched s) ->
        rp_chans q <> rp_chans (response r))
  /\ (forall q, q ∈ map (fun d => fst (fst d)) (delivered s) ->
        rp_chans q <> rp_chans (response r))
  /\ errors_delivered (response r) s = [].
Proof.
  intros HI Hin He. pose proof (written_chans_NoDup s HI) as Hnd.
  destruct HI as [HO HR HT HS HB].
  destruct (sender_order_prefix _ (ord_sender _ HR)) as [_ [k1 Hk1]].
  destruct (receiver_order_prefix _ (ord_receiver _ HR))
    as [[k2 Hk2] [k3 Hk3]].
  assert (Hw : writes_of (rp_chans (response r)) s = [(r, buf, None)])
    by (by apply (filter_NoDup_singleton written_chans (written s)
                    (r, buf, None))).
  assert (Hone : forall x, x ∈ written s ->
            written_chans x = rp_chans (response r) -> x = (r, buf, None)).
  { intros x Hx Hc.
    assert (Hf : x ∈ writes_of (rp_chans (response r)) s)
      by (by apply list_elem_of_filter).
    rewrite Hw in Hf. by apply list_elem_of_singleton in Hf. }
  assert (Hh : forall q, q ∈ handed s ->
            rp_chans q <> rp_chans (response r)).
  { intros q Hq Hc.
    assert (Ha : q ∈ awaiting s)
      by (rewrite Hk1; apply elem_of_app; by left).
    unfold awaiting in Ha. apply list_elem_of_omap in Ha as (x & Hx & Hxq).
    unfold ev_await in Hxq. destruct x as [[r' buf'] res'].
    cbn in Hxq. destruct res'; [done|].
    destruct (expectResponse r') eqn:E; [|done]. simplify_eq.
    specialize (Hone _ Hx Hc). congruence. }
  assert (Hm : forall q, q ∈ map fst (matched s) ->
            rp_chans q <> rp_chans (response r)).
  { intros q Hq. apply Hh. rewrite Hk2. apply elem_of_app. by left. }
  split_and!; try done.
  - intros q Hq. apply Hm. rewrite Hk3. apply elem_of_app. by left.
  - apply omap_nil_iff. intros e Hin'.
    pose proof (srv_errors _ HS e Hin') as Hsrc.
    destruct e as [| | | | |w q err tid| | |]; try done. cbn.
    case_bool_decide as Hq; [exfalso|done].
    unfold errors in Hq. simplify_eq.
    destruct w; cbn in Hsrc.
    + destruct Hsrc as (r' & buf' & Hx & <-).
      assert (Hx' := Hone _ Hx Hq). congruence.
    + by apply (Hh _ Hsrc).
Qed.

(** C6: the sender holds the bytes of an envelope that expects no
    response, and the socket is open.  The write, line 126 and line 127
    can run at once: the bytes are written, [packets] and [errors] of the
    promise are closed, both were open, and the sender is back at the
    head of its loop; nothing was sent on either channel and no caller
    has moved.  On every run from there this is the only write for the
    envelope, its promise is never handed to the receiver, no header is
    read and no reply delivered for it, and no error is delivered on
    it. *)
Theorem no_reply_request
    (b0 : broker) (ls : list label) (s : state) (r : requestToSend)
    (buf : goslice) :
  run ls (connected b0) = Some s -> panicked s = false ->
  sender s = Running (S118 r buf) -> expectResponse r = false ->
  conn_closes s = 0%nat ->
  exists s',
    run no_reply_turn s = Some s'
    /\ trace s'
       = trace s ++ [EvWrite r buf None;
                     EvClose Sender (packets (response r));
                     EvClose Sender (errors (response r))]
    /\ all_open [packets (response r); errors (response r)] s
    /\ closed s'
       = errors (response r) :: packets (response r) :: closed s
    /\ sender s' = Running S116 /\ receiver s' = receiver s
    /\ callers s' = callers s /\ panicked s' = false
    /\ writes_of (rp_chans (response r)) s = []
    /\ forall ls' s'',
         run ls' s' = Some s'' ->
         writes_of (rp_chans (response r)) s'' = [(r, buf, None)]
         /\ (forall q, q ∈ handed s'' ->
               rp_chans q <> rp_chans (response r))
         /\ (forall q, q ∈ map fst (matched s'') ->
               rp_chans q <> rp_chans (response r))
         /\ (forall q, q ∈ map (fun d => fst (fst d)) (delivered s'') ->
               rp_chans q <> rp_chans (response r))
         /\ errors_delivered (response r) s'' = [].
Proof.
  intros Hrun Hp Hs He Hc.
  destruct (Inv_run _ _ _ Hrun) as [HO HR HT HS HB].
  pose proof (own_sender_open _ HO) as Hopen. rewrite Hs in Hopen.
  cbn in Hopen. destruct Hopen as (Hk & Hr & _).
  assert (Hturn : exists s',
            run no_reply_turn s = Some s'
            /\ trace s'
               = trace s ++ [EvWrite r buf None;
                             EvClose Sender (packets (response r));
                             EvClose Sender (errors (response r))]
            /\ closed s'
               = errors (response r) :: packets (response r) :: closed s
            /\ sender s' = Running S116 /\ receiver s' = receiver s
            /\ callers s' = callers s /\ panicked s' = false).
  { eexists. split.
    - unfold no_reply_turn. cbn [run].
      unfold step at 1, write_step. rewrite Hp, Hs, Hc, He. cbn [Nat.eqb].
      repeat (unfold step at 1, sender_step; simpl_state; rewrite ?Hp;
              rewrite ?close_open
                by (simpl_state; unfold packets, errors in *;
                    rewrite ?elem_of_cons; intuition congruence)).
      reflexivity.
    - simpl_state. rewrite <- !app_assoc. split_and!; done. }
  destruct Hturn as (s' & Hrun' & Htr & Hcl & Hs' & Hr' & Hcs' & Hp').
  exists s'.
  assert (Hin : forall s'' es,
            trace s'' = trace s' ++ es -> (r, buf, None) ∈ written s'').
  { intros s'' es Hes. unfold written.
    rewrite Hes, Htr, !omap_app. cbn. apply elem_of_app. left.
    apply elem_of_app. right. by left. }
  split_and!; [done|done|cbn; tauto|done|done|done|done|done| |].
  - pose proof (no_reply_served _ r buf
                  (Inv_run _ _ _ (run_app_Some _ _ _ _ _ Hrun Hrun')))
      as (Hw & _); [apply (Hin _ []); by rewrite app_nil_r|done|].
    unfold writes_of, written in *. rewrite Htr in Hw.
    rewrite omap_app, filter_app in Hw. cbn in Hw.
    rewrite decide_True in Hw by done.
    destruct (filter _ (omap ev_write (trace s))); [done|].
    apply (f_equal length) in Hw. rewrite length_app in Hw.
    cbn in Hw. lia.
  - intros ls' s'' Hrun''. destruct (run_trace _ _ _ Hrun'') as [es Hes].
    apply (no_reply_served _ r buf); [|by eapply Hin|done].
    apply (Inv_run b0 ((ls ++ no_reply_turn) ++ ls')).
    eapply run_app_Some; [|exact Hrun'']. by eapply run_app_Some.
Qed.

End NoReply.

Lemma no_reply_request_witness :
  exists s',
    run no_reply_turn (Example.after Example.no_reply_call) = Some s'
    /\ sender s' = Running S116
    /\ closed s' = [Errors 0; Packets 0].
Proof.
  assert (H : run Example.no_reply_call (connected Example.b0)
              = Some (Example.after Example.no_reply_call))
    by (vm_compute; reflexivity).
  destruct (no_reply_request Example.b0 Example.no_reply_call _
              {| response := {| rp_correlation_id := 0; rp_chans := 0 |};
                 expectResponse := false |}
              (Some [x00]) H)
    as (s' & H1 & _ & _ & H2 & H3 & _);
    [reflexivity|reflexivity|reflexivity|reflexivity|].
  exists s'. split_and!; [exact H1|exact H3|exact H2].
Defined.

(** ** Correlation ids of sequential calls *)

Section SequentialIds.

Context {codec : RequestCodec}.

Lemma wrap32_near (x y : Z) :
  - 2 ^ 32 < x - y < 2 ^ 32 -> wrap32 x = wrap32 y -> x = y.
Proof.
  unfold wrap32.
  change (2 ^ 31) with 2147483648. change (2 ^ 32) with 4294967296.
  intros Hxy H. Z.div_mod_to_equations. lia.
Qed.

Lemma ids_from_lookup (c0 : Z) (n i : nat) (x : Z) :
  ids_from c0 n !! i = Some x
  <-> (i < n)%nat /\ x = wrap32 (c0 + Z.of_nat i).
Proof.
  unfold ids_from.
  change (map (fun i => wrap32 (c0 + Z.of_nat i)) (seq 0 n))
    with ((fun i => wrap32 (c0 + Z.of_nat i)) <$> seq 0 n).
  rewrite list_lookup_fmap. split.
  - intros H. apply fmap_Some in H as (k & Hk & ->).
    apply lookup_seq in Hk as [-> Hlt]. done.
  - intros [Hlt ->]. by rewrite lookup_seq_lt.
Qed.

Lemma ids_from_NoDup (c0 : Z) (n : nat) :
  Z.of_nat n <= 2 ^ 32 -> NoDup (ids_from c0 n).
Proof.
  intros Hn. apply NoDup_alt. intros i j x Hi Hj.
  apply ids_from_lookup in Hi as [Hi ->].
  apply ids_from_lookup in Hj as [Hj Heq].
  apply wrap32_near in Heq; lia.
Qed.

Lemma accepted_ids_lookup (c0 : Z) (s : state) (i : nat)
    (a : requestToSend * request request_body * goslice) :
  Counter c0 s -> accepted s !! i = Some a ->
  accepted_ids a = (wrap32 (c0 + Z.of_nat i), wrap32 (c0 + Z.of_nat i)).
Proof.
  intros HC Ha. pose proof (cnt_accepted _ _ HC) as E.
  assert (Hi : (accepted_ids <$> accepted s) !! i = Some (accepted_ids a))
    by (by rewrite list_lookup_fmap, Ha).
  change (accepted_ids <$> accepted s)
    with (map accepted_ids (accepted s)) in Hi.
  rewrite E in Hi.
  change (map (fun c => (c, c)) (ids_from c0 (length (accepted s))))
    with ((fun c : Z => (c, c)) <$> ids_from c0 (length (accepted s)))
    in Hi.
  rewrite list_lookup_fmap in Hi.
  apply fmap_Some in Hi as (x & Hx & ->).
  by apply ids_from_lookup in Hx as [_ ->].
Qed.

(** C9: the calls of [sendRequest] run one after the other, on a
    connection whose counter started at [c0].  The envelopes accepted so
    far carry, as the correlation id of the promise and as that of the
    serialized request, the values [c0], [c0 + 1], ... in the order of
    acceptance, wrapping as an int32.  A caller between line 168 and line
    178 has put the counter's present value in its request and in its
    promise, and line 178, its load and its store, adds exactly one to the
    counter,
    which therefore is [c0] plus the number of accepted envelopes,
    less one while the caller of the last is before line 178.  As long as
    the counter has not wrapped, the ids grow by one from an envelope to
    the next, so they are strictly increasing; and no two of the first
    2^32 envelopes have the same id. *)
Theorem correlation_ids_sequential
    (b0 : broker) (ls : list label) (s : state) :
  int32_range (correlation_id b0) ->
  run_seq ls (connected b0) = Some s ->
  map accepted_ids (accepted s)
  = map (fun c => (c, c))
      (ids_from (correlation_id b0) (length (accepted s)))
  /\ correlation_id (b s)
     = wrap32 (correlation_id b0 + Z.of_nat (length (accepted s))
               - Z.of_nat (count_if before_increment (callers s)))
  /\ (count_if before_increment (callers s) <= 1)%nat
  /\ (forall tid c,
        callers s !! tid = Some c -> caller_ids (correlation_id (b s)) c)
  /\ (forall tid k req r,
        panicked s = false -> callers s !! tid = Some (C178 k req r) ->
        exists s',
          run [LCaller tid; LCaller tid] s = Some s'
          /\ correlation_id (b s') = wrap32 (correlation_id (b s) + 1)
          /\ callers s' !! tid = Some (return_promise k (response r)))
  /\ (correlation_id b0 + Z.of_nat (length (accepted s)) <= 2 ^ 31 ->
      forall i j a a',
        (i < j)%nat ->
        accepted s !! i = Some a -> accepted s !! j = Some a' ->
        fst (accepted_ids a') = fst (accepted_ids a) + Z.of_nat (j - i)
        /\ fst (accepted_ids a) < fst (accepted_ids a'))
  /\ (Z.of_nat (length (accepted s)) <= 2 ^ 32 ->
      NoDup (map (fun a => fst (accepted_ids a)) (accepted s))).
Proof.
  intros Hc0 Hrun. pose proof (Counter_run _ _ _ Hc0 Hrun) as HC.
  destruct (run_seq_sequential _ _ _ Hrun) as [_ Hseq].
  split_and!.
  - apply (cnt_accepted _ _ HC).
  - apply (cnt_value _ _ HC).
  - unfold sequential in Hseq. apply Nat.leb_le in Hseq.
    pose proof (count_if_less before_increment in_sendRequest) as Hle.
    assert (count_if before_increment (callers s)
            <= count_if in_sendRequest (callers s))%nat; [|lia].
    clear. induction (callers s) as [|c cs IH]; cbn; [done|].
    destruct c; cbn; lia.
  - apply (cnt_callers _ _ HC).
  - intros tid k req r Hp Ht. eexists. split_and!.
    + by apply increment_run.
    + reflexivity.
    + cbn. apply list_lookup_insert_eq. rewrite length_insert.
      by eapply lookup_lt_Some.
  - intros Hn i j a a' Hij Ha Ha'.
    rewrite (accepted_ids_lookup _ _ _ _ HC Ha).
    rewrite (accepted_ids_lookup _ _ _ _ HC Ha'). cbn [fst].
    apply lookup_lt_Some in Ha'. unfold int32_range in Hc0.
    rewrite !wrap32_id by (unfold int32_range; lia). lia.
  - intros Hn.
    assert (E : map (fun a => fst (accepted_ids a)) (accepted s)
                = ids_from (correlation_id b0) (length (accepted s))).
    { rewrite <- (map_map accepted_ids fst), (cnt_accepted _ _ HC).
      rewrite map_map. cbn [fst]. apply map_id. }
    rewrite E. by apply ids_from_NoDup.
Qed.

End SequentialIds.

Lemma correlation_ids_sequential_witness :
  map accepted_ids (Example.accepted_after Example.two_calls)
  = [(0, 0); (1, 1)].
Proof.
  assert (H : run_seq Example.two_calls (connected Example.b0)
              = Some (Example.after Example.two_calls))
    by (vm_compute; reflexivity).
  destruct (correlation_ids_sequential Example.b0 Example.two_calls _
              ltac:(unfold int32_range; cbn; lia) H) as (H1 & _).
  exact H1.
Defined.

(** ** [newBroker], and what [decode] leaves when it fails *)

Section DescriptorEdges.

Context {net : Network} {pe : packetEncoder} {pd : packetDecoder}.

(** X1: [newBroker] does not panic; it returns a broker exactly when it returns
    no error, and the broker is then the one it built: id -1, the host, the
    port, and a counter at 0.  An error is one of the network, from the
    resolver first. *)
Theorem newBroker_result (h : string) (p : Z) :
  snd (newBroker h p) <> Panic
  /\ (fst (newBroker h p) = None <-> snd (newBroker h p) <> Return None)
  /\ (forall b, fst (newBroker h p) = Some b ->
        b = {| id := -1; host := Some h; port := p; correlation_id := 0 |}
        /\ connect b = Return None)
  /\ (forall e, ResolveIPAddr h = inl e ->
        newBroker h p = (None, Return (Some (NetError e))))
  /\ (forall e, snd (newBroker h p) = Return (Some e) ->
        exists n, e = NetError n).
Proof.
  unfold newBroker, connect. cbn [host port].
  destruct (ResolveIPAddr h) as [e0|addr] eqn:E;
    [|destruct (DialTCP addr p) as [e0|] eqn:E'].
  - cbn [fst snd]. split_and!; try done.
    + intros e [= ->]. done.
    + intros e [= <-]. by eexists.
  - cbn [fst snd]. split_and!; try done.
    intros e [= <-]. by eexists.
  - cbn [fst snd]. split_and!; try done.
    intros b [= <-]. split; [done|]. cbn [host port]. by rewrite E, E'.
Qed.

(** X2: [decode] assigns each field as soon as it is read and stops at the
    first error: after a failed read of the id, the host and the port are
    those of before; after a failed read of the host, the port is; and the
    error returned is the decoder's.  The counter is never touched. *)
Theorem decode_stops_at_first_error (b : broker) (raw : list byte) :
  correlation_id (fst (decode b raw)) = correlation_id b
  /\ (forall v e r1,
        getInt32 raw = (v, Some e, r1) ->
        decode b raw = (set_id v b, Return (Some e)))
  /\ (forall v r1 h e r2,
        getInt32 raw = (v, None, r1) -> getString r1 = (h, Some e, r2) ->
        decode b raw = (set_host h (set_id v b), Return (Some e)))
  /\ (forall v r1 h r2 p e r3,
        getInt32 raw = (v, None, r1) -> getString r1 = (h, None, r2) ->
        getInt32 r2 = (p, Some e, r3) ->
        decode b raw
        = (set_port p (set_host h (set_id v b)), Return (Some e))).
Proof.
  unfold decode. split_and!.
  - destruct (getInt32 raw) as [[v [e|]] r1]; [done|].
    destruct (getString r1) as [[h [e|]] r2]; [done|].
    destruct (getInt32 r2) as [[p [e|]] r3]; [done|].
    by destruct (_ >? _).
  - by intros v e r1 ->.
  - by intros v r1 h e r2 -> ->.
  - by intros v r1 h r2 p e r3 -> -> ->.
Qed.

(** X3: a descriptor whose host is nil: when its port passes the test,
    [connect] dereferences the nil host and the call panics; when the port
    is too large, the test comes first and the call returns the
    [DecodingError]. *)
Theorem decode_nil_host (b : broker) (raw r1 r2 r3 : list byte) (i p : Z) :
  getInt32 raw = (i, None, r1) ->
  getString r1 = (None, None, r2) ->
  getInt32 r2 = (p, None, r3) ->
  (p <= 65535 -> snd (decode b raw) = Panic)
  /\ (65535 < p -> fails_with_DecodingError (snd (decode b raw))).
Proof.
  intros H1 H2 H3. unfold decode. rewrite H1, H2, H3. cbn [port set_port].
  unfold MaxUint16. destruct (Z.gtb_spec p 65535) as [Hgt|Hle]; cbn [snd].
  - split; [intros Hp; lia|intros _; by eexists].
  - split; [intros _; reflexivity|intros Hp; lia].
Qed.

End DescriptorEdges.

Lemma decode_nil_host_witness :
  snd (decode Example.b0 (encode {| id := 3; host := None; port := 9092;
                                    correlation_id := 0 |}))
  = Panic.
Proof.
  edestruct (@decode_nil_host Example.network realDecoder) with
    (b := Example.b0)
    (raw := encode {| id := 3; host := None; port := 9092;
                      correlation_id := 0 |})
    (i := 3) (p := 9092) as [H _]; [reflexivity..|].
  apply H. lia.
Defined.

(** ** When the connection panics *)

Section PanicProperties.

Context {codec : RequestCodec}.

(** A step that panics: some teardown has closed [b.requests] before. *)
Lemma step_panic_closed (l : label) (s s' : state) :
  Inv s -> step l s = Some s' -> panicked s' = true -> Requests ∈ closed s.
Proof.
  intros [HO HR HT HS HB] H. step_cases H; simpl_state.
  all: try (intros; congruence).
  all: intros _; try done; try (by apply (tear_queues _ HT)).
  all: try match goal with
       | H : callers _ !! _ = Some (C177 _ _ _ _) |- _ =>
           destruct (ord_c177 _ HR _ _ _ _ _ H) as [Hs117 _]
       end.
  all: exfalso; own_facts HO; unfold packets, errors in *; tauto.
Qed.

(** X4: the connection does not panic before a teardown: along every run, a
    state that has panicked has [b.requests] closed.  The closes of
    lines 126, 127, 162 and 163 and the sends of lines 161, 177 and 72
    find their channels open. *)
Theorem no_panic_before_teardown
    (b0 : broker) (ls : list label) (s : state) :
  run ls (connected b0) = Some s ->
  panicked s = true -> Requests ∈ closed s.
Proof.
  intros Hrun.
  cut (Inv s /\ (panicked s = true -> Requests ∈ closed s)); [tauto|].
  revert Hrun.
  apply (run_invariant
           (fun s => Inv s /\ (panicked s = true -> Requests ∈ closed s))).
  - intros l s1 s2 [HI HP] H. split; [by eapply Inv_step|].
    intros Hp. eapply step_closed_mono; [exact H|].
    by eapply step_panic_closed.
  - split; [|done]. split.
    + apply Own_connected.
    + apply Order_connected.
    + apply Tear_connected.
    + apply Served_connected.
    + apply Built_connected.
Qed.

End PanicProperties.

Lemma no_panic_before_teardown_witness :
  Requests ∈ closed (Example.after (Example.late_call ++ [LCaller 1])).
Proof.
  apply (no_panic_before_teardown Example.b0
           (Example.late_call ++ [LCaller 1])).
  - vm_compute. reflexivity.
  - vm_compute. reflexivity.
Defined.

Section AfterTeardown.

Context {codec : RequestCodec}.

Lemma step_panicked (l : label) (s : state) :
  panicked s = true -> step l s = None.
Proof. intros Hp. unfold step. by rewrite Hp. Qed.

(** X5: once a teardown has closed the queues, what is left of the connection
    panics where it uses them: a caller that sends its envelope on
    [b.requests] (line 176), the sender that hands a promise over on
    [b.responses] (line 124), and the other worker when it reaches line 76
    of its own teardown.  Neither send can be taken instead, and after the
    panic nothing runs. *)
Theorem use_after_teardown_panics (s : state) :
  panicked s = false ->
  (forall tid k req r pk,
      callers s !! tid = Some (C176 k req r pk) -> Requests ∈ closed s ->
      step (LCaller tid) s = Some (panic s) /\ step (LAccept tid) s = None)
  /\ (forall r,
        sender s = Running (S124 r) -> Responses ∈ closed s ->
        step LSender s = Some (panic s) /\ step LHandoff s = None)
  /\ (forall w p err,
        get_worker w s = Some (FD76, p, err) -> Requests ∈ closed s ->
        step (LDisconnect w) s = Some (panic s))
  /\ panicked (panic s) = true
  /\ (forall l, step l (panic s) = None).
Proof.
  intros Hp. split_and!.
  - intros tid k req r pk Ht Hc.
    unfold step, caller_step, accept_step, blocked_send, is_closed.
    rewrite Hp, Ht, bool_decide_eq_true_2 by done.
    split; [done|]. by repeat case_match.
  - intros r Hs Hc.
    unfold step, sender_step, handoff_step, blocked_send, is_closed.
    rewrite Hp, Hs, bool_decide_eq_true_2 by done.
    split; [done|]. by repeat case_match.
  - intros w p err Hw Hc.
    unfold step, disconnect_step, close, is_closed.
    by rewrite Hp, Hw, bool_decide_eq_true_2.
  - done.
  - intros l. by apply step_panicked.
Qed.

(** X6: a worker on line 72 of [forceDisconnect] waits for the caller of its
    promise: it moves only together with a caller that is in the select of
    [sendAndReceive] on that promise's [errors].  Until then it stays on
    line 72, whatever else runs; so after a plain [sendRequest] the
    teardown closes nothing. *)
Theorem forceDisconnect_waits
    (b0 : broker) (ls : list label) (s : state) (w : wid)
    (p : responsePromise) (err : error) :
  run ls (connected b0) = Some s -> panicked s = false ->
  get_worker w s = Some (FD72, p, err) ->
  step (LDisconnect w) s = None
  /\ (forall tid,
        is_Some (step (LFail w tid) s)
        <-> exists res rc,
              callers s !! tid = Some (C190 res rc)
              /\ errors rc = errors p)
  /\ (forall ls' s',
        run ls' s = Some s' ->
        (forall tid, LFail w tid ∉ ls') ->
        get_worker w s' = Some (FD72, p, err)
        /\ (errors p ∉ closed s') /\ (packets p ∉ closed s')).
Proof.
  intros Hrun Hp Hw.
  assert (Hopen : forall t, Inv t -> get_worker w t = Some (FD72, p, err) ->
            (errors p ∉ closed t) /\ (packets p ∉ closed t)).
  { intros t [HO _ _ _ _] Ht. destruct w; unfold get_worker in Ht.
    - pose proof (own_sender_open _ HO) as H.
      destruct (sender t) as [|pc q e|]; simplify_eq. cbn in H. tauto.
    - pose proof (own_receiver_open _ HO) as H.
      destruct (receiver t) as [|pc q e|]; simplify_eq. cbn in H. tauto. }
  pose proof (Inv_run _ _ _ Hrun) as HI.
  destruct (Hopen s HI Hw) as [He Hk].
  split_and!.
  - unfold step, disconnect_step, blocked_send, is_closed.
    by rewrite Hp, Hw, bool_decide_eq_false_2.
  - intros tid. unfold step, fail_step, is_closed. rewrite Hp, Hw.
    split.
    + intros [s' Hs']. destruct (callers s !! tid) as [[]|]; try done.
      case_bool_decide; [|done]. by do 2 eexists.
    + intros (res & rc & -> & Hrc). rewrite bool_decide_eq_true_2 by done.
      rewrite (bool_decide_eq_false_2 _ He). cbn. by eexists.
  - intros ls'. clear Hrun. revert s Hp Hw HI He Hk.
    induction ls' as [|l ls' IH]; intros s Hp Hw HI He Hk s' Hrun' Hno.
    + cbn in Hrun'. by simplify_eq.
    + cbn in Hrun'. destruct (step l s) as [s1|] eqn:E; [|done].
      assert (Hw1 : get_worker w s1 = Some (FD72, p, err)).
      { assert (Hl : forall tid, l <> LFail w tid).
        { intros tid ->. apply (Hno tid). by left. }
        clear IH Hrun' Hno HI. destruct w; unfold get_worker in *.
        - destruct (sender s) as [|pc q e|] eqn:Hs; simplify_eq.
          step_cases E; simpl_state; try done; try congruence.
          all: try (exfalso; eapply Hl; reflexivity).
          all: match goal with H : sender _ = _ |- _ => by rewrite H end.
        - destruct (receiver s) as [|pc q e|] eqn:Hs; simplify_eq.
          step_cases E; simpl_state; try done; try congruence.
          all: try (exfalso; eapply Hl; reflexivity).
          all: match goal with H : receiver _ = _ |- _ => by rewrite H end. }
      pose proof (Inv_step _ _ _ HI E) as HI1.
      destruct (Hopen s1 HI1 Hw1) as [He1 Hk1].
      destruct (decide (panicked s1 = true)) as [Hp1|Hp1].
      * destruct ls'; cbn in Hrun'; [by simplify_eq|].
        by rewrite step_panicked in Hrun'.
      * apply (IH s1); try done.
        -- by destruct (panicked s1).
        -- intros tid Hin. apply (Hno tid). by right.
Qed.

End AfterTeardown.

Lemma use_after_teardown_panics_witness :
  step (LCaller 1) (Example.after Example.late_call)
  = Some (panic (Example.after Example.late_call))
  /\ step (LDisconnect Receiver) (Example.after Example.both_fail)
     = Some (panic (Example.after Example.both_fail)).
Proof.
  split.
  - destruct (use_after_teardown_panics (Example.after Example.late_call))
      as (H & _); [reflexivity|].
    refine (proj1 (H 1%nat SendOnly
                     {| req_correlation_id := 1; req_body := 3%nat |}
                     {| response :=
                          {| rp_correlation_id := 1; rp_chans := 1 |};
                        expectResponse := false |}
                     (Some [x01]) _ _)).
    + vm_compute. reflexivity.
    + apply list_elem_of_In. vm_compute. tauto.
  - destruct (use_after_teardown_panics (Example.after Example.both_fail))
      as (_ & _ & H & _); [reflexivity|].
    apply (H Receiver {| rp_correlation_id := 0; rp_chans := 0 |}
             (NetError 54)).
    + vm_compute. reflexivity.
    + apply list_elem_of_In. vm_compute. tauto.
Defined.

Lemma forceDisconnect_waits_witness :
  step (LDisconnect Sender) (Example.after Example.unheard_failure) = None
  /\ forall tid,
       ~ is_Some (step (LFail Sender tid)
                    (Example.after Example.unheard_failure)).
Proof.
  assert (H : run Example.unheard_failure (connected Example.b0)
              = Some (Example.after Example.unheard_failure))
    by (vm_compute; reflexivity).
  destruct (forceDisconnect_waits Example.b0 _ _ Sender
              {| rp_correlation_id := 0; rp_chans := 0 |} (NetError 32) H)
    as (H1 & H2 & _); [reflexivity|reflexivity|].
  split; [exact H1|].
  intros tid Hs. apply H2 in Hs as (res & rc & Hc & _).
  destruct tid as [|tid]; vm_compute in Hc; discriminate.
Defined.

(** ** The counter and the channels under concurrent callers *)

Section ConcurrentCallers.

Context {codec : RequestCodec}.

Lemma step_descriptor (l : label) (s s' : state) :
  step l s = Some s' ->
  id (b s') = id (b s) /\ host (b s') = host (b s)
  /\ port (b s') = port (b s).
Proof. intros H. step_cases H; simpl_state; done. Qed.

Lemma increments_step (l : label) (s s' : state) :
  step l s = Some s' ->
  (count_if before_increment (callers s') + length (accepted s)
   <= count_if before_increment (callers s) + length (accepted s'))%nat.
Proof.
  intros H. step_cases H; simpl_obs.
  all: try lia.
  all: try match goal with
       | H : callers ?s !! ?i = Some ?c
         |- context [count_if ?f (<[?i:=?c']> (callers ?s))] =>
           pose proof (count_if_insert f _ _ _ c' H) as Hins
       end.
  all: rewrite ?count_if_app, ?length_app in *.
  all: cbn [count_if before_increment Datatypes.length] in *.
  all: rewrite ?before_increment_return_promise,
         ?before_increment_return_error in *.
  all: lia.
Qed.

Lemma counted_step (c0 : Z) (l : label) (s s' : state) (v : Z) :
  step l s = Some s' -> counted c0 s v -> counted c0 s' v.
Proof.
  intros H (k & Hk & ->). pose proof (increments_step _ _ _ H).
  exists k. split; [lia|done].
Qed.

Lemma Behind_step (c0 : Z) (l : label) (s s' : state) :
  Behind c0 s -> step l s = Some s' -> Behind c0 s'.
Proof.
  intros [Hc Hl] H.
  assert (Hmono : forall v, counted c0 s v -> counted c0 s' v)
    by (intros v; by eapply counted_step).
  split.
  - destruct (decide (correlation_id (b s') = correlation_id (b s)))
      as [->|Hne]; [by apply Hmono|].
    clear Hmono. step_cases H; simpl_obs; try done.
    match goal with
    | H : callers _ !! _ = Some (C178w _ _ _ _) |- _ =>
        destruct (Hl _ _ _ _ _ H) as (k' & Hk' & ->);
        pose proof (count_if_insert before_increment _ _ _
                      (return_promise k (response sendRequest)) H) as Hins
    end.
    rewrite before_increment_return_promise in Hins.
    cbn [before_increment] in Hins.
    exists (S k'). simpl_obs. cbn [correlation_id set_correlation_id].
    split; [lia|].
    rewrite wrap32_succ. f_equal. lia.
  - intros tid k req r v Ht.
    assert (Hold : counted c0 s v); [|by apply Hmono].
    clear Hmono. step_cases H; simpl_state; caller_lookup; eauto.
    all: try (by destruct k0).
    all: try match goal with k1 : call_kind |- _ => by destruct k1 end.
Qed.

(** X7: whatever the schedule, also with callers that race on line 178, the
    counter is the one [connect] found plus a number of increments that is
    at most the number of accepted envelopes whose callers have stored on
    line 178, as an int32: it never runs ahead of the requests, and callers
    that load the same value lose an increment.  The id, the host and the
    port of the broker are never written. *)
Theorem counter_at_most_accepted
    (b0 : broker) (ls : list label) (s : state) :
  int32_range (correlation_id b0) ->
  run ls (connected b0) = Some s ->
  (exists k : nat,
      (k + count_if before_increment (callers s) <= length (accepted s))%nat
      /\ correlation_id (b s) = wrap32 (correlation_id b0 + Z.of_nat k))
  /\ int32_range (correlation_id (b s))
  /\ id (b s) = id b0 /\ host (b s) = host b0 /\ port (b s) = port b0.
Proof.
  intros Hc Hrun.
  cut (Behind (correlation_id b0) s
       /\ id (b s) = id b0 /\ host (b s) = host b0 /\ port (b s) = port b0).
  { intros ([(k & Hk & Hv) _] & Hrest). split_and!; try tauto.
    - by exists k.
    - rewrite Hv. apply wrap32_range. }
  revert Hrun.
  apply (run_invariant
           (fun s =>
              Behind (correlation_id b0) s
              /\ id (b s) = id b0 /\ host (b s) = host b0
              /\ port (b s) = port b0)).
  - intros l s1 s2 (HB & Hi & Hh & Hp) H.
    destruct (step_descriptor _ _ _ H) as (Hi' & Hh' & Hp').
    split_and!; try congruence.
    by eapply Behind_step.
  - cbn. split_and!; try done. split.
    + exists 0%nat. cbn. split; [lia|].
      by rewrite Z.add_0_r, wrap32_id.
    + intros tid k req r v Ht. done.
Qed.

(** X8: two callers that are inside [sendRequest] at once read the same value
    of the counter: both requests are serialized with it and both promises
    carry it, on different channels. *)
Theorem concurrent_calls_share_id
    (b0 : broker) (k1 k2 : call_kind) (req1 req2 : request request_body)
    (pk1 pk2 : goslice) :
  buildBytes {| req_correlation_id := correlation_id b0;
                req_body := req_body req1 |} = inl pk1 ->
  buildBytes {| req_correlation_id := correlation_id b0;
                req_body := req_body req2 |} = inl pk2 ->
  exists s q1 q2 r1 r2,
    run [LCall k1 req1; LCall k2 req2; LCaller 0; LCaller 1; LCaller 0;
         LCaller 1] (connected b0) = Some s
    /\ callers s = [C176 k1 q1 r1 pk1; C176 k2 q2 r2 pk2]
    /\ req_correlation_id q1 = correlation_id b0
    /\ req_correlation_id q2 = correlation_id b0
    /\ rp_correlation_id (response r1) = correlation_id b0
    /\ rp_correlation_id (response r2) = correlation_id b0
    /\ rp_chans (response r1) <> rp_chans (response r2)
    /\ correlation_id (b s) = correlation_id b0
    /\ sequential s = false.
Proof.
  intros H1 H2. do 5 eexists. split.
  - unfold run, step, caller_step. cbn. rewrite H1. cbn. rewrite H2. cbn.
    reflexivity.
  - cbn. split_and!; done.
Qed.

(** X9: the channels of a promise serve twice, for the bytes of the request
    (line 177 to line 117) and for the reply (line 161 to line 191); the
    two uses never meet.  A caller on line 177 faces the sender that took
    its envelope; the two workers hold promises with different channels;
    no two accepted envelopes and no two callers have the same channels;
    and a worker finds the channels of its promise open. *)
Theorem promise_channels_apart
    (b0 : broker) (ls : list label) (s : state) :
  run ls (connected b0) = Some s ->
  (forall tid k req r pk,
      callers s !! tid = Some (C177 k req r pk) ->
      sender s = Running (S117 r))
  /\ (forall p q,
        sender_promise (sender s) = Some p ->
        receiver_promise (receiver s) = Some q ->
        packets p <> packets q /\ errors p <> errors q)
  /\ NoDup (map accepted_chans (accepted s))
  /\ (forall t1 t2 c1 c2 n,
        callers s !! t1 = Some c1 -> callers s !! t2 = Some c2 ->
        caller_chans c1 = Some n -> caller_chans c2 = Some n -> t1 = t2)
  /\ all_open (sender_open (sender s)) s
  /\ all_open (receiver_open (receiver s)) s.
Proof.
  intros Hrun. destruct (Inv_run _ _ _ Hrun) as [HO HR _ _ _].
  split_and!.
  - intros tid k req r pk Ht. by destruct (ord_c177 _ HR _ _ _ _ _ Ht).
  - intros p q Hp Hq. pose proof (own_apart _ HO) as Ha.
    unfold apart in Ha. rewrite Hp, Hq in Ha.
    unfold packets, errors. split; congruence.
  - apply (own_accepted_NoDup _ HO).
  - apply (own_caller_apart _ HO).
  - apply (own_sender_open _ HO).
  - apply (own_receiver_open _ HO).
Qed.

End ConcurrentCallers.

Lemma counter_at_most_accepted_witness :
  int32_range (correlation_id (b (Example.after Example.lost_update)))
  /\ correlation_id (b (Example.after Example.lost_update)) = 1
  /\ length (Example.accepted_after Example.lost_update) = 2%nat
  /\ count_if before_increment
       (callers (Example.after Example.lost_update)) = 0%nat.
Proof.
  destruct (counter_at_most_accepted Example.b0 Example.lost_update
              (Example.after Example.lost_update)) as (_ & H & _).
  - unfold int32_range; cbn; lia.
  - vm_compute. reflexivity.
  - split; [exact H|]. vm_compute. split_and!; reflexivity.
Defined.

Lemma concurrent_calls_share_id_witness :
  map caller_chans (callers (Example.after Example.racing_calls))
  = [Some 0%nat; Some 1%nat]
  /\ sequential (Example.after Example.racing_calls) = false.
Proof.
  destruct (concurrent_calls_share_id (codec := Example.codec) Example.b0
              SendOnly SendOnly
              (Example.req 2) (Example.req 4) (Some [x00]) (Some [x00]))
    as (s & q1 & q2 & r1 & r2 & Hrun & _); [reflexivity|reflexivity|].
  split; vm_compute; reflexivity.
Defined.

Lemma promise_channels_apart_witness :
  NoDup (map accepted_chans (Example.accepted_after Example.two_calls)).
Proof.
  destruct (promise_channels_apart Example.b0 Example.two_calls
              (Example.after Example.two_calls)) as (_ & _ & H & _).
  - vm_compute. reflexivity.
  - exact H.
Defined.

(** ** Replies and the headers they were read under *)

Section ReplyProperties.

Context {codec : RequestCodec}.

Lemma Replies_connected (b0 : broker) : Replies (connected b0).
Proof. split; cbn; [done|constructor]. Qed.

Lemma receiver_order_lengths (s : state) :
  receiver_order s ->
  (length (delivered s) <= length (matched s))%nat
  /\ (forall p buf, receiver s = Running (R161 p buf) ->
        length (matched s) = S (length (delivered s))).
Proof.
  intros Hr. destruct (receiver_order_prefix _ Hr) as [_ [k Hk]].
  apply (f_equal length) in Hk.
  rewrite length_app, !length_map in Hk. split; [lia|].
  intros p buf Hp. unfold receiver_order in Hr. rewrite Hp in Hr.
  destruct Hr as [_ Hd]. apply (f_equal length) in Hd.
  rewrite length_app, !length_map in Hd. cbn in Hd. lia.
Qed.

Lemma Replies_step_reading (l : label) (s s' : state) :
  Replies s -> step l s = Some s' -> receiver_reading s'.
Proof.
  intros [Hr _] H.
  step_cases H; unfold receiver_reading in *; simpl_obs;
    rewrite_pcs; try done.
  - by do 2 eexists.
  - destruct Hr as (ms & header & Hm & Hc). exists ms, header.
    split; [done|]. rewrite Hc. f_equal. lia.
Qed.

Lemma Replies_step_delivered (l : label) (s s' : state) :
  Order s -> Replies s -> step l s = Some s' ->
  Forall2 reply_of (delivered s') (take (length (delivered s')) (matched s')).
Proof.
  intros HR [Hr Hd] H.
  destruct (receiver_order_lengths _ (ord_receiver _ HR)) as [Hle Heq].
  step_cases H; unfold receiver_reading in *; simpl_obs;
    rewrite_pcs; try done.
  1-3: by rewrite take_app_le.
  destruct Hr as (ms & header & Hm & Hc).
  specialize (Heq _ _ eq_refl).
  assert (Hms : length ms = length (delivered s)).
  { apply (f_equal length) in Hm. rewrite length_app in Hm. cbn in Hm.
    lia. }
  rewrite length_app. cbn [length]. rewrite take_ge by lia.
  rewrite Hm in *. rewrite <- Hms, take_app_length in Hd.
  apply Forall2_app; [done|]. constructor; [|constructor]. done.
Qed.

Lemma Replies_run (b0 : broker) (ls : list label) (s : state) :
  run ls (connected b0) = Some s -> Replies s.
Proof.
  intros Hrun. cut (Inv s /\ Replies s); [tauto|]. revert Hrun.
  apply (run_invariant (fun s => Inv s /\ Replies s)).
  - intros l s1 s2 [HI HP] H. split; [by eapply Inv_step|]. split.
    + by eapply Replies_step_reading.
    + eapply Replies_step_delivered; [apply (inv_order _ HI)|done..].
  - split; [|apply Replies_connected]. split.
    + apply Own_connected.
    + apply Order_connected.
    + apply Tear_connected.
    + apply Served_connected.
    + apply Built_connected.
Qed.

(** X10: every reply handed to a caller was read under a header for that
    caller's promise: the i-th reply goes with the i-th header, which has
    the promise's correlation id and the length of the body plus 4.  So a
    body has between 1 and 131066 bytes, and the test [buf != nil] of
    line 193 never fails on a reply. *)
Theorem replies_match_headers
    (b0 : broker) (ls : list label) (s : state) (i : nat)
    (p : responsePromise) (buf : list byte) (tid : nat) :
  run ls (connected b0) = Some s ->
  delivered s !! i = Some (p, buf, tid) ->
  exists header,
    matched s !! i = Some (p, header)
    /\ frame_correlation header = rp_correlation_id p
    /\ frame_length header = Z.of_nat (length buf) + 4
    /\ 1 <= Z.of_nat (length buf) <= 131066 /\ buf <> [].
Proof.
  intros Hrun Hi. destruct (Replies_run _ _ _ Hrun) as [_ Hd].
  destruct (Forall2_lookup_l _ _ _ _ _ Hd Hi) as ([q header] & Hm & Hq & Hc).
  cbn in Hq, Hc. subst q.
  apply lookup_take_Some in Hm as [Hm _].
  apply check_header_HeaderOk in Hc as (Hlen & Hrange & Hcorr).
  unfold MaxUint16 in Hrange.
  exists header. split_and!; [done|done|done|lia|lia|].
  destruct buf; [cbn in Hrange; lia|done].
Qed.

End ReplyProperties.

Lemma replies_match_headers_witness :
  exists header,
    matched (Example.after Example.two_calls) !! 0%nat
    = Some ({| rp_correlation_id := 0; rp_chans := 0 |}, header)
    /\ frame_length header = 5.
Proof.
  destruct (replies_match_headers Example.b0 Example.two_calls
              (Example.after Example.two_calls) 0
              {| rp_correlation_id := 0; rp_chans := 0 |} [x2a] 0)
    as (h & H1 & _ & H2 & _);
    [vm_compute; reflexivity|vm_compute; reflexivity|].
  exists h. split; [exact H1|exact H2].
Defined.

(** ** A whole exchange on an idle connection *)

Section Exchange.

Context {codec : RequestCodec}.

Lemma lookup_snoc_last {A : Type} (l : list A) (x : A) :
  (l ++ [x]) !! length l = Some x.
Proof. by rewrite list_lookup_middle. Qed.

Lemma insert_snoc_last {A : Type} (l : list A) (x y : A) :
  <[length l := y]> (l ++ [x]) = l ++ [y].
Proof.
  rewrite insert_app_r_alt by lia. by rewrite Nat.sub_diag.
Qed.

(** The channels line 174 is about to make are new. *)
Lemma next_chans_open (s : state) :
  Own s ->
  (Packets (next_chans s) ∉ closed s) /\ (Errors (next_chans s) ∉ closed s).
Proof.
  intros HO. split; intros Hin.
  - pose proof (own_closed_made _ HO (next_chans s) (or_introl Hin)). lia.
  - pose proof (own_closed_made _ HO (next_chans s) (or_intror Hin)). lia.
Qed.

(** X11: on a connection at rest, one [sendAndReceive] whose request serializes
    and expects a response, answered by a frame with the request's
    correlation id and a body of the announced length: the call returns
    [true] with what the response decoder makes of the body, the counter
    has advanced by one, the two channels of the promise are closed, and
    the connection is at rest again, ready for the next call. *)
Theorem exchange_round_trip
    (b0 : broker) (ls : list label) (s : state) (res : decoder)
    (req : request request_body) (pk : goslice) (header body : list byte) :
  run ls (connected b0) = Some s -> idle s ->
  buildBytes {| req_correlation_id := correlation_id (b s);
                req_body := req_body req |} = inl pk ->
  req_expectResponse {| req_correlation_id := correlation_id (b s);
                        req_body := req_body req |} = true ->
  length header = 8%nat ->
  frame_correlation header = correlation_id (b s) ->
  frame_length header = Z.of_nat (length body) + 4 ->
  1 <= Z.of_nat (length body) <= 131066 ->
  exists s',
    run (exchange (length (callers s)) res req header body) s = Some s'
    /\ idle s'
    /\ callers s'
       = callers s
         ++ [SendAndReceiveReturned true (decode_response res body)]
    /\ correlation_id (b s') = wrap32 (correlation_id (b s) + 1)
    /\ next_chans s' = S (next_chans s)
    /\ closed s'
       = Errors (next_chans s) :: Packets (next_chans s) :: closed s
    /\ wire s'
       = wire s
         ++ [({| response := {| rp_correlation_id := correlation_id (b s);
                                rp_chans := next_chans s |};
                 expectResponse := true |}, pk)]
    /\ map (fun d => snd (fst d)) (delivered s')
       = map (fun d => snd (fst d)) (delivered s) ++ [body].
Proof.
  intros Hrun (Hp & Hs & Hr & Hc & Hq & Hrs) Hb He Hl Hcorr Hlen Hbody.
  destruct (next_chans_open s (inv_own _ (Inv_run _ _ _ Hrun))) as [Hk Her].
  assert (Hcheck : check_header
                     {| rp_correlation_id := correlation_id (b s);
                        rp_chans := next_chans s |} header
                   = HeaderOk (Z.of_nat (length body) + 4)).
  { apply check_header_HeaderOk. unfold MaxUint16. cbn. lia. }
  eexists. split.
  - unfold exchange. cbn [run].
    repeat (unfold step at 1, caller_step, accept_step, packet_step,
              sender_step, write_step, handoff_step, receiver_step,
              read_header_step, read_body_step, deliver_step, blocked_send,
              is_closed, sendAndReceive_select;
            simpl_state; rewrite ?Hp, ?Hs, ?Hr, ?Hc;
            rewrite ?insert_snoc_last, ?lookup_snoc_last;
            rewrite ?Hb, ?He, ?Hl, ?Hcheck;
            cbn [return_promise response expectResponse packets errors
                 rp_chans];
            rewrite ?bool_decide_eq_true_2 by done;
            rewrite ?bool_decide_eq_false_2
              by (rewrite ?elem_of_cons; intuition congruence);
            rewrite ?close_open
              by (simpl_state; unfold packets, errors; cbn [rp_chans];
                  rewrite ?elem_of_cons; intuition congruence);
            rewrite ?Z.add_simpl_r, ?Z.eqb_refl;
            cbn [andb negb Nat.eqb]).
    reflexivity.
  - unfold idle, wire. simpl_obs. rewrite ?insert_snoc_last.
    rewrite !map_app. cbn [map fst snd].
    unfold packets, errors. cbn [rp_chans set_correlation_id correlation_id].
    split_and!; try done.
    all: rewrite ?elem_of_cons; intuition congruence.
Qed.

(** X12: on a connection at rest, one [sendAndReceive] whose request serializes
    and expects no response: once the sender has written the bytes and
    closed the two channels, the call returns [false] and no error; the
    promise was not handed to the receiver, and the connection is at rest
    again. *)
Theorem one_way_round_trip
    (b0 : broker) (ls : list label) (s : state) (res : decoder)
    (req : request request_body) (pk : goslice) :
  run ls (connected b0) = Some s -> idle s ->
  buildBytes {| req_correlation_id := correlation_id (b s);
                req_body := req_body req |} = inl pk ->
  req_expectResponse {| req_correlation_id := correlation_id (b s);
                        req_body := req_body req |} = false ->
  exists s',
    run (one_way (length (callers s)) res req) s = Some s'
    /\ idle s'
    /\ callers s' = callers s ++ [SendAndReceiveReturned false None]
    /\ correlation_id (b s') = wrap32 (correlation_id (b s) + 1)
    /\ next_chans s' = S (next_chans s)
    /\ closed s'
       = Errors (next_chans s) :: Packets (next_chans s) :: closed s
    /\ wire s'
       = wire s
         ++ [({| response := {| rp_correlation_id := correlation_id (b s);
                                rp_chans := next_chans s |};
                 expectResponse := false |}, pk)]
    /\ handed s' = handed s /\ delivered s' = delivered s.
Proof.
  intros Hrun (Hp & Hs & Hr & Hc & Hq & Hrs) Hb He.
  destruct (next_chans_open s (inv_own _ (Inv_run _ _ _ Hrun))) as [Hk Her].
  eexists. split.
  - unfold one_way. cbn [run].
    repeat (unfold step at 1, caller_step, accept_step, packet_step,
              sender_step, write_step, select_closed_step, blocked_send,
              is_closed, sendAndReceive_select;
            simpl_state; rewrite ?Hp, ?Hs, ?Hr, ?Hc;
            rewrite ?insert_snoc_last, ?lookup_snoc_last;
            rewrite ?Hb, ?He;
            cbn [return_promise response expectResponse packets errors
                 rp_chans];
            rewrite ?bool_decide_eq_true_2
              by (rewrite ?elem_of_cons; first [done|intuition congruence]);
            rewrite ?bool_decide_eq_false_2
              by (rewrite ?elem_of_cons; intuition congruence);
            rewrite ?close_open
              by (simpl_state; unfold packets, errors; cbn [rp_chans];
                  rewrite ?elem_of_cons; intuition congruence);
            cbn [andb negb Nat.eqb]).
    reflexivity.
  - unfold idle, wire. simpl_obs. rewrite ?insert_snoc_last.
    rewrite !map_app. cbn [map fst snd].
    unfold packets, errors. cbn [rp_chans set_correlation_id correlation_id].
    split_and!; try done.
    all: rewrite ?elem_of_cons; intuition congruence.
Qed.

End Exchange.

Lemma exchange_round_trip_witness :
  exists s',
    run (exchange 0 true (Example.req 2) (frame_header 5 0) [x2a])
      (connected Example.b0) = Some s'
    /\ callers s' = [SendAndReceiveReturned true None]
    /\ correlation_id (b s') = 1.
Proof.
  destruct (exchange_round_trip (codec := Example.codec) Example.b0 []
              (connected Example.b0) true (Example.req 2) (Some [x00])
              (frame_header 5 0) [x2a] eq_refl)
    as (s' & H1 & _ & H2 & H3 & _).
  - unfold idle. cbn. split_and!; try done; apply not_elem_of_nil.
  - reflexivity.
  - reflexivity.
  - reflexivity.
  - reflexivity.
  - reflexivity.
  - cbn. lia.
  - exists s'. split_and!; [exact H1|exact H2|exact H3].
Defined.

Lemma one_way_round_trip_witness :
  exists s',
    run (one_way 0 true (Example.req 3)) (connected Example.b0) = Some s'
    /\ callers s' = [SendAndReceiveReturned false None].
Proof.
  destruct (one_way_round_trip (codec := Example.codec) Example.b0 []
              (connected Example.b0) true (Example.req 3) (Some [x00])
              eq_refl)
    as (s' & H1 & _ & H2 & _).
  - unfold idle. cbn. split_and!; try done; apply not_elem_of_nil.
  - reflexivity.
  - reflexivity.
  - exists s'. split; [exact H1|exact H2].
Defined.

(** ** Where errors come from, and how the workers end *)

Section WorkerProperties.

Context {codec : RequestCodec}.

(** X13: an error reaches a caller only from a worker that was serving its
    promise: from the sender, it is the error of the write of that
    request's bytes; from the receiver, the promise had been handed over.
    And a promise gets at most one error. *)
Theorem errors_have_sources
    (b0 : broker) (ls : list label) (s : state) (w : wid)
    (p : responsePromise) (err : error) (tid : nat) :
  run ls (connected b0) = Some s ->
  EvError w p err tid ∈ trace s ->
  match w with
  | Sender =>
      exists r buf, (r, buf, Some err) ∈ written s /\ response r = p
  | Receiver => p ∈ handed s
  end
  /\ errors_delivered p s = [(w, err, tid)].
Proof.
  intros Hrun Hin. destruct (Inv_run _ _ _ Hrun) as [_ _ HT HS _].
  split.
  - pose proof (srv_errors _ HS _ Hin) as H. by destruct w.
  - assert (Hd : (w, err, tid) ∈ errors_delivered p s).
    { unfold errors_delivered. apply list_elem_of_omap.
      exists (EvError w p err tid). split; [done|]. cbn.
      by rewrite bool_decide_eq_true_2. }
    destruct (tear_errors _ HT p) as [He|[He _]].
    + rewrite He in Hd. by apply elem_of_nil in Hd.
    + destruct (errors_delivered p s) as [|x [|y k]]; try done.
      by apply list_elem_of_singleton in Hd as ->.
Qed.

(** X14: line 178 on an int32, the load and the store with no other caller
    in between: below the largest value the counter grows by one, and from
    the largest value it goes to the smallest. *)
Theorem counter_increment_wraps
    (s : state) (tid : nat) (k : call_kind) (req : request request_body)
    (r : requestToSend) :
  panicked s = false ->
  callers s !! tid = Some (C178 k req r) ->
  int32_range (correlation_id (b s)) ->
  exists s',
    run [LCaller tid; LCaller tid] s = Some s'
    /\ int32_range (correlation_id (b s'))
    /\ (correlation_id (b s) < 2147483647 ->
        correlation_id (b s') = correlation_id (b s) + 1)
    /\ (correlation_id (b s) = 2147483647 ->
        correlation_id (b s') = -2147483648).
Proof.
  intros Hp Ht Hc. eexists. split.
  - by apply increment_run.
  - cbn. split_and!.
    + apply wrap32_range.
    + intros Hlt. apply wrap32_id. unfold int32_range in *. lia.
    + intros ->. reflexivity.
Qed.

(** A worker that has returned stays so. *)
Lemma step_Returned (l : label) (s s' : state) :
  step l s = Some s' ->
  (sender s = Returned -> sender s' = Returned)
  /\ (receiver s = Returned -> receiver s' = Returned).
Proof.
  intros H. step_cases H; simpl_state; split; intros Hr; try done.
  all: try congruence.
  all: match goal with w : wid |- _ => destruct w end; simpl_state;
    congruence.
Qed.

(** X15: the loops of the two workers end when their queues are closed: at the
    head of its loop, the sender returns once [b.requests] is closed and
    the receiver once [b.responses] is; until then neither can leave the
    head of its loop alone.  A worker that has returned never runs
    again. *)
Theorem workers_return (s : state) :
  panicked s = false ->
  (sender s = Running S116 ->
   (Requests ∈ closed s -> step LSender s = Some (set_sender Returned s))
   /\ (Requests ∉ closed s -> step LSender s = None))
  /\ (receiver s = Running R134 ->
      (Responses ∈ closed s ->
       step LReceiver s = Some (set_receiver Returned s))
      /\ (Responses ∉ closed s -> step LReceiver s = None))
  /\ (forall ls s',
        run ls s = Some s' ->
        (sender s = Returned -> sender s' = Returned)
        /\ (receiver s = Returned -> receiver s' = Returned)).
Proof.
  intros Hp. split_and!.
  - intros Hs. unfold step, sender_step, is_closed. rewrite Hp, Hs.
    split; intros Hc.
    + by rewrite bool_decide_eq_true_2.
    + by rewrite bool_decide_eq_false_2.
  - intros Hr. unfold step, receiver_step, is_closed. rewrite Hp, Hr.
    split; intros Hc.
    + by rewrite bool_decide_eq_true_2.
    + by rewrite bool_decide_eq_false_2.
  - intros ls. clear Hp. revert s.
    induction ls as [|l ls IH]; intros s s' Hrun; cbn in Hrun.
    + by simplify_eq.
    + destruct (step l s) as [s1|] eqn:E; [|done].
      destruct (step_Returned _ _ _ E) as [H1 H2].
      destruct (IH _ _ Hrun) as [H3 H4]. split; auto.
Qed.

End WorkerProperties.

Lemma errors_have_sources_witness :
  errors_delivered {| rp_correlation_id := 0; rp_chans := 0 |}
    (Example.after Example.torn_down)
  = [(Sender, NetError 32, 0%nat)].
Proof.
  destruct (errors_have_sources Example.b0 Example.torn_down
              (Example.after Example.torn_down)
              Sender {| rp_correlation_id := 0; rp_chans := 0 |}
              (NetError 32) 0) as [_ H].
  - vm_compute. reflexivity.
  - apply list_elem_of_In. vm_compute. tauto.
  - exact H.
Defined.

Lemma counter_increment_wraps_witness :
  exists s',
    run [LCaller 0; LCaller 0] (Example.after Example.to_line_178) = Some s'
    /\ correlation_id (b s') = 1.
Proof.
  destruct (counter_increment_wraps
              (Example.after Example.to_line_178) 0 SendOnly
              {| req_correlation_id := 0; req_body := 3%nat |}
              {| response := {| rp_correlation_id := 0; rp_chans := 0 |};
                 expectResponse := false |})
    as (s' & H1 & _ & H2 & _).
  - reflexivity.
  - reflexivity.
  - vm_compute. split; [discriminate|reflexivity].
  - exists s'. split; [exact H1|]. apply H2. vm_compute. reflexivity.
Defined.

Lemma workers_return_witness :
  step LReceiver (Example.after Example.torn_down)
  = Some (set_receiver Returned (Example.after Example.torn_down)).
Proof.
  destruct (workers_return (Example.after Example.torn_down))
    as (_ & H & _); [reflexivity|].
  destruct H as [H _]; [reflexivity|].
  apply H. apply list_elem_of_In. vm_compute. tauto.
Defined.
